(** * obsidian-tos-picbed: paste-to-upload text protocol and reference deletion

    A shallow embedding of [src/main.ts].

    Strings.  A JavaScript string is embedded as the [string] of its UTF-8
    bytes, so every well-formed JavaScript string has exactly one image and
    ASCII text is written as it is in the source.  Offsets and lengths are
    counted in bytes on both sides of the editor interface, which keeps
    [indexOf], [length], [offsetToPos] and the regular-expression indices
    consistent with each other.

    Effects.  The handlers run against a [World]: the editor buffer with its
    cursor, the notices shown to the user and the log of calls sent to the
    object-storage client.  The storage client and the clock are external;
    their answers are inputs of the model. *)

From Stdlib Require Import Bool Arith ZArith Lia List Ascii String.
From Stdlib Require Import Numbers.DecimalString Numbers.DecimalPos Numbers.DecimalZ.
Import ListNotations.

#[local] Open Scope list_scope.
#[local] Open Scope string_scope.

(** * The embedding *)

(** ** JavaScript string primitives used by the plugin *)

Module Js.

(** [s.length] is [String.length s]; [a + b] is [a ++ b]. *)

Fixpoint take (n : nat) (s : string) : string :=
  match n, s with
  | S n', String c s' => String c (take n' s')
  | _, _ => ""
  end.

Fixpoint drop (n : nat) (s : string) : string :=
  match n, s with
  | S n', String _ s' => drop n' s'
  | _, _ => s
  end.

(** [s.slice(from, to)] for non-negative indices. *)
Definition slice (from to : nat) (s : string) : string :=
  take (to - from) (drop from s).

(** [s.startsWith(p)]. *)
Fixpoint startsWith (p s : string) : bool :=
  match p, s with
  | "", _ => true
  | String a p', String b s' => Ascii.eqb a b && startsWith p' s'
  | String _ _, "" => false
  end.

(** [hay.indexOf(needle)]: the least offset at which [needle] occurs, [None]
    for the source's [-1]. *)
Fixpoint indexOf (needle hay : string) : option nat :=
  if startsWith needle hay then Some 0
  else match hay with
       | "" => None
       | String _ hay' => option_map S (indexOf needle hay')
       end.

(** [hay.includes(needle)]. *)
Definition includes (needle hay : string) : bool :=
  match indexOf needle hay with Some _ => true | None => false end.

(** [hay.replace(needle, repl)] with a string pattern: only the first
    occurrence is replaced.  The plugin always passes [""] as replacement, so
    the dollar patterns of replacement strings play no part. *)
Definition replace (needle repl hay : string) : string :=
  match indexOf needle hay with
  | Some i => take i hay ++ repl ++ drop (i + String.length needle) hay
  | None => hay
  end.

(** [s.split(sep)] for a one-character separator: never the empty list. *)
Fixpoint split (sep : ascii) (s : string) : list string :=
  match s with
  | "" => [""]
  | String c s' =>
      if Ascii.eqb c sep then "" :: split sep s'
      else match split sep s' with
           | seg :: segs => String c seg :: segs
           | [] => [String c ""]
           end
  end.

(** [parts.join(sep)]. *)
Fixpoint join (sep : string) (parts : list string) : string :=
  match parts with
  | [] => ""
  | [p] => p
  | p :: ps => p ++ sep ++ join sep ps
  end.

(** [parts.pop()] read as a value: the last element. *)
Definition pop (parts : list string) : string := List.last parts "".

(** A string is truthy when it is not empty. *)
Definition truthy (s : string) : bool :=
  match s with "" => false | _ => true end.

(** Template rendering of an integral Number, as [`${Date.now()}`] does. *)
Definition decimal (z : Z) : string := NilEmpty.string_of_int (Z.to_int z).

End Js.

(** ** Placeholder token *)

(** [`{{TOS_UPLOADING:${Date.now()}-${Math.random().toString(36).slice(2, 8)}}}`]
    with the clock reading [now] and the base-36 rendering [r36] of the random
    draw (a text such as [0.4fzyo82mvyr]). *)
Definition randomSuffix (r36 : string) : string := Js.slice 2 8 r36.

Definition placeholderToken (now : Z) (r36 : string) : string :=
  "{{TOS_UPLOADING:" ++ Js.decimal now ++ "-" ++ randomSuffix r36 ++ "}}".


(** ** Regular expressions

    A backtracking matcher with the priorities of ECMAScript: the left branch
    of an alternative first, a greedy quantifier longest first, a lazy one
    shortest first.  Only the constructs the plugin's five patterns use are
    present, and one capturing group, which is all any of them has (and
    none has it under a quantifier, so captures are never reset). *)

Module Re.

Inductive regex : Type :=
| Chr (c : ascii)                    (* a pattern character *)
| Any                                (* .  : anything but a line terminator *)
| Bol                                (* ^  : start of input (no m flag) *)
| Eol                                (* $  : end of input (no m flag) *)
| Eps                                (* the empty pattern *)
| Seq (r1 r2 : regex)
| Alt (r1 r2 : regex)                (* r1|r2 *)
| Star (greedy : bool) (r : regex)   (* r* and r*? *)
| Group (r : regex).                 (* (r), capture 1 *)

(** [r+], [r?] and a run of pattern characters. *)
Definition Plus (r : regex) : regex := Seq r (Star true r).
Definition Opt (r : regex) : regex := Alt r Eps.
Fixpoint Lit (s : string) : regex :=
  match s with
  | "" => Eps
  | String c "" => Chr c
  | String c s' => Seq (Chr c) (Lit s')
  end.

(** A regular-expression object: pattern and flags. *)
Record RegExp : Type := { source : regex; ignoreCase : bool; global : bool }.

(** The matcher's state: offset reached, input left, capture 1. *)
Record state : Type := St { pos : nat; rest : string; cap : option string }.

Definition LF : ascii := ascii_of_nat 10.
Definition CR : ascii := ascii_of_nat 13.
(** U+2028 and U+2029 in UTF-8. *)
Definition LS : string :=
  String (ascii_of_nat 226) (String (ascii_of_nat 128) (String (ascii_of_nat 168) "")).
Definition PS : string :=
  String (ascii_of_nat 226) (String (ascii_of_nat 128) (String (ascii_of_nat 169) "")).

(** Whether the input starts with a line terminator, which [.] refuses. *)
Definition line_terminator_at (s : string) : bool :=
  match s with
  | "" => false
  | String c _ =>
      Ascii.eqb c LF || Ascii.eqb c CR || Js.startsWith LS s || Js.startsWith PS s
  end.

(** Canonicalize of the i flag.  Without the u flag a character outside
    ASCII never folds onto an ASCII one, and every pattern character of the
    plugin is ASCII, so folding the ASCII letters is all that can match. *)
Definition upper (c : ascii) : ascii :=
  let n := nat_of_ascii c in
  if ((97 <=? n) && (n <=? 122))%nat then ascii_of_nat (n - 32) else c.

Definition char_eq (ic : bool) (c d : ascii) : bool :=
  if ic then Ascii.eqb (upper c) (upper d) else Ascii.eqb c d.

Definition advance (x : state) : state :=
  match rest x with
  | "" => x
  | String _ s' => {| pos := S (pos x); rest := s'; cap := cap x |}
  end.

(** [m ic r k x]: match [r] at [x], then the continuation [k]; the first
    success in priority order.  An iteration of a quantifier that consumes
    nothing is rejected, as RepeatMatcher does, so the length of the input left
    bounds the number of iterations. *)
Fixpoint m (ic : bool) (r : regex) (k : state -> option state) (x : state)
  : option state :=
  match r with
  | Chr c =>
      match rest x with
      | String d _ => if char_eq ic c d then k (advance x) else None
      | "" => None
      end
  | Any =>
      match rest x with
      | String _ _ => if line_terminator_at (rest x) then None else k (advance x)
      | "" => None
      end
  | Bol => if (pos x =? 0)%nat then k x else None
  | Eol => match rest x with "" => k x | _ => None end
  | Eps => k x
  | Seq r1 r2 => m ic r1 (m ic r2 k) x
  | Alt r1 r2 =>
      match m ic r1 k x with
      | Some y => Some y
      | None => m ic r2 k x
      end
  | Star greedy r' =>
      (fix loop (fuel : nat) (x : state) {struct fuel} : option state :=
         match fuel with
         | 0 => k x
         | S fuel' =>
             let again (_ : unit) :=
               m ic r' (fun y => if (pos x <? pos y)%nat then loop fuel' y else None) x in
             if greedy
             then match again tt with Some z => Some z | None => k x end
             else match k x with Some z => Some z | None => again tt end
         end) (String.length (rest x)) x
  | Group r' =>
      m ic r'
        (fun y => k {| pos := pos y; rest := rest y;
                       cap := Some (Js.take (pos y - pos x) (rest x)) |}) x
  end.

(** The iteration of a quantifier, as [m] runs it. *)
Definition iterate (ic greedy : bool) (r : regex) (k : state -> option state)
  : nat -> state -> option state :=
  fix loop (fuel : nat) (x : state) {struct fuel} : option state :=
    match fuel with
    | 0 => k x
    | S fuel' =>
        let again (_ : unit) :=
          m ic r (fun y => if (pos x <? pos y)%nat then loop fuel' y else None) x in
        if greedy
        then match again tt with Some z => Some z | None => k x end
        else match k x with Some z => Some z | None => again tt end
    end.

(** A match result: [m.index], [m[0]] and [m[1]]. *)
Record Match : Type := { index : nat; text : string; group1 : option string }.

Definition match_at (re : RegExp) (i : nat) (s : string) : option Match :=
  match m (ignoreCase re) (source re) Some {| pos := i; rest := s; cap := None |} with
  | Some y => Some {| index := i; text := Js.take (pos y - i) s; group1 := cap y |}
  | None => None
  end.

(** The leftmost match at or after offset [i], where [s] is the input from
    [i] on. *)
Fixpoint search (re : RegExp) (i : nat) (s : string) : option Match :=
  match match_at re i s with
  | Some mt => Some mt
  | None =>
      match s with
      | "" => None
      | String _ s' => search re (S i) s'
      end
  end.

(** [re.exec(s)] with [lastIndex] at 0, which is also [s.match(re)] for a
    pattern without the g flag. *)
Definition exec (re : RegExp) (s : string) : option Match := search re 0 s.

(** The successive matches of a global pattern.  [skip] counts the offsets
    still covered by the previous match: after a match of length [n] at [i]
    the next attempt is at [i + n], or at [i + 1] when [n] is 0. *)
Fixpoint scan (re : RegExp) (i skip : nat) (s : string) : list Match :=
  let here := match skip with 0 => match_at re i s | S _ => None end in
  match here with
  | Some mt =>
      mt :: match s with
            | "" => []
            | String _ s' => scan re (S i) (String.length (text mt) - 1) s'
            end
  | None =>
      match s with
      | "" => []
      | String _ s' => scan re (S i) (skip - 1) s'
      end
  end.

(** [[...s.matchAll(re)]] for a pattern with the g flag. *)
Definition matchAll (re : RegExp) (s : string) : list Match := scan re 0 0 s.

(** The assembly step of [s.replace(re, repl)]: the text between the matches
    is kept and each match gives way to [repl] (a text without dollar
    patterns). *)
Fixpoint substitute (ms : list Match) (repl : string) (next : nat) (s : string) : string :=
  match ms with
  | [] => Js.drop next s
  | mt :: ms' =>
      if (next <=? index mt)%nat
      then Js.slice next (index mt) s ++ repl
           ++ substitute ms' repl (index mt + String.length (text mt)) s
      else substitute ms' repl next s
  end.

(** [s.replace(re, repl)]: every match with the g flag, the first without. *)
Definition replace (re : RegExp) (repl : string) (s : string) : string :=
  let results :=
    if global re then matchAll re s
    else match exec re s with Some mt => [mt] | None => [] end in
  substitute results repl 0 s.

(** [re.test(s)]. *)
Definition test (re : RegExp) (s : string) : bool :=
  match exec re s with Some _ => true | None => false end.

End Re.

(** ** The patterns of the plugin *)

Definition slash : Re.regex := Re.Chr "/".

(** [/^\/+|\/+$/g], in [normPrefix]. *)
Definition re_trim_slashes : Re.RegExp :=
  {| Re.source := Re.Alt (Re.Seq Re.Bol (Re.Plus slash)) (Re.Seq (Re.Plus slash) Re.Eol);
     Re.ignoreCase := false; Re.global := true |}.

(** [/^\/+/], in [parseKeyFromUrlOrKey]. *)
Definition re_leading_slashes : Re.RegExp :=
  {| Re.source := Re.Seq Re.Bol (Re.Plus slash);
     Re.ignoreCase := false; Re.global := false |}.

(** The pattern [!\[.*?\]\((.*?)\)] of an Image Reference. *)
Definition image_reference : Re.regex :=
  Re.Seq (Re.Lit "![")
    (Re.Seq (Re.Star false Re.Any)
       (Re.Seq (Re.Lit "](")
          (Re.Seq (Re.Group (Re.Star false Re.Any)) (Re.Chr ")")))).

(** Without flags, in Delete-one. *)
Definition re_image : Re.RegExp :=
  {| Re.source := image_reference; Re.ignoreCase := false; Re.global := false |}.

(** With the g flag, in Delete-all. *)
Definition re_image_g : Re.RegExp :=
  {| Re.source := image_reference; Re.ignoreCase := false; Re.global := true |}.

(** [/!\[\[Pasted image.*?\.(?:png|jpe?g|gif|webp|svg)\]\]/gi], the residue of
    the editor's own embedding. *)
Definition imgRe : Re.RegExp :=
  {| Re.source :=
       Re.Seq (Re.Lit "![[Pasted image")
         (Re.Seq (Re.Star false Re.Any)
            (Re.Seq (Re.Chr ".")
               (Re.Seq
                  (Re.Alt (Re.Lit "png")
                     (Re.Alt (Re.Seq (Re.Lit "jp") (Re.Seq (Re.Opt (Re.Chr "e")) (Re.Chr "g")))
                        (Re.Alt (Re.Lit "gif") (Re.Alt (Re.Lit "webp") (Re.Lit "svg")))))
                  (Re.Lit "]]"))));
     Re.ignoreCase := true; Re.global := true |}.

(** ** Percent-encoding *)

Module Uri.

Definition between (lo hi : nat) (c : ascii) : bool :=
  (lo <=? nat_of_ascii c)%nat && (nat_of_ascii c <=? hi)%nat.

Definition is_alpha (c : ascii) : bool := between 65 90 c || between 97 122 c.
Definition is_alnum (c : ascii) : bool := is_alpha c || between 48 57 c.

Fixpoint mem (c : ascii) (set : string) : bool :=
  match set with
  | "" => false
  | String d set' => Ascii.eqb c d || mem c set'
  end.

(** The characters [encodeURIComponent] leaves alone. *)
Definition unreserved (c : ascii) : bool := is_alnum c || mem c "-_.!~*'()".

Definition hex_digit (n : nat) : ascii :=
  if (n <? 10)%nat then ascii_of_nat (48 + n) else ascii_of_nat (55 + n).

Definition hex_value (c : ascii) : option nat :=
  let n := nat_of_ascii c in
  if between 48 57 c then Some (n - 48)
  else if between 65 70 c then Some (n - 55)
  else if between 97 102 c then Some (n - 87)
  else None.

(** [%XX] with upper-case digits. *)
Definition escape (c : ascii) : string :=
  let n := nat_of_ascii c in
  String "%" (String (hex_digit (n / 16)) (String (hex_digit (n mod 16)) "")).

(** [encodeURIComponent(s)].  Every byte of the UTF-8 form of a character
    outside the unreserved set is escaped.  The source throws URIError on a
    lone surrogate; such a string has no UTF-8 form, hence no image here. *)
Fixpoint encodeURIComponent (s : string) : string :=
  match s with
  | "" => ""
  | String c s' =>
      (if unreserved c then String c "" else escape c) ++ encodeURIComponent s'
  end.

(** Well-formed UTF-8 (Unicode, table 3-7): the number of bytes a lead byte
    announces, 0 for a byte that cannot lead, and the range of the second
    byte, which excludes overlong forms, surrogates and code points above
    U+10FFFF. *)
Definition width (lead : ascii) : nat :=
  if between 0 127 lead then 1
  else if between 194 223 lead then 2
  else if between 224 239 lead then 3
  else if between 240 244 lead then 4
  else 0.

Definition continuation (b : ascii) : bool := between 128 191 b.

Definition second_ok (lead b : ascii) : bool :=
  let n := nat_of_ascii lead in
  if (n =? 224)%nat then between 160 191 b
  else if (n =? 237)%nat then between 128 159 b
  else if (n =? 240)%nat then between 144 191 b
  else if (n =? 244)%nat then between 128 143 b
  else continuation b.

(** The units of an encoded text: a character standing for itself, or the
    byte of an escape. *)
Inductive piece : Type :=
| Raw (c : ascii)
| Escaped (b : ascii).

Fixpoint unescape (s : string) : option (list piece) :=
  match s with
  | "" => Some []
  | String c s' =>
      if Ascii.eqb c "%"
      then match s' with
           | String h (String l s'') =>
               match hex_value h, hex_value l, unescape s'' with
               | Some a, Some b, Some us => Some (Escaped (ascii_of_nat (16 * a + b)) :: us)
               | _, _, _ => None
               end
           | _ => None
           end
      else option_map (cons (Raw c)) (unescape s')
  end.

(** Escaped bytes of 128 and above must spell a well-formed UTF-8 sequence,
    each byte as an escape of its own. *)
Fixpoint assemble (us : list piece) : option string :=
  match us with
  | [] => Some ""
  | Raw c :: us' => option_map (String c) (assemble us')
  | Escaped b :: us' =>
      match width b with
      | 1 => option_map (String b) (assemble us')
      | 2 =>
          match us' with
          | Escaped b1 :: us2 =>
              if second_ok b b1
              then option_map (fun t => String b (String b1 t)) (assemble us2)
              else None
          | _ => None
          end
      | 3 =>
          match us' with
          | Escaped b1 :: Escaped b2 :: us3 =>
              if second_ok b b1 && continuation b2
              then option_map (fun t => String b (String b1 (String b2 t))) (assemble us3)
              else None
          | _ => None
          end
      | 4 =>
          match us' with
          | Escaped b1 :: Escaped b2 :: Escaped b3 :: us4 =>
              if second_ok b b1 && continuation b2 && continuation b3
              then option_map (fun t => String b (String b1 (String b2 (String b3 t))))
                     (assemble us4)
              else None
          | _ => None
          end
      | _ => None
      end
  end.

(** [decodeURIComponent(s)]; [None] is the source's URIError. *)
Definition decodeURIComponent (s : string) : option string :=
  match unescape s with
  | Some us => assemble us
  | None => None
  end.

End Uri.

(** ** What the model takes from the platform

    Two behaviours of the host application are inputs of the model rather than
    part of it: how the URL parser judges a host name (IDNA processing and IP
    literals, which depend on Unicode tables) and what it makes of a URL whose
    scheme is outside the http family; and where the editor leaves the cursor
    when the text changes under it. *)

Record EditorPosition : Type := { line : nat; ch : nat }.

Record Platform : Type := {
  (** the URL parser accepts this host of an http-family URL *)
  host_ok : string -> bool;
  (** [new URL(input).pathname] for another scheme: the scheme in lower case
      and the input after its colon; [None] when the constructor throws *)
  other_scheme_pathname : string -> string -> option string;
  (** the cursor after the text between two offsets of the old document gave
      way to an inserted text: old document, from, to, inserted, old cursor *)
  cursor_after_change : string -> nat -> nat -> string -> EditorPosition -> EditorPosition
}.

(** ** The URL parser, as far as [pathname] needs it

    The basic URL parser of the URL Standard without a base URL, for the
    schemes http, https, ws, wss and ftp. *)

Module Url.

Definition lower (c : ascii) : ascii :=
  if Uri.between 65 90 c then ascii_of_nat (nat_of_ascii c + 32) else c.

Fixpoint lower_string (s : string) : string :=
  match s with
  | "" => ""
  | String c s' => String (lower c) (lower_string s')
  end.

(** A C0 control or space. *)
Definition c0_or_space (c : ascii) : bool := (nat_of_ascii c <=? 32)%nat.

Definition tab_or_newline (c : ascii) : bool :=
  let n := nat_of_ascii c in ((n =? 9) || (n =? 10) || (n =? 13))%nat.

Fixpoint trim_start (s : string) : string :=
  match s with
  | String c s' => if c0_or_space c then trim_start s' else s
  | "" => ""
  end.

Fixpoint trim_end (s : string) : string :=
  match s with
  | "" => ""
  | String c s' =>
      match trim_end s' with
      | "" => if c0_or_space c then "" else String c ""
      | t => String c t
      end
  end.

Fixpoint remove_tab_newline (s : string) : string :=
  match s with
  | "" => ""
  | String c s' =>
      if tab_or_newline c then remove_tab_newline s' else String c (remove_tab_newline s')
  end.

(** Scheme start state and scheme state: a letter, then letters, digits,
    [+], [-] and [.] up to the colon.  The result is the scheme in lower
    case and what follows the colon. *)
Fixpoint scheme_rest (s : string) : option (string * string) :=
  match s with
  | "" => None
  | String c s' =>
      if Ascii.eqb c ":" then Some ("", s')
      else if Uri.is_alnum c || Uri.mem c "+-."
           then match scheme_rest s' with
                | Some (sch, rest) => Some (String (lower c) sch, rest)
                | None => None
                end
           else None
  end.

Definition scheme (s : string) : option (string * string) :=
  match s with
  | String c _ => if Uri.is_alpha c then scheme_rest s else None
  | "" => None
  end.

Definition http_family (sch : string) : bool :=
  String.eqb sch "http" || String.eqb sch "https" || String.eqb sch "ws"
  || String.eqb sch "wss" || String.eqb sch "ftp".

Definition is_slash (c : ascii) : bool := Ascii.eqb c "/" || Ascii.eqb c "\".

(** Special authority slashes and ignore-slashes states. *)
Fixpoint skip_slashes (s : string) : string :=
  match s with
  | String c s' => if is_slash c then skip_slashes s' else s
  | "" => ""
  end.

(** The text up to the first character of [stops], and the text from it on. *)
Fixpoint break (stops : string) (s : string) : string * string :=
  match s with
  | "" => ("", "")
  | String c s' =>
      if Uri.mem c stops then ("", s)
      else let (a, b) := break stops s' in (String c a, b)
  end.

(** What follows the last [@], the whole text when there is none. *)
Fixpoint after_credentials (s : string) : string :=
  match s with
  | "" => ""
  | String c s' =>
      if Uri.mem "@" s' then after_credentials s'
      else if Ascii.eqb c "@" then s' else s
  end.

(** Host and port of an authority without credentials; an IPv6 literal keeps
    its brackets and its colons. *)
Definition host_port (s : string) : option (string * string) :=
  if Js.startsWith "[" s
  then let (h, r) := break "]" s in
       match r with
       | String _ "" => Some (h ++ "]", "")
       | String _ (String c p) => if Ascii.eqb c ":" then Some (h ++ "]", p) else None
       | _ => None
       end
  else let (h, r) := break ":" s in
       match r with
       | "" => Some (h, "")
       | String _ p => Some (h, p)
       end.

Fixpoint port_value (acc : N) (s : string) : option N :=
  match s with
  | "" => Some acc
  | String c s' =>
      if Uri.between 48 57 c
      then let v := (acc * 10 + N.of_nat (nat_of_ascii c - 48))%N in
           if (v <=? 65535)%N then port_value v s' else None
      else None
  end.

(** The path percent-encode set. *)
Definition in_path_set (c : ascii) : bool :=
  let n := nat_of_ascii c in
  (n <=? 32)%nat || (127 <=? n)%nat || (n =? 34)%nat || Uri.mem c "#<>?^`{}".

Fixpoint encode_path_segment (s : string) : string :=
  match s with
  | "" => ""
  | String c s' =>
      (if in_path_set c then Uri.escape c else String c "") ++ encode_path_segment s'
  end.

Definition single_dot (seg : string) : bool :=
  let l := lower_string seg in String.eqb l "." || String.eqb l "%2e".

Definition double_dot (seg : string) : bool :=
  let l := lower_string seg in
  String.eqb l ".." || String.eqb l ".%2e" || String.eqb l "%2e." || String.eqb l "%2e%2e".

(** The segments of a path text, cut at every slash and backslash. *)
Fixpoint segments (s : string) : list string :=
  match s with
  | "" => [""]
  | String c s' =>
      if is_slash c then "" :: segments s'
      else match segments s' with
           | seg :: segs => String c seg :: segs
           | [] => [String c ""]
           end
  end.

(** Path state.  [acc] is the path so far, last segment first. *)
Fixpoint path_state (acc : list string) (segs : list string) : list string :=
  match segs with
  | [] => List.rev acc
  | seg :: segs' =>
      let last := match segs' with [] => true | _ => false end in
      let buffer := encode_path_segment seg in
      if double_dot buffer
      then path_state (if last then "" :: List.tl acc else List.tl acc) segs'
      else if single_dot buffer
           then path_state (if last then "" :: acc else acc) segs'
           else path_state (buffer :: acc) segs'
  end.

(** Path start state, path state and the serialization of the path. *)
Definition path_of (after_authority : string) : string :=
  let (text, _) := break "?#" after_authority in
  let text' := match text with
               | String c t => if is_slash c then t else text
               | "" => ""
               end in
  "/" ++ Js.join "/" (path_state [] (segments text')).

(** [new URL(input).pathname]; [None] is the TypeError of the constructor. *)
Definition pathname (pf : Platform) (input : string) : option string :=
  let input' := remove_tab_newline (trim_end (trim_start input)) in
  match scheme input' with
  | None => None
  | Some (sch, rest) =>
      if http_family sch
      then
        let (authority, after) := break "/\?#" (skip_slashes rest) in
        match host_port (after_credentials authority) with
        | None => None
        | Some (h, p) =>
            match port_value 0 p with
            | None => None
            | Some _ =>
                if Js.truthy h && host_ok pf h then Some (path_of after) else None
            end
        end
      else other_scheme_pathname pf sch rest
  end.

End Url.

(** ** Settings, storage client and uploader *)

Record TosPicbedPluginSettings : Type := {
  secretId : string;
  secretKey : string;
  bucket : string;
  region : string;
  prefix : string;
  usePublicUrl : bool
}.

Definition DEFAULT_SETTINGS : TosPicbedPluginSettings :=
  {| secretId := ""; secretKey := ""; bucket := ""; region := ""; prefix := "";
     usePublicUrl := true |}.

(** A pasted file, as far as the plugin reads it: [file.name] and
    [file.type]. *)
Record File : Type := { name : string; type : string }.

(** A failure of the storage client, with its message. *)
Record Error : Type := { message : string }.

Inductive result (A : Type) : Type :=
| Ok (a : A)
| Throw (e : Error).
Arguments Ok {A} a.
Arguments Throw {A} e.

(** The calls the plugin sends to the bucket. *)
Inductive Call : Type :=
| PutObject (bucket key : string) (contentType : option string)
| DeleteObject (bucket key : string).

(** The storage client is external.  [respond n c] is its answer to the call
    [c] when [n] calls went before it: [None] when the promise resolves, the
    error when it rejects. *)
Record TosClient : Type := {
  respond : nat -> Call -> option Error;
  getPreSignedUrl : string -> string -> result string
}.

Record TosUploader : Type := { settings : TosPicbedPluginSettings; client : TosClient }.

(** The constructor: it throws when a credential, the bucket or the region is
    empty. *)
Definition new_TosUploader (s : TosPicbedPluginSettings) (c : TosClient) : result TosUploader :=
  if negb (Js.truthy (secretId s)) || negb (Js.truthy (secretKey s))
  then Throw {| message := "SecretId/SecretKey" |}
  else if negb (Js.truthy (bucket s)) || negb (Js.truthy (region s))
       then Throw {| message := "Bucket/Region" |}
       else Ok {| settings := s; client := c |}.

Definition normPrefix (s : TosPicbedPluginSettings) : string :=
  let p := Re.replace re_trim_slashes "" (prefix s) in
  if Js.truthy p then p ++ "/" else "".

(** The object name [uploadFile] builds from the file name and the clock. *)
Definition objectName (file : File) (now : Z) : string :=
  let ext := if Js.includes "." (name file) then Js.pop (Js.split "." (name file)) else "" in
  if Js.truthy ext then Js.decimal now ++ "." ++ ext else Js.decimal now.

Definition storageKey (s : TosPicbedPluginSettings) (file : File) (now : Z) : string :=
  normPrefix s ++ objectName file now.

Definition publicUrl (s : TosPicbedPluginSettings) (key : string) : string :=
  let safeKey := Js.join "/" (List.map Uri.encodeURIComponent (Js.split "/" key)) in
  "https://" ++ bucket s ++ ".tos-" ++ region s ++ ".volces.com/" ++ safeKey.

Definition getUrl (u : TosUploader) (key : string) : result string :=
  if usePublicUrl (settings u) then Ok (publicUrl (settings u) key)
  else getPreSignedUrl (client u) (bucket (settings u)) key.

Definition parseKeyFromUrlOrKey (pf : Platform) (input : string) : string :=
  match Url.pathname pf input with
  | Some path =>
      match Uri.decodeURIComponent (Re.replace re_leading_slashes "" path) with
      | Some key => key
      | None => Re.replace re_leading_slashes "" input
      end
  | None => Re.replace re_leading_slashes "" input
  end.

(** ** The editor buffer

    The document is one string with line feeds between its lines; the cursor
    is a line and a column.  Positions outside the document are clamped, as
    the editor does. *)

Record Editor : Type := { value : string; cursor : EditorPosition }.

Definition is_LF (c : ascii) : bool := Ascii.eqb c Re.LF.

(** [editor.offsetToPos(off)], counting from line [ln], column [col]. *)
Fixpoint offsetToPos_from (ln col : nat) (doc : string) (off : nat) : EditorPosition :=
  match off, doc with
  | S off', String c doc' =>
      if is_LF c then offsetToPos_from (S ln) 0 doc' off'
      else offsetToPos_from ln (S col) doc' off'
  | _, _ => {| line := ln; ch := col |}
  end.

Definition offsetToPos (doc : string) (off : nat) : EditorPosition :=
  offsetToPos_from 0 0 doc off.

(** [editor.posToOffset(pos)]: a column beyond the end of its line is the end
    of the line, a line beyond the last one is the end of the document. *)
Fixpoint posToOffset_at (doc : string) (ln col : nat) : nat :=
  match doc with
  | "" => 0
  | String c doc' =>
      match ln with
      | S ln' => S (posToOffset_at doc' (if is_LF c then ln' else ln) col)
      | 0 =>
          match col with
          | S col' => if is_LF c then 0 else S (posToOffset_at doc' 0 col')
          | 0 => 0
          end
      end
  end.

Definition posToOffset (doc : string) (p : EditorPosition) : nat :=
  posToOffset_at doc (line p) (ch p).

(** The text of line [ln], without its line feed. *)
Fixpoint line_text (doc : string) (ln : nat) : string :=
  match doc with
  | "" => ""
  | String c doc' =>
      match ln with
      | S ln' => line_text doc' (if is_LF c then ln' else ln)
      | 0 => if is_LF c then "" else String c (line_text doc' 0)
      end
  end.

Section EditorApi.

Variable pf : Platform.

Definition getValue (e : Editor) : string := value e.
Definition getCursor (e : Editor) : EditorPosition := cursor e.
Definition getLine (ln : nat) (e : Editor) : string := line_text (value e) ln.

(** A change of the document: the text from offset [a] to offset [b] gives
    way to [text], and the platform places the cursor. *)
Definition change (a b : nat) (text : string) (e : Editor) : Editor :=
  {| value := Js.take a (value e) ++ text ++ Js.drop b (value e);
     cursor := cursor_after_change pf (value e) a b text (cursor e) |}.

(** [editor.replaceRange(text, from, to)]; with [to] equal to [from] it is
    the insertion [editor.replaceRange(text, from)].  A range whose end lies
    before its start is read as empty; the plugin passes none. *)
Definition replaceRange (text : string) (from to : EditorPosition) (e : Editor) : Editor :=
  let a := posToOffset (value e) from in
  let b := posToOffset (value e) to in
  change a (Nat.max a b) text e.

(** [editor.setValue(text)]: the whole document gives way to [text]. *)
Definition setValue (text : string) (e : Editor) : Editor :=
  change 0 (String.length (value e)) text e.

(** [editor.setLine(ln, text)]. *)
Definition setLine (ln : nat) (text : string) (e : Editor) : Editor :=
  replaceRange text {| line := ln; ch := 0 |}
    {| line := ln; ch := String.length (getLine ln e) |} e.

(** [editor.setCursor(pos)]: the cursor goes to the position of the document
    nearest to [pos]. *)
Definition setCursor (p : EditorPosition) (e : Editor) : Editor :=
  {| value := value e; cursor := offsetToPos (value e) (posToOffset (value e) p) |}.

End EditorApi.

(** ** The world the handlers act on *)

(** The notices of the plugin, by the text the source shows. *)
Inductive Notice : Type :=
| UploadSucceeded                    (* 图片上传成功 *)
| UploadFailed (e : Error)           (* 图片上传失败: reason *)
| DeleteSucceeded                    (* 图片删除成功 *)
| DeleteFailed (e : Error)           (* 图片删除失败: reason *)
| KeyDeleteFailed (e : Error)        (* 删除失败: reason, one key of Delete-all *)
| NoImageFound                       (* 未发现图片 *)
| DeletedCount (n : nat).            (* 已删除 n 张图片 *)

Record World : Type := {
  editor : Editor;
  notices : list Notice;      (* oldest first *)
  calls : list Call           (* oldest first *)
}.

Definition with_editor (e : Editor) (w : World) : World :=
  {| editor := e; notices := notices w; calls := calls w |}.

Definition notify (n : Notice) (w : World) : World :=
  {| editor := editor w; notices := (notices w ++ [n])%list; calls := calls w |}.

(** One call to the storage client and its answer. *)
Definition request (c : TosClient) (call : Call) (w : World) : option Error * World :=
  (respond c (List.length (calls w)) call,
   {| editor := editor w; notices := notices w; calls := (calls w ++ [call])%list |}).

(** ** The uploader's operations *)

Definition uploadFile (u : TosUploader) (file : File) (now : Z) (w : World)
  : result (string * string) * World :=
  let key := storageKey (settings u) file now in
  let contentType := if Js.truthy (type file) then Some (type file) else None in
  let (r, w1) := request (client u) (PutObject (bucket (settings u)) key contentType) w in
  match r with
  | Some e => (Throw e, w1)
  | None =>
      match getUrl u key with
      | Ok url => (Ok (url, key), w1)
      | Throw e => (Throw e, w1)
      end
  end.

Definition deleteByKey (u : TosUploader) (key : string) (w : World) : option Error * World :=
  request (client u) (DeleteObject (bucket (settings u)) key) w.

(** ** Upload orchestrator: the editor-paste handler

    The uploader is the one the plugin holds when the event arrives; it is
    taken not to be replaced while the event is handled. *)

Section Orchestrator.

Variable pf : Platform.

(** On success: the token is looked up in the document as it is now and
    gives way to the image reference. *)
Definition reconcile_success (token url : string) (e : Editor) : Editor :=
  let doc := getValue e in
  match Js.indexOf token doc with
  | Some idx =>
      let from := offsetToPos doc idx in
      let to := offsetToPos doc (idx + String.length token) in
      let finalMd := "![](" ++ url ++ ")" in
      let cur := getCursor e in
      let wasAfterToken := ((line cur =? line to) && (ch cur =? ch to))%nat in
      let e1 := replaceRange pf finalMd from to e in
      if wasAfterToken
      then setCursor (offsetToPos (value e1) (idx + String.length finalMd)) e1
      else e1
  | None => e
  end.

(** The loop that removes what the editor's own paste left behind: find a
    match from the start of the document, delete its span, read the document
    again.  [fuel] bounds the number of turns; [None] means the bound was
    reached with a match still there. *)
Fixpoint cleanup_loop (fuel : nat) (e : Editor) : option Editor :=
  match Re.exec imgRe (getValue e) with
  | None => Some e
  | Some mt =>
      match fuel with
      | 0 => None
      | S fuel' =>
          cleanup_loop fuel'
            (replaceRange pf ""
               (offsetToPos (value e) (Re.index mt))
               (offsetToPos (value e) (Re.index mt + String.length (Re.text mt))) e)
      end
  end.

(** The loop as the handler runs it.  Every turn deletes at least one
    character, so one turn per character of the document is enough and the
    bound is never reached (see [cleanup_loop_terminates]). *)
Definition residual_cleanup (e : Editor) : Editor :=
  match cleanup_loop (String.length (value e)) e with
  | Some e' => e'
  | None => e
  end.

(** On failure: the first occurrence of the token is taken out of the
    document and the cursor goes to the end. *)
Definition reconcile_failure (token : string) (e : Editor) : Editor :=
  let doc := getValue e in
  if Js.includes token doc
  then let after := Js.replace token "" doc in
       let e1 := setValue pf after e in
       setCursor (offsetToPos (value e1) (String.length after)) e1
  else e.

(** What the outside contributes to the handling of one image: the clock and
    the random draw of the token, the clock of the object name, and what the
    user does to the editor while the upload is pending. *)
Record Moment : Type := {
  token_clock : Z;
  token_random : string;
  upload_clock : Z;
  meanwhile : Editor -> Editor
}.

Definition paste_image (u : TosUploader) (mo : Moment) (f : File) (w : World) : World :=
  let token := placeholderToken (token_clock mo) (token_random mo) in
  let pos := getCursor (editor w) in
  let w0 := with_editor (replaceRange pf token pos pos (editor w)) w in
  let (r, w1) := uploadFile u f (upload_clock mo) w0 in
  let w2 := with_editor (meanwhile mo (editor w1)) w1 in
  match r with
  | Ok (url, _) =>
      notify UploadSucceeded
        (with_editor (residual_cleanup (reconcile_success token url (editor w2))) w2)
  | Throw e =>
      notify (UploadFailed e) (with_editor (reconcile_failure token (editor w2)) w2)
  end.

(** A clipboard item: [kind], [type] and [getAsFile()]. *)
Record ClipboardItem : Type := { kind : string; mime : string; getAsFile : option File }.

(** The [for] loop over the image items; [env i] is the moment of the item
    at index [i]. *)
Fixpoint paste_images (u : TosUploader) (env : nat -> Moment) (i : nat)
  (imgs : list ClipboardItem) (w : World) : World :=
  match imgs with
  | [] => w
  | it :: rest =>
      let w' := match getAsFile it with
                | Some f => paste_image u (env i) f w
                | None => w
                end in
      paste_images u env (S i) rest w'
  end.

Definition is_image_item (i : ClipboardItem) : bool :=
  String.eqb (kind i) "file" && Js.startsWith "image/" (mime i).

(** The handler; the second component tells whether [preventDefault] was
    called. *)
Definition on_editor_paste (uploader : option TosUploader) (env : nat -> Moment)
  (items : list ClipboardItem) (activeFile : bool) (w : World) : World * bool :=
  match uploader with
  | None => (w, false)
  | Some u =>
      match List.filter is_image_item items with
      | [] => (w, false)
      | imgs => if activeFile then (paste_images u env 0 imgs w, true) else (w, true)
      end
  end.

End Orchestrator.

(** ** Reference deletion engine: the two editor-menu items *)

Section DeletionEngine.

Variable pf : Platform.

(** What the Delete-one item keeps from the moment the menu opens. *)
Record DeleteOne : Type := { cur : EditorPosition; line_then : string; m : Re.Match }.

(** The menu offers Delete-one when the cursor line holds an image reference
    and an uploader is configured. *)
Definition menu_delete_one (uploader : option TosUploader) (e : Editor) : option DeleteOne :=
  let cur := getCursor e in
  let line := getLine (line cur) e in
  match Re.exec re_image line, uploader with
  | Some m, Some _ => Some {| cur := cur; line_then := line; m := m |}
  | _, _ => None
  end.

Definition TypeError : Error := {| message := "TypeError" |}.

(** The click on Delete-one.  [uploader] is the plugin's uploader at the time
    of the click, [meanwhile] what happens to the editor during the remote
    delete. *)
Definition click_delete_one (uploader : option TosUploader) (d : DeleteOne)
  (meanwhile : Editor -> Editor) (w : World) : World :=
  match Re.group1 (m d), uploader with
  | Some url, Some u =>
      let key := parseKeyFromUrlOrKey pf url in
      let (r, w1) := deleteByKey u key w in
      let w2 := with_editor (meanwhile (editor w1)) w1 in
      match r with
      | None =>
          notify DeleteSucceeded
            (with_editor
               (setLine pf (line (cur d)) (Js.replace (Re.text (m d)) "" (line_then d))
                  (editor w2)) w2)
      | Some e => notify (DeleteFailed e) w2
      end
  | _, _ => notify (DeleteFailed TypeError) w
  end.

(** [matches.map(m => parseKeyFromUrlOrKey(m[1]))]; [None] when a match has
    no group, on which the source throws. *)
Fixpoint keys_of (matches : list Re.Match) : option (list string) :=
  match matches with
  | [] => Some []
  | mt :: rest =>
      match Re.group1 mt, keys_of rest with
      | Some url, Some ks => Some (parseKeyFromUrlOrKey pf url :: ks)
      | _, _ => None
      end
  end.

(** [Promise.all(keys.map(k => deleteByKey(k).catch(e => new Notice(...))))].
    The requests leave in the order of the keys; the notices of the failed
    ones are listed in that order too, whatever the order of arrival. *)
Fixpoint delete_each (u : TosUploader) (keys : list string) (w : World) : World :=
  match keys with
  | [] => w
  | k :: ks =>
      let (r, w1) := deleteByKey u k w in
      delete_each u ks (match r with Some e => notify (KeyDeleteFailed e) w1 | None => w1 end)
  end.

(** The click on Delete-all. *)
Definition click_delete_all (uploader : option TosUploader)
  (meanwhile : Editor -> Editor) (w : World) : World :=
  let all := getValue (editor w) in
  let matches := Re.matchAll re_image_g all in
  match matches with
  | [] => notify NoImageFound w
  | _ =>
      match keys_of matches with
      | None => w
      | Some keys =>
          let w1 := match uploader with
                    | Some u =>
                        let w' := delete_each u keys w in
                        with_editor (meanwhile (editor w')) w'
                    | None => w
                    end in
          notify (DeletedCount (List.length keys))
            (with_editor (setValue pf (Re.replace re_image_g "" all) (editor w1)) w1)
      end
  end.

End DeletionEngine.

(** ** The plugin object: settings, uploader and settings tab

    The settings are one JavaScript object: the plugin holds it, the uploader
    is built around the same object and the settings tab writes into it in
    place.  Objects therefore live in a store and are held by address.  A
    handler of the tab is taken to run to its end before the next event
    arrives, and the stored data to hold values of the declared types. *)

(** [s.trim()]: white space and line terminators off both ends.  In UTF-8
    these are the characters U+0009 to U+000D and U+0020, then U+00A0,
    U+1680, U+2000 to U+200A, U+2028, U+2029, U+202F, U+205F, U+3000 and
    U+FEFF. *)
Definition space1 (a : ascii) : bool :=
  let n := nat_of_ascii a in ((9 <=? n) && (n <=? 13) || (n =? 32))%nat.

Definition space2 (a b : ascii) : bool :=
  ((nat_of_ascii a =? 194) && (nat_of_ascii b =? 160))%nat.

Definition space3 (a b c : ascii) : bool :=
  let x := nat_of_ascii a in
  let y := nat_of_ascii b in
  let z := nat_of_ascii c in
  ((x =? 225) && (y =? 154) && (z =? 128)
   || (x =? 226) && (y =? 128)
      && ((128 <=? z) && (z <=? 138) || (z =? 168) || (z =? 169) || (z =? 175))
   || (x =? 226) && (y =? 129) && (z =? 159)
   || (x =? 227) && (y =? 128) && (z =? 128)
   || (x =? 239) && (y =? 187) && (z =? 191))%nat.

Fixpoint trimStart (s : string) : string :=
  match s with
  | "" => ""
  | String a s1 =>
      if space1 a then trimStart s1
      else match s1 with
           | String b s2 =>
               if space2 a b then trimStart s2
               else match s2 with
                    | String c s3 => if space3 a b c then trimStart s3 else s
                    | "" => s
                    end
           | "" => s
           end
  end.

(** A text of white space only has nothing left after [trimStart]; the end
    of a text is trimmed by keeping its characters up to the point from
    which only white space follows. *)
Fixpoint trimEnd (s : string) : string :=
  match s with
  | "" => ""
  | String a s' => match trimStart s with "" => "" | _ => String a (trimEnd s') end
  end.

Definition trim (s : string) : string := trimEnd (trimStart s).

(** The plugin's data file as [loadData()] returns it: the keys present, with
    their values; [None] for a key that is not there. *)
Record StoredData : Type := {
  stored_secretId : option string;
  stored_secretKey : option string;
  stored_bucket : option string;
  stored_region : option string;
  stored_prefix : option string;
  stored_usePublicUrl : option bool
}.

Definition or_default {A : Type} (stored : option A) (default : A) : A :=
  match stored with Some v => v | None => default end.

(** [Object.assign({}, defaults, data)]: a key of the data wins over the
    default; a vault without data file gives [null], which adds nothing. *)
Definition assign (defaults : TosPicbedPluginSettings) (data : option StoredData)
  : TosPicbedPluginSettings :=
  match data with
  | None => defaults
  | Some d =>
      {| secretId := or_default (stored_secretId d) (secretId defaults);
         secretKey := or_default (stored_secretKey d) (secretKey defaults);
         bucket := or_default (stored_bucket d) (bucket defaults);
         region := or_default (stored_region d) (region defaults);
         prefix := or_default (stored_prefix d) (prefix defaults);
         usePublicUrl := or_default (stored_usePublicUrl d) (usePublicUrl defaults) |}
  end.

(** What [saveData(settings)] writes: every key of the object. *)
Definition serialize (s : TosPicbedPluginSettings) : StoredData :=
  {| stored_secretId := Some (secretId s);
     stored_secretKey := Some (secretKey s);
     stored_bucket := Some (bucket s);
     stored_region := Some (region s);
     stored_prefix := Some (prefix s);
     stored_usePublicUrl := Some (usePublicUrl s) |}.

(** The uploader object: the address of the settings object it was built
    around, and its client. *)
Record UploaderObject : Type := { held : nat; sdk : TosClient }.

Record Plugin : Type := {
  store : list TosPicbedPluginSettings;      (* the settings objects, by address *)
  this_settings : nat;                       (* this.settings *)
  this_uploader : option UploaderObject;     (* this.uploader *)
  data : option StoredData                   (* the data file of the vault *)
}.

Definition deref (p : Plugin) (address : nat) : TosPicbedPluginSettings :=
  List.nth address (store p) DEFAULT_SETTINGS.

(** The settings as the plugin reads them, and the uploader as the handlers
    find it when an event arrives: its client, and the settings object it
    holds as that object is now. *)
Definition current_settings (p : Plugin) : TosPicbedPluginSettings :=
  deref p (this_settings p).

Definition uploader_of (p : Plugin) : option TosUploader :=
  match this_uploader p with
  | Some o => Some {| settings := deref p (held o); client := sdk o |}
  | None => None
  end.

Fixpoint update (address : nat) (f : TosPicbedPluginSettings -> TosPicbedPluginSettings)
  (objects : list TosPicbedPluginSettings) : list TosPicbedPluginSettings :=
  match objects, address with
  | [], _ => []
  | s :: rest, 0 => f s :: rest
  | s :: rest, S address' => s :: update address' f rest
  end.

Section PluginObject.

(** [new TosClient({ accessKeyId, accessKeySecret, region })], the
    constructor of the SDK: external, and free to throw. *)
Variable connect : string -> string -> string -> result TosClient.

(** [new TosUploader(s)] with the making of the client: the checks come
    first. *)
Definition construct (s : TosPicbedPluginSettings) : result TosUploader :=
  if negb (Js.truthy (secretId s)) || negb (Js.truthy (secretKey s))
  then Throw {| message := "SecretId/SecretKey" |}
  else if negb (Js.truthy (bucket s)) || negb (Js.truthy (region s))
       then Throw {| message := "Bucket/Region" |}
       else match connect (secretId s) (secretKey s) (region s) with
            | Ok c => Ok {| settings := s; client := c |}
            | Throw e => Throw e
            end.

(** The plugin before [onload], in a vault whose data file reads [saved]. *)
Definition unloaded (saved : option StoredData) : Plugin :=
  {| store := []; this_settings := 0; this_uploader := None; data := saved |}.

(** [loadSettings()]: a new object, made of the defaults and the data file,
    becomes [this.settings]. *)
Definition loadSettings (p : Plugin) : Plugin :=
  {| store := (store p ++ [assign DEFAULT_SETTINGS (data p)])%list;
     this_settings := List.length (store p);
     this_uploader := this_uploader p;
     data := data p |}.

(** [saveSettings()]. *)
Definition saveSettings (p : Plugin) : Plugin :=
  {| store := store p;
     this_settings := this_settings p;
     this_uploader := this_uploader p;
     data := Some (serialize (current_settings p)) |}.

Definition ready (s : TosPicbedPluginSettings) : bool :=
  Js.truthy (secretId s) && Js.truthy (secretKey s)
  && Js.truthy (bucket s) && Js.truthy (region s).

Definition set_uploader (o : option UploaderObject) (p : Plugin) : Plugin :=
  {| store := store p; this_settings := this_settings p; this_uploader := o;
     data := data p |}.

(** [reinitUploaderIfReady()]: the new uploader is built around
    [this.settings] itself. *)
Definition reinitUploaderIfReady (p : Plugin) : Plugin :=
  let s := current_settings p in
  if ready s
  then match construct s with
       | Ok u => set_uploader (Some {| held := this_settings p; sdk := client u |}) p
       | Throw _ => set_uploader None p
       end
  else p.

(** [onload()], as far as the plugin's state goes, and [onunload()]. *)
Definition onload (saved : option StoredData) : Plugin :=
  reinitUploaderIfReady (loadSettings (unloaded saved)).

Definition onunload (p : Plugin) : Plugin := set_uploader None p.

(** [this.plugin.settings.x = v]: a write into the object [this.settings]
    points to. *)
Definition write (f : TosPicbedPluginSettings -> TosPicbedPluginSettings) (p : Plugin)
  : Plugin :=
  {| store := update (this_settings p) f (store p);
     this_settings := this_settings p;
     this_uploader := this_uploader p;
     data := data p |}.

Definition set_secretId (v : string) (s : TosPicbedPluginSettings) :=
  {| secretId := v; secretKey := secretKey s; bucket := bucket s; region := region s;
     prefix := prefix s; usePublicUrl := usePublicUrl s |}.

Definition set_secretKey (v : string) (s : TosPicbedPluginSettings) :=
  {| secretId := secretId s; secretKey := v; bucket := bucket s; region := region s;
     prefix := prefix s; usePublicUrl := usePublicUrl s |}.

Definition set_bucket (v : string) (s : TosPicbedPluginSettings) :=
  {| secretId := secretId s; secretKey := secretKey s; bucket := v; region := region s;
     prefix := prefix s; usePublicUrl := usePublicUrl s |}.

Definition set_region (v : string) (s : TosPicbedPluginSettings) :=
  {| secretId := secretId s; secretKey := secretKey s; bucket := bucket s; region := v;
     prefix := prefix s; usePublicUrl := usePublicUrl s |}.

Definition set_prefix (v : string) (s : TosPicbedPluginSettings) :=
  {| secretId := secretId s; secretKey := secretKey s; bucket := bucket s;
     region := region s; prefix := v; usePublicUrl := usePublicUrl s |}.

Definition set_usePublicUrl (v : bool) (s : TosPicbedPluginSettings) :=
  {| secretId := secretId s; secretKey := secretKey s; bucket := bucket s;
     region := region s; prefix := prefix s; usePublicUrl := v |}.

(** The six controls of the settings tab, each with the value handed to its
    [onChange]. *)
Inductive TabChange : Type :=
| SecretIdField (v : string)
| SecretKeyField (v : string)
| BucketField (v : string)
| RegionField (v : string)
| PrefixField (v : string)
| PublicUrlToggle (v : bool).

Definition onChange (c : TabChange) (p : Plugin) : Plugin :=
  match c with
  | SecretIdField v =>
      reinitUploaderIfReady (saveSettings (write (set_secretId (trim v)) p))
  | SecretKeyField v =>
      reinitUploaderIfReady (saveSettings (write (set_secretKey (trim v)) p))
  | BucketField v =>
      reinitUploaderIfReady (saveSettings (write (set_bucket (trim v)) p))
  | RegionField v =>
      reinitUploaderIfReady (saveSettings (write (set_region (trim v)) p))
  | PrefixField v =>
      saveSettings (write (set_prefix (Re.replace re_trim_slashes "" (trim v))) p)
  | PublicUrlToggle v =>
      saveSettings (write (set_usePublicUrl v) p)
  end.

(** The plugin after [onload] in a vault with the data [saved] and a series
    of changes made in the settings tab. *)
Definition after_changes (saved : option StoredData) (changes : list TabChange) : Plugin :=
  List.fold_left (fun p c => onChange c p) changes (onload saved).

End PluginObject.

(** ** Looking up an image file in the vault

    The vault is external: the model takes its two lookups as they answer.
    So is the case mapping of the engine, which follows the Unicode tables. *)

Module Vault.

(** A file of the vault: [path], [name], [extension], and the path of the
    folder [parent], [None] for a file without parent. *)
Record TFile : Type := {
  path : string;
  name : string;
  extension : string;
  parent : option string
}.

(** What a path leads to: a file or a folder. *)
Inductive TAbstractFile : Type :=
| IsFile (f : TFile)
| IsFolder (folder : string).

Record Vault : Type := {
  getAbstractFileByPath : string -> option TAbstractFile;
  getFiles : list TFile
}.

End Vault.

(** [/png|jpg|jpeg|gif|svg|webp/i], in [isImageFile]. *)
Definition re_image_extension : Re.RegExp :=
  {| Re.source :=
       Re.Alt (Re.Lit "png")
         (Re.Alt (Re.Lit "jpg")
            (Re.Alt (Re.Lit "jpeg")
               (Re.Alt (Re.Lit "gif") (Re.Alt (Re.Lit "svg") (Re.Lit "webp")))));
     Re.ignoreCase := true; Re.global := false |}.

Section ImageFiles.

(** [s.toLowerCase()]. *)
Variable toLowerCase : string -> string.

Definition isImageFile (file : Vault.TFile) : bool :=
  Re.test re_image_extension (toLowerCase (Vault.extension file)).



End ImageFiles.

(** * Vocabulary of the properties *)

(** ** Predicates used to state and prove the properties *)

(** Decimal digits, the alphabet of a rendered clock reading. *)
Definition is_digit (c : ascii) : bool :=
  (48 <=? nat_of_ascii c)%nat && (nat_of_ascii c <=? 57)%nat.

Fixpoint all_digits (s : string) : bool :=
  match s with
  | "" => true
  | String c s' => is_digit c && all_digits s'
  end.

(** Stripping slashes, in the words of the specification: all the leading
    ones, all the trailing ones. *)
Fixpoint strip_leading_slashes (s : string) : string :=
  match s with
  | String c s' => if Ascii.eqb c "/" then strip_leading_slashes s' else s
  | "" => ""
  end.

Fixpoint strip_trailing_slashes (s : string) : string :=
  match s with
  | "" => ""
  | String c s' =>
      match strip_trailing_slashes s' with
      | "" => if Ascii.eqb c "/" then "" else String c ""
      | t => String c t
      end
  end.

Fixpoint all_slashes (s : string) : bool :=
  match s with
  | "" => true
  | String c s' => Ascii.eqb c "/" && all_slashes s'
  end.

(** The text of [s] that no match of a global pattern covers, read off the
    scan of [Re.scan] character by character. *)
Fixpoint uncovered (re : Re.RegExp) (i skip : nat) (s : string) : string :=
  let here := match skip with 0 => Re.match_at re i s | S _ => None end in
  match s with
  | "" => ""
  | String c s' =>
      match here with
      | Some mt =>
          let rest := uncovered re (S i) (String.length (Re.text mt) - 1) s' in
          match String.length (Re.text mt) with 0 => String c rest | S _ => rest end
      | None =>
          let rest := uncovered re (S i) (skip - 1) s' in
          match skip with 0 => String c rest | S _ => rest end
      end
  end.

(** The text [needle] stands in [hay] at offset [i]. *)
Definition occurs_at (needle hay : string) (i : nat) : Prop :=
  Js.startsWith needle (Js.drop i hay) = true /\ i + String.length needle <= String.length hay.

(** The calls that delete, the notices that report a rejected key. *)
Definition is_delete (c : Call) : bool :=
  match c with DeleteObject _ _ => true | PutObject _ _ _ => false end.

Definition is_key_failure (n : Notice) : bool :=
  match n with KeyDeleteFailed _ => true | _ => false end.

(** A clipboard item that yields a file. *)
Definition has_file (it : ClipboardItem) : bool :=
  match getAsFile it with Some _ => true | None => false end.

(** The end of the document, as a position. *)
Definition end_of (doc : string) : EditorPosition := offsetToPos doc (String.length doc).

(** The span of a match, as a pair of offsets, and the text of [s] outside
    every span of a list of matches: the characters whose offset lies in none
    of them. *)
Definition span (mt : Re.Match) : nat * nat :=
  (Re.index mt, Re.index mt + String.length (Re.text mt)).

Definition covered (spans : list (nat * nat)) (j : nat) : bool :=
  List.existsb (fun sp => (fst sp <=? j)%nat && (j <? snd sp)%nat) spans.

Fixpoint keep_from (i : nat) (p : nat -> bool) (s : string) : string :=
  match s with
  | "" => ""
  | String c s' => if p i then String c (keep_from (S i) p s') else keep_from (S i) p s'
  end.

Definition outside (ms : list Re.Match) (s : string) : string :=
  keep_from 0 (fun j => negb (covered (List.map span ms) j)) s.

(** The errors of the deletes of [keys] that the client rejects, when [n]
    calls went before the first of them. *)
Fixpoint rejections (c : TosClient) (n : nat) (bucket : string) (keys : list string)
  : list Error :=
  match keys with
  | [] => []
  | k :: ks =>
      (match respond c n (DeleteObject bucket k) with Some e => [e] | None => [] end
       ++ rejections c (S n) bucket ks)%list
  end.

(** The normalized prefix and the extension of a file name, in the words of
    the specification. *)
Definition normalized_prefix (p : string) : string :=
  match strip_trailing_slashes (strip_leading_slashes p) with
  | "" => ""
  | q => q ++ "/"
  end.

(** The text after the last dot of [s], when [s] has a dot. *)
Fixpoint after_last_dot (s : string) : option string :=
  match s with
  | "" => None
  | String c s' =>
      match after_last_dot s' with
      | Some e => Some e
      | None => if Ascii.eqb c "." then Some s' else None
      end
  end.

(** A file name has an extension when a non-empty text follows its last
    dot. *)
Definition extension (file_name : string) : option string :=
  match after_last_dot file_name with
  | Some (String c e) => Some (String c e)
  | _ => None
  end.

(** Every character of [s] satisfies [p]. *)
Fixpoint all (p : ascii -> bool) (s : string) : bool :=
  match s with
  | "" => true
  | String c s' => p c && all p s'
  end.

(** A segment is safe, in the words of the specification, when
    percent-encoding round-trips it and encoding brings in no slash. *)
Definition percent_safe (seg : string) : Prop :=
  Uri.decodeURIComponent (Uri.encodeURIComponent seg) = Some seg
  /\ Js.includes "/" (Uri.encodeURIComponent seg) = false.

(** The characters of a plain host name. *)
Definition host_char (c : ascii) : bool := Uri.is_alnum c || Uri.mem c "-._".

(** The characters of an encoded segment. *)
Definition enc_char (c : ascii) : bool := Uri.unreserved c || Ascii.eqb c "%".

(** The segments [.] and [..]. *)
Definition dot_segment (seg : string) : bool := String.eqb seg "." || String.eqb seg "..".

(** The host of the public URL. *)
Definition public_host (s : TosPicbedPluginSettings) : string :=
  bucket s ++ ".tos-" ++ region s ++ ".volces.com".

(** Well-formed UTF-8: the strings that are the image of a JavaScript string
    without lone surrogates. *)
Fixpoint well_formed_utf8 (s : string) : bool :=
  match s with
  | "" => true
  | String b s1 =>
      match Uri.width b with
      | 1 => well_formed_utf8 s1
      | 2 =>
          match s1 with
          | String b1 s2 => Uri.second_ok b b1 && well_formed_utf8 s2
          | _ => false
          end
      | 3 =>
          match s1 with
          | String b1 (String b2 s3) =>
              Uri.second_ok b b1 && Uri.continuation b2 && well_formed_utf8 s3
          | _ => false
          end
      | 4 =>
          match s1 with
          | String b1 (String b2 (String b3 s4)) =>
              Uri.second_ok b b1 && Uri.continuation b2 && Uri.continuation b3
              && well_formed_utf8 s4
          | _ => false
          end
      | _ => false
      end
  end.

(** The units [encodeURIComponent] writes for a string. *)
Fixpoint pieces (s : string) : list Uri.piece :=
  match s with
  | "" => []
  | String c s' => (if Uri.unreserved c then Uri.Raw c else Uri.Escaped c) :: pieces s'
  end.

(** Characters the URL parser neither trims nor reads as a separator. *)
Definition no_space (c : ascii) : bool := negb (Url.c0_or_space c).

Definition no_slash (c : ascii) : bool := negb (Url.is_slash c).

(** What [encodeURIComponent] writes for one character. *)
Definition encoded (c : ascii) : string :=
  if Uri.unreserved c then String c "" else Uri.escape c.

(** A pattern every match of which takes at least one character. *)
Fixpoint consumes (r : Re.regex) : bool :=
  match r with
  | Re.Chr _ | Re.Any => true
  | Re.Bol | Re.Eol | Re.Eps | Re.Star _ _ => false
  | Re.Seq r1 r2 => consumes r1 || consumes r2
  | Re.Alt r1 r2 => consumes r1 && consumes r2
  | Re.Group r' => consumes r'
  end.

(** A pattern every match of which sets capture 1. *)
Fixpoint captures (r : Re.regex) : bool :=
  match r with
  | Re.Group _ => true
  | Re.Seq r1 r2 => captures r1 || captures r2
  | Re.Alt r1 r2 => captures r1 && captures r2
  | _ => false
  end.

(** The state [y] continues the state [x]: further in the same input, with
    the capture kept once it is set. *)
Definition extends (x y : Re.state) : Prop :=
  Re.pos x <= Re.pos y
  /\ Re.pos y + String.length (Re.rest y) = Re.pos x + String.length (Re.rest x)
  /\ (Re.cap x <> None -> Re.cap y <> None).

(** ** Vocabulary of the image pattern *)

(** The lazy run of [.] in front of a continuation [k]: the shortest run of
    characters that are no line terminators after which [k] succeeds. *)
Fixpoint lazy_any (k : Re.state -> option Re.state) (p : nat) (s : string)
  (c : option string) : option Re.state :=
  match k (Re.St p s c) with
  | Some z => Some z
  | None =>
      match s with
      | "" => None
      | String _ s' => if Re.line_terminator_at s then None else lazy_any k (S p) s' c
      end
  end.

(** No character of [a], read in front of [t], starts a line terminator. *)
Fixpoint clear_run (a t : string) : bool :=
  match a with
  | "" => true
  | String _ a' => negb (Re.line_terminator_at (a ++ t)) && clear_run a' t
  end.

(** A text without line terminator. *)
Definition one_line (s : string) : bool := clear_run s "".

(** The end of the image pattern: the closing parenthesis, which also closes
    the group opened at offset [q] of the text [u]. *)
Definition closes (q : nat) (u : string) (y : Re.state) : option Re.state :=
  match Re.rest y with
  | String d r =>
      if Ascii.eqb ")" d
      then Some (Re.St (S (Re.pos y)) r (Some (Js.take (Re.pos y - q) u)))
      else None
  | "" => None
  end.

(** The image pattern from its [\]\(] on. *)
Definition url_part (x : Re.state) : option Re.state :=
  if Js.startsWith "](" (Re.rest x)
  then lazy_any (closes (Re.pos x + 2) (Js.drop 2 (Re.rest x))) (Re.pos x + 2)
         (Js.drop 2 (Re.rest x)) (Re.cap x)
  else None.

Definition is_ascii (c : ascii) : bool := (nat_of_ascii c <? 128)%nat.

(** An ASCII character other than the line feed and the carriage return. *)
Definition plain_ascii (c : ascii) : bool :=
  is_ascii c && negb (Ascii.eqb c Re.LF) && negb (Ascii.eqb c Re.CR).

(** A digit of base 36, as [toString(36)] writes it. *)
Definition base36 (c : ascii) : bool := is_digit c || Uri.between 97 122 c.

Definition no_bang (c : ascii) : bool := negb (Ascii.eqb "!" c).

(** ** Vocabulary of key resolution, paste events and plugin state *)

Definition no_colon (c : ascii) : bool := negb (Ascii.eqb c ":").

(** The key part of the public URL. *)
Definition safe_key (key : string) : string :=
  Js.join "/" (List.map Uri.encodeURIComponent (Js.split "/" key)).

(** The character a unit of an encoded text stands for. *)
Definition piece_char (u : Uri.piece) : ascii :=
  match u with Uri.Raw c => c | Uri.Escaped c => c end.

Fixpoint pieces_text (us : list Uri.piece) : string :=
  match us with
  | [] => ""
  | u :: us' => String (piece_char u) (pieces_text us')
  end.

(** What follows the path of a URL: nothing, a query or a fragment. *)
Definition query_or_fragment (tail : string) : bool :=
  match tail with
  | "" => true
  | String c _ => Uri.mem c "?#"
  end.

Definition no_paren (c : ascii) : bool := negb (Ascii.eqb ")" c).

Definition no_dot (c : ascii) : bool := negb (Ascii.eqb c ".").

(** The notices of the paste handler. *)
Definition is_upload_notice (n : Notice) : bool :=
  match n with UploadSucceeded | UploadFailed _ => true | _ => false end.

(** The reference the paste handler writes for a URL. *)
Definition reference (url : string) : string := "![](" ++ url ++ ")".

(** A document made of references, each after a text of its own, and a last
    text; and the same document without the references. *)
Fixpoint document (refs : list (string * string)) (tail : string) : string :=
  match refs with
  | [] => tail
  | (before, url) :: rest => before ++ reference url ++ document rest tail
  end.

Fixpoint text_around (refs : list (string * string)) (tail : string) : string :=
  match refs with
  | [] => tail
  | (before, _) :: rest => before ++ text_around rest tail
  end.

(** A key that the public URL carries through a reference and back: safe
    segments, no leading slash, no dot segment, no closing parenthesis. *)
Definition resolvable (key : string) : Prop :=
  List.Forall percent_safe (Js.split "/" key)
  /\ Js.startsWith "/" key = false
  /\ List.Forall (fun seg => dot_segment seg = false) (Js.split "/" key)
  /\ all no_paren key = true.

(** The state of a started plugin: one settings object, which the plugin and
    its uploader both hold and which the data file mirrors; and an uploader
    that stands with a complete configuration has the client made for that
    configuration. *)
Definition settled (connect : string -> string -> string -> result TosClient) (p : Plugin)
  : Prop :=
  exists s,
    store p = [s] /\ this_settings p = 0
    /\ assign DEFAULT_SETTINGS (data p) = s
    /\ forall o, this_uploader p = Some o ->
         held o = 0
         /\ (ready s = true -> connect (secretId s) (secretKey s) (region s) = Ok (sdk o)).


(** [w] stands at the start of [s], and somewhere in [s], the case of ASCII
    letters apart. *)
Fixpoint starts_ci (w s : string) : bool :=
  match w, s with
  | "", _ => true
  | String a w', String b s' => Re.char_eq true a b && starts_ci w' s'
  | String _ _, "" => false
  end.

Fixpoint contains_ci (w s : string) : bool :=
  starts_ci w s || match s with "" => false | String _ s' => contains_ci w s' end.

(** The names [isImageFile] looks for. *)
Definition image_names : list string := ["png"; "jpg"; "jpeg"; "gif"; "svg"; "webp"].

(** ** Concrete instances used in the examples *)

(** A platform that accepts every host, knows no scheme outside the http
    family and keeps the cursor's line and column across a change. *)
Definition example_platform : Platform :=
  {| host_ok := fun _ => true;
     other_scheme_pathname := fun _ _ => None;
     cursor_after_change := fun _ _ _ _ c => c |}.

Definition example_settings : TosPicbedPluginSettings :=
  {| secretId := "AK"; secretKey := "SK"; bucket := "notes"; region := "cn-beijing";
     prefix := "/img/"; usePublicUrl := true |}.

Definition quota_exceeded : Error := {| message := "quota exceeded" |}.

(** A client every call of which is rejected. *)
Definition rejecting_client : TosClient :=
  {| respond := fun _ _ => Some quota_exceeded;
     getPreSignedUrl := fun _ _ => Throw quota_exceeded |}.

(** A client that rejects the delete of one key and accepts everything
    else. *)
Definition client_rejecting_key (key : string) : TosClient :=
  {| respond := fun _ c =>
       match c with
       | DeleteObject _ k => if String.eqb k key then Some quota_exceeded else None
       | PutObject _ _ _ => None
       end;
     getPreSignedUrl := fun _ _ => Throw quota_exceeded |}.

Definition example_uploader (c : TosClient) : TosUploader :=
  {| settings := example_settings; client := c |}.

Definition origin : EditorPosition := {| line := 0; ch := 0 |}.

Definition quiet (doc : string) (at_ : EditorPosition) : World :=
  {| editor := {| value := doc; cursor := at_ |}; notices := []; calls := [] |}.


(** A client that accepts every request and signs no URL. *)
Definition accepting_client : TosClient :=
  {| respond := fun _ _ => None; getPreSignedUrl := fun _ _ => Throw quota_exceeded |}.

(** An SDK whose constructor always succeeds. *)
Definition example_connect (accessKeyId accessKeySecret region : string) : result TosClient :=
  Ok accepting_client.

Definition example_stored : StoredData :=
  {| stored_secretId := Some "AK"; stored_secretKey := Some "SK";
     stored_bucket := Some "notes"; stored_region := Some "cn-beijing";
     stored_prefix := None; stored_usePublicUrl := None |}.


(** A vault with a note and a picture beside it, and a file whose extension
    merely contains the name of an image format.  The case mapping of the
    examples is that of ASCII letters. *)
Definition example_picture : Vault.TFile :=
  {| Vault.path := "notes/shot.PNG"; Vault.name := "shot.PNG"; Vault.extension := "PNG";
     Vault.parent := Some "notes" |}.

Definition example_note : Vault.TFile :=
  {| Vault.path := "notes/today.md"; Vault.name := "today.md"; Vault.extension := "md";
     Vault.parent := Some "notes" |}.

Definition example_odd : Vault.TFile :=
  {| Vault.path := "data.xpngx"; Vault.name := "data.xpngx"; Vault.extension := "xpngx";
     Vault.parent := None |}.


(** An uploader for a private bucket, whose links are presigned. *)
Definition private_uploader (c : TosClient) : TosUploader :=
  {| settings := set_usePublicUrl false example_settings; client := c |}.
(** * Properties *)

(** ** Basic facts on strings *)

Section StringFacts.

Lemma append_nil_r (s : string) : s ++ "" = s.
Proof. induction s as [|c s IH]; simpl; [reflexivity | now rewrite IH]. Qed.

Lemma append_assoc (a b c : string) : (a ++ b) ++ c = a ++ (b ++ c).
Proof. induction a as [|x a IH]; simpl; [reflexivity | now rewrite IH]. Qed.

Lemma length_append (a b : string) :
  String.length (a ++ b) = String.length a + String.length b.
Proof. induction a as [|x a IH]; simpl; [reflexivity | now rewrite IH]. Qed.

Lemma length_take (n : nat) (s : string) :
  String.length (Js.take n s) = Nat.min n (String.length s).
Proof.
  revert s. induction n as [|n IH]; intros [|c s]; simpl; try reflexivity.
  now rewrite IH.
Qed.

Lemma length_drop (n : nat) (s : string) :
  String.length (Js.drop n s) = String.length s - n.
Proof.
  revert s. induction n as [|n IH]; intros [|c s]; simpl; try reflexivity.
  now rewrite IH.
Qed.

Lemma append_inv_head (a b c : string) : a ++ b = a ++ c -> b = c.
Proof.
  induction a as [|x a IH]; simpl; intro H; [exact H|].
  injection H as H. auto.
Qed.

Lemma append_inv_tail (a b c : string) : a ++ c = b ++ c -> a = b.
Proof.
  revert b. induction a as [|x a IH]; intros [|y b] H; simpl in H.
  - reflexivity.
  - exfalso. apply (f_equal String.length) in H. simpl in H.
    rewrite length_append in H. lia.
  - exfalso. apply (f_equal String.length) in H. simpl in H.
    rewrite length_append in H. lia.
  - injection H as -> H. f_equal. auto.
Qed.

Lemma take_drop (n : nat) (s : string) : Js.take n s ++ Js.drop n s = s.
Proof.
  revert s. induction n as [|n IH]; intros [|c s]; simpl; try reflexivity.
  now rewrite IH.
Qed.

Lemma take_app_exact (a b : string) : Js.take (String.length a) (a ++ b) = a.
Proof. induction a as [|x a IH]; simpl; [now destruct b | now rewrite IH]. Qed.

Lemma drop_app_exact (a b : string) : Js.drop (String.length a) (a ++ b) = b.
Proof. induction a as [|x a IH]; simpl; [reflexivity | exact IH]. Qed.

Lemma startsWith_app (p s : string) : Js.startsWith p (p ++ s) = true.
Proof.
  induction p as [|c p IH]; simpl; [reflexivity|].
  now rewrite Ascii.eqb_refl, IH.
Qed.

Lemma startsWith_inv (p s : string) :
  Js.startsWith p s = true -> s = p ++ Js.drop (String.length p) s.
Proof.
  revert s. induction p as [|c p IH]; intros [|d s]; simpl; try easy.
  intro H. apply andb_prop in H as [Hc Hp].
  apply Ascii.eqb_eq in Hc. subst d. f_equal. auto.
Qed.

End StringFacts.

(** ** Matches lie inside the input, positions lead back to offsets *)

Section Measure.

Lemma m_Star (ic g : bool) (r : Re.regex) (k : Re.state -> option Re.state) (x : Re.state) :
  Re.m ic (Re.Star g r) k x = Re.iterate ic g r k (String.length (Re.rest x)) x.
Proof. reflexivity. Qed.

Lemma m_Seq (ic : bool) (r1 r2 : Re.regex) (k : Re.state -> option Re.state) (x : Re.state) :
  Re.m ic (Re.Seq r1 r2) k x = Re.m ic r1 (Re.m ic r2 k) x.
Proof. reflexivity. Qed.

Lemma m_Alt (ic : bool) (r1 r2 : Re.regex) (k : Re.state -> option Re.state) (x : Re.state) :
  Re.m ic (Re.Alt r1 r2) k x
  = match Re.m ic r1 k x with Some y => Some y | None => Re.m ic r2 k x end.
Proof. reflexivity. Qed.

Lemma m_Chr (ic : bool) (c : ascii) (k : Re.state -> option Re.state) (x : Re.state) :
  Re.m ic (Re.Chr c) k x
  = match Re.rest x with
    | String d _ => if Re.char_eq ic c d then k (Re.advance x) else None
    | "" => None
    end.
Proof. reflexivity. Qed.

Lemma m_Bol (ic : bool) (k : Re.state -> option Re.state) (x : Re.state) :
  Re.m ic Re.Bol k x = if (Re.pos x =? 0)%nat then k x else None.
Proof. reflexivity. Qed.

Lemma m_Eol (ic : bool) (k : Re.state -> option Re.state) (x : Re.state) :
  Re.m ic Re.Eol k x = match Re.rest x with "" => k x | _ => None end.
Proof. reflexivity. Qed.

Lemma iterate_S (ic g : bool) (r : Re.regex) (k : Re.state -> option Re.state)
  (fuel : nat) (x : Re.state) :
  Re.iterate ic g r k (S fuel) x
  = let again (_ : unit) :=
      Re.m ic r (fun y => if (Re.pos x <? Re.pos y)%nat
                          then Re.iterate ic g r k fuel y else None) x in
    if g then match again tt with Some z => Some z | None => k x end
    else match k x with Some z => Some z | None => again tt end.
Proof. reflexivity. Qed.

Lemma iterate_0 (ic g : bool) (r : Re.regex) (k : Re.state -> option Re.state) (x : Re.state) :
  Re.iterate ic g r k 0 x = k x.
Proof. reflexivity. Qed.

Lemma match_at_index (re : Re.RegExp) (i : nat) (s : string) (mt : Re.Match) :
  Re.match_at re i s = Some mt -> Re.index mt = i /\ String.length (Re.text mt) <= String.length s.
Proof.
  unfold Re.match_at. destruct (Re.m _ _ _ _); [|discriminate].
  intros [= <-]. simpl. split; [reflexivity|]. rewrite length_take. lia.
Qed.

Lemma extends_refl (x : Re.state) : extends x x.
Proof. unfold extends. repeat split; auto; lia. Qed.

Lemma extends_trans (x y z : Re.state) : extends x y -> extends y z -> extends x z.
Proof. unfold extends. intros (? & ? & ?) (? & ? & ?). repeat split; auto; lia. Qed.

Lemma extends_advance (x : Re.state) (c : ascii) (s : string) :
  Re.rest x = String c s ->
  extends x (Re.advance x) /\ Re.pos x < Re.pos (Re.advance x).
Proof.
  unfold extends, Re.advance. intros ->. simpl. repeat split; auto; lia.
Qed.

Lemma m_extends (ic : bool) (r : Re.regex) :
  forall k x z, Re.m ic r k x = Some z ->
  exists y, k y = Some z /\ extends x y
            /\ (consumes r = true -> Re.pos x < Re.pos y)
            /\ (captures r = true -> Re.cap y <> None).
Proof.
  induction r as [c| | | | |r1 IH1 r2 IH2|r1 IH1 r2 IH2|g r IH|r IH]; intros k x z H.
  - rewrite m_Chr in H. destruct (Re.rest x) as [|d s] eqn:Er; [discriminate|].
    destruct (Re.char_eq ic c d); [|discriminate].
    destruct (extends_advance x d s Er). exists (Re.advance x). simpl.
    repeat split; auto; try apply H0; discriminate.
  - simpl in H. destruct (Re.rest x) as [|d s] eqn:Er; [discriminate|].
    destruct (Re.line_terminator_at _); [discriminate|].
    destruct (extends_advance x d s Er). exists (Re.advance x). simpl.
    repeat split; auto; try apply H0; discriminate.
  - rewrite m_Bol in H. destruct (Re.pos x =? 0)%nat; [|discriminate].
    exists x. simpl. repeat split; auto; try apply extends_refl; discriminate.
  - rewrite m_Eol in H. destruct (Re.rest x); [|discriminate].
    exists x. simpl. repeat split; auto; try apply extends_refl; discriminate.
  - exists x. simpl. repeat split; auto; try apply extends_refl; discriminate.
  - rewrite m_Seq in H.
    apply IH1 in H as (y1 & H & E1 & P1 & C1).
    apply IH2 in H as (y2 & H & E2 & P2 & C2).
    exists y2. split; [assumption|]. split; [eapply extends_trans; eassumption|].
    simpl. split; intro Hc; apply orb_prop in Hc as [Hc|Hc].
    + specialize (P1 Hc). destruct E2. lia.
    + specialize (P2 Hc). destruct E1. lia.
    + apply E2. auto.
    + auto.
  - rewrite m_Alt in H. simpl.
    destruct (Re.m ic r1 k x) eqn:E1.
    + injection H as ->. apply IH1 in E1 as (y & ? & ? & P & C). exists y.
      repeat split; try assumption; try apply H0;
        intro Hc; apply andb_prop in Hc as [Hc _]; auto.
    + apply IH2 in H as (y & ? & ? & P & C). exists y.
      repeat split; try assumption; try apply H0;
        intro Hc; apply andb_prop in Hc as [_ Hc]; auto.
  - rewrite m_Star in H.
    assert (G : forall fuel x, Re.iterate ic g r k fuel x = Some z ->
                exists y, k y = Some z /\ extends x y).
    { clear x H. induction fuel as [|fuel IHf]; intros x H.
      - rewrite iterate_0 in H. exists x. split; [assumption | apply extends_refl].
      - rewrite iterate_S in H. cbv zeta in H.
        assert (A : Re.m ic r (fun y => if (Re.pos x <? Re.pos y)%nat
                                        then Re.iterate ic g r k fuel y else None) x = Some z ->
                    exists y, k y = Some z /\ extends x y).
        { intro Ha. apply IH in Ha as (y1 & Ha & E1 & _).
          destruct (Re.pos x <? Re.pos y1)%nat; [|discriminate].
          apply IHf in Ha as (y2 & Ha & E2). exists y2. split; [assumption|].
          eapply extends_trans; eassumption. }
        destruct g.
        + destruct (Re.m ic r _ x) eqn:Em.
          * injection H as ->. auto.
          * exists x. split; [assumption | apply extends_refl].
        + destruct (k x) eqn:Ek.
          * injection H as ->. exists x. split; [assumption | apply extends_refl].
          * auto. }
    apply G in H as (y & ? & ?). exists y. simpl.
    repeat split; try assumption; try apply H0; discriminate.
  - simpl in H. apply IH in H as (y & H & E & P & _).
    eexists. split; [exact H|]. simpl. destruct E as (E1 & E2 & E3).
    repeat split; simpl; auto; discriminate.
Qed.

Lemma match_at_span (re : Re.RegExp) (i : nat) (s : string) (mt : Re.Match) :
  Re.match_at re i s = Some mt ->
  Re.index mt = i
  /\ String.length (Re.text mt) <= String.length s
  /\ (consumes (Re.source re) = true -> 0 < String.length (Re.text mt))
  /\ (captures (Re.source re) = true -> Re.group1 mt <> None).
Proof.
  intro H. destruct (match_at_index _ _ _ _ H) as [Hi Hl]. repeat split; try assumption.
  all: unfold Re.match_at in H.
  all: destruct (Re.m _ _ _ _) as [y|] eqn:Em; [|discriminate].
  all: injection H as <-; simpl.
  all: apply m_extends in Em as (y' & Hy & (E1 & E2 & _) & P & C); injection Hy as ->.
  - simpl in *. intro Hc. specialize (P Hc). rewrite length_take. lia.
  - exact C.
Qed.

(** A match found from offset [i] on lies inside the input. *)
Lemma search_span (re : Re.RegExp) (s : string) (i : nat) (mt : Re.Match) :
  Re.search re i s = Some mt ->
  i <= Re.index mt
  /\ Re.index mt + String.length (Re.text mt) <= i + String.length s
  /\ (consumes (Re.source re) = true -> 0 < String.length (Re.text mt))
  /\ (captures (Re.source re) = true -> Re.group1 mt <> None).
Proof.
  revert i. induction s as [|c s IH]; intros i H; cbn [Re.search] in H.
  - destruct (Re.match_at re i "") eqn:E; [|discriminate]. injection H as ->.
    apply match_at_span in E as (-> & ? & ? & ?). simpl in *. repeat split; auto; lia.
  - destruct (Re.match_at re i (String c s)) eqn:E.
    + injection H as ->. apply match_at_span in E as (-> & ? & ? & ?).
      repeat split; auto; lia.
    + apply IH in H as (? & ? & ? & ?). simpl. repeat split; auto; lia.
Qed.

Lemma offsetToPos_from_shift (doc : string) (off ln col : nat) :
  offsetToPos_from ln col doc off
  = let p := offsetToPos_from 0 0 doc off in
    {| line := ln + line p; ch := if (line p =? 0)%nat then col + ch p else ch p |}.
Proof.
  revert off ln col. induction doc as [|c doc IH]; intros off ln col.
  - destruct off; simpl; f_equal; lia.
  - destruct off as [|off]; [simpl; f_equal; lia|].
    cbn [offsetToPos_from]. destruct (is_LF c).
    + rewrite (IH off (S ln) 0), (IH off 1 0). cbv zeta. simpl.
      f_equal; try lia; now destruct (line _ =? 0)%nat.
    + rewrite (IH off ln (S col)), (IH off 0 1). cbv zeta. simpl.
      destruct (line (offsetToPos_from 0 0 doc off) =? 0)%nat eqn:E; simpl;
        rewrite ?E; f_equal; lia.
Qed.

(** A position obtained from an offset of the document leads back to it. *)
Lemma posToOffset_offsetToPos (doc : string) (off : nat) :
  posToOffset doc (offsetToPos doc off) = Nat.min off (String.length doc).
Proof.
  unfold posToOffset, offsetToPos. revert off.
  induction doc as [|c doc IH]; intro off.
  - destruct off; reflexivity.
  - destruct off as [|off]; [reflexivity|].
    specialize (IH off).
    cbn [offsetToPos_from]. destruct (is_LF c) eqn:Ec; rewrite offsetToPos_from_shift;
      destruct (offsetToPos_from 0 0 doc off) as [l h]; cbv zeta; cbn [line ch] in *.
    + change (1 + l) with (S l). cbn [posToOffset_at]. rewrite Ec.
      replace (if (l =? 0)%nat then 0 + h else h) with h by now destruct (l =? 0)%nat.
      rewrite IH. reflexivity.
    + destruct l as [|l]; cbn [Nat.add Nat.eqb posToOffset_at]; rewrite Ec, IH; reflexivity.
Qed.

End Measure.

(** ** The placeholder token determines its clock reading and its suffix *)

Section TokenFacts.

Lemma string_of_uint_digits (u : Decimal.uint) :
  all_digits (NilEmpty.string_of_uint u) = true.
Proof. induction u; simpl; auto. Qed.

Lemma string_of_uint_nonempty (p : positive) :
  NilEmpty.string_of_uint (Pos.to_uint p) <> "".
Proof.
  pose proof (Unsigned.to_uint_nonnil p) as Hn.
  destruct (Pos.to_uint p); simpl; congruence.
Qed.

(** A run of digits followed by a hyphen is read back without ambiguity. *)
Lemma digits_hyphen_inj (d1 d2 r1 r2 : string) :
  all_digits d1 = true -> all_digits d2 = true ->
  d1 ++ String "-" r1 = d2 ++ String "-" r2 -> d1 = d2 /\ r1 = r2.
Proof.
  revert d2. induction d1 as [|c d1 IH]; intros [|c2 d2] H1 H2 E; simpl in *.
  - injection E as E. auto.
  - injection E as Ec E. subst c2. discriminate.
  - injection E as Ec E. subst c. discriminate.
  - injection E as Ec E. subst c2.
    apply andb_prop in H1 as [_ H1]. apply andb_prop in H2 as [_ H2].
    destruct (IH d2 H1 H2 E) as [-> ->]. auto.
Qed.

Lemma decimal_shape (z : Z) :
  exists sign d, Js.decimal z = sign ++ d /\ (sign = "" \/ sign = "-")
                 /\ all_digits d = true /\ d <> "".
Proof.
  unfold Js.decimal. destruct z as [|p|p]; simpl.
  - exists "", "0". repeat split; auto. discriminate.
  - exists "", (NilEmpty.string_of_uint (Pos.to_uint p)).
    repeat split; auto using string_of_uint_digits, string_of_uint_nonempty.
  - exists "-", (NilEmpty.string_of_uint (Pos.to_uint p)).
    repeat split; auto using string_of_uint_digits, string_of_uint_nonempty.
Qed.

Lemma decimal_inj (t1 t2 : Z) : Js.decimal t1 = Js.decimal t2 -> t1 = t2.
Proof.
  unfold Js.decimal. intro Hs. apply DecimalZ.to_int_inj.
  assert (Hi : NilEmpty.int_of_string (NilEmpty.string_of_int (Z.to_int t1)) =
               NilEmpty.int_of_string (NilEmpty.string_of_int (Z.to_int t2)))
    by now rewrite Hs.
  rewrite !NilEmpty.isi in Hi. now injection Hi.
Qed.

Lemma decimal_hyphen_inj (t1 t2 : Z) (r1 r2 : string) :
  Js.decimal t1 ++ String "-" r1 = Js.decimal t2 ++ String "-" r2 ->
  t1 = t2 /\ r1 = r2.
Proof.
  intro E.
  destruct (decimal_shape t1) as (s1 & d1 & E1 & S1 & D1 & N1).
  destruct (decimal_shape t2) as (s2 & d2 & E2 & S2 & D2 & N2).
  assert (Hd : Js.decimal t1 = Js.decimal t2 /\ r1 = r2).
  { rewrite E1, E2 in *.
    destruct d1 as [|c1 d1]; [congruence|]. destruct d2 as [|c2 d2]; [congruence|].
    pose proof D1 as D1'. pose proof D2 as D2'.
    simpl in D1', D2'. apply andb_prop in D1' as [C1 _]. apply andb_prop in D2' as [C2 _].
    destruct S1 as [-> | ->], S2 as [-> | ->]; simpl in E |- *.
    - destruct (digits_hyphen_inj _ _ _ _ D1 D2 E) as [-> ->]. auto.
    - injection E as -> _. discriminate.
    - injection E as <- _. discriminate.
    - apply (f_equal (Js.drop 1)) in E. simpl in E.
      destruct (digits_hyphen_inj _ _ _ _ D1 D2 E) as [HE ->]. rewrite HE. auto. }
  destruct Hd as [Hd ->]. split; [now apply decimal_inj | reflexivity].
Qed.

Lemma placeholderToken_inv (t1 t2 : Z) (r1 r2 : string) :
  placeholderToken t1 r1 = placeholderToken t2 r2 ->
  t1 = t2 /\ randomSuffix r1 = randomSuffix r2.
Proof.
  unfold placeholderToken. intro E.
  apply (append_inv_head "{{TOS_UPLOADING:") in E.
  apply decimal_hyphen_inj in E as [-> E]. split; [reflexivity|].
  now apply append_inv_tail in E.
Qed.

(** C9.  Two placeholder tokens generated from clock readings and random
    suffixes that differ in either component are different strings, also
    when both are generated within the same millisecond. *)
Theorem placeholderToken_distinct (t1 t2 : Z) (r1 r2 : string) :
  t1 <> t2 \/ randomSuffix r1 <> randomSuffix r2 ->
  placeholderToken t1 r1 <> placeholderToken t2 r2.
Proof.
  intros H E. apply placeholderToken_inv in E as [Et Er]. tauto.
Qed.

Lemma placeholderToken_distinct_witness :
  placeholderToken 1700000000000 "0.4fzyo82mvyr" = "{{TOS_UPLOADING:1700000000000-4fzyo8}}"
  /\ placeholderToken 1700000000000 "0.4fzyo82mvyr" <> placeholderToken 1700000000000 "0.9k1x7qpl0c".
Proof.
  split; [reflexivity|].
  apply placeholderToken_distinct. right. vm_compute. discriminate.
Defined.

End TokenFacts.

(** ** Facts on the matcher *)

Section RegexFacts.

Lemma slice_nil (a b : nat) (s : string) : b <= a -> Js.slice a b s = "".
Proof.
  intro H. unfold Js.slice. replace (b - a) with 0 by lia. now destruct (Js.drop a s).
Qed.

Lemma drop_all (n : nat) (s : string) : String.length s <= n -> Js.drop n s = "".
Proof.
  revert s. induction n as [|n IH]; intros [|c s]; simpl; intro H; try reflexivity; try lia.
  apply IH. lia.
Qed.

Lemma take_all (n : nat) (s : string) : String.length s <= n -> Js.take n s = s.
Proof.
  revert s. induction n as [|n IH]; intros [|c s]; simpl; intro H; try reflexivity; try lia.
  f_equal. apply IH. lia.
Qed.

Lemma drop_app_length (pre s : string) (n : nat) :
  n = String.length pre -> Js.drop n (pre ++ s) = s.
Proof. intros ->. apply drop_app_exact. Qed.

Lemma drop_drop (a b : nat) (s : string) : Js.drop a (Js.drop b s) = Js.drop (b + a) s.
Proof.
  revert s. induction b as [|b IH]; intro s; simpl; [reflexivity|].
  destruct s as [|c s]; [now destruct a | apply IH].
Qed.

Lemma take_S_drop (n : nat) (c : ascii) (s t : string) :
  Js.drop n s = String c t -> Js.take (S n) s = Js.take n s ++ String c "".
Proof.
  revert s. induction n as [|n IH]; intros [|d s]; simpl; intro H; try discriminate.
  - now injection H as -> _.
  - f_equal. now apply IH.
Qed.

(** Extending a slice by the character that follows it. *)
Lemma slice_snoc (next i : nat) (pre : string) (c : ascii) (s : string) :
  i = String.length pre -> next <= i ->
  Js.slice next (S i) (pre ++ String c s) = Js.slice next i (pre ++ String c s) ++ String c "".
Proof.
  intros Hi Hn. unfold Js.slice.
  replace (S i - next) with (S (i - next)) by lia.
  apply take_S_drop with (t := s).
  rewrite drop_drop. replace (next + (i - next)) with i by lia.
  now apply drop_app_length.
Qed.

(** The assembly of [replace] keeps exactly the text that the scan leaves
    uncovered. *)
Lemma substitute_scan (re : Re.RegExp) (s pre : string) (i skip next : nat) :
  i = String.length pre ->
  skip <= String.length s ->
  (skip = 0 -> next <= i) ->
  (skip <> 0 -> next = i + skip) ->
  Re.substitute (Re.scan re i skip s) "" next (pre ++ s)
  = Js.slice next i (pre ++ s) ++ uncovered re i skip s.
Proof.
  revert pre i skip next.
  induction s as [|c s IH]; intros pre i skip next Hi Hs H0 H1.
  - simpl in Hs. assert (skip = 0) by lia. subst skip. specialize (H0 eq_refl).
    rewrite append_nil_r. simpl.
    assert (Hd : Js.drop next pre = Js.slice next i pre).
    { unfold Js.slice. symmetry. apply take_all. rewrite length_drop. lia. }
    destruct (Re.match_at re i "") as [mt|] eqn:E; simpl.
    + apply match_at_index in E as [Ei El]. simpl in El.
      assert (String.length (Re.text mt) = 0) as -> by lia. rewrite Ei.
      apply Nat.leb_le in H0. rewrite H0. rewrite Nat.add_0_r.
      rewrite (drop_all i pre) by lia. reflexivity.
    + rewrite append_nil_r. exact Hd.
  - assert (Hpre : pre ++ String c s = (pre ++ String c "") ++ s)
      by now rewrite append_assoc.
    assert (Hi' : S i = String.length (pre ++ String c ""))
      by (rewrite length_append; simpl; lia).
    cbn [Re.scan uncovered].
    destruct skip as [|skip].
    + specialize (H0 eq_refl).
      destruct (Re.match_at re i (String c s)) as [mt|] eqn:E.
      * apply match_at_index in E as [Ei El].
        cbn [Re.substitute]. rewrite Ei.
        apply Nat.leb_le in H0. rewrite H0. apply Nat.leb_le in H0.
        cbn [append]. f_equal.
        rewrite Hpre.
        rewrite (IH _ (S i) (String.length (Re.text mt) - 1) (i + String.length (Re.text mt)));
          try assumption; simpl in El; try lia.
        rewrite <- Hpre.
        destruct (String.length (Re.text mt)) as [|L] eqn:EL.
        -- rewrite Nat.add_0_r. rewrite slice_snoc by (auto; lia).
           rewrite slice_nil by lia. reflexivity.
        -- rewrite slice_nil by lia. reflexivity.
      * rewrite Hpre.
        rewrite (IH _ (S i) 0 next); try assumption; simpl in Hs |- *; try lia.
        rewrite <- Hpre. rewrite slice_snoc by (auto; lia).
        now rewrite append_assoc.
    + specialize (H1 ltac:(discriminate)).
      rewrite Hpre.
      rewrite (IH _ (S i) (S skip - 1) next); try assumption; simpl in Hs |- *; try lia.
      rewrite <- Hpre. rewrite !slice_nil by lia. reflexivity.
Qed.

Lemma replace_global_uncovered (re : Re.RegExp) (s : string) :
  Re.global re = true -> Re.replace re "" s = uncovered re 0 0 s.
Proof.
  intro Hg. unfold Re.replace, Re.matchAll. rewrite Hg.
  pose proof (substitute_scan re s "" 0 0 0 eq_refl (Nat.le_0_l _)
                (fun _ => Nat.le_refl 0) (fun H => False_ind _ (H eq_refl))) as H.
  simpl in H. rewrite H. unfold Js.slice. simpl. now destruct s.
Qed.

(** *** Runs of slashes *)

(** [\/*] followed by nothing takes the whole run of slashes. *)
Lemma iterate_slash_Some (s : string) (fuel p : nat) (c : option string) :
  String.length s <= fuel ->
  Re.iterate false true slash Some fuel (Re.St p s c)
  = Some (Re.St (p + (String.length s - String.length (strip_leading_slashes s)))
             (strip_leading_slashes s) c).
Proof.
  revert fuel p. induction s as [|d s IH]; intros fuel p Hf.
  - replace (p + _) with p by (simpl; lia).
    destruct fuel; [reflexivity|]. rewrite iterate_S. reflexivity.
  - destruct fuel as [|fuel]; [simpl in Hf; lia|].
    rewrite iterate_S. cbv zeta. unfold slash. rewrite m_Chr. fold slash. cbn [Re.rest Re.char_eq].
    cbn [strip_leading_slashes]. rewrite (Ascii.eqb_sym "/" d).
    destruct (Ascii.eqb d "/") eqn:Ed.
    + cbn [Re.advance Re.rest Re.pos Re.cap].
      assert (Hlt : (p <? S p)%nat = true) by (apply Nat.ltb_lt; lia). rewrite Hlt.
      rewrite IH by (simpl in Hf; lia).
      f_equal. f_equal.
      assert (String.length (strip_leading_slashes s) <= String.length s).
      { clear. induction s as [|e s IHs]; simpl; [lia|].
        destruct (Ascii.eqb e "/"); simpl; lia. }
      simpl String.length. lia.
    + replace (p + _) with p by lia. reflexivity.
Qed.

(** [\/*$] succeeds only on a run of slashes that reaches the end. *)
Lemma iterate_slash_Eol (s : string) (fuel p : nat) (c : option string) :
  String.length s <= fuel ->
  Re.iterate false true slash (Re.m false Re.Eol Some) fuel (Re.St p s c)
  = if all_slashes s then Some (Re.St (p + String.length s) "" c) else None.
Proof.
  revert fuel p. induction s as [|d s IH]; intros fuel p Hf.
  - replace (p + _) with p by (simpl; lia).
    destruct fuel; [reflexivity|]. rewrite iterate_S. reflexivity.
  - destruct fuel as [|fuel]; [simpl in Hf; lia|].
    rewrite iterate_S. cbv zeta. unfold slash. rewrite m_Chr. fold slash. cbn [Re.rest Re.char_eq].
    cbn [all_slashes]. rewrite (Ascii.eqb_sym "/" d).
    destruct (Ascii.eqb d "/") eqn:Ed; [|reflexivity].
    cbn [Re.advance Re.rest Re.pos Re.cap].
    assert (Hlt : (p <? S p)%nat = true) by (apply Nat.ltb_lt; lia). rewrite Hlt.
    rewrite IH by (simpl in Hf; lia). cbn [andb].
    destruct (all_slashes s); [|reflexivity].
    f_equal. f_equal. simpl. lia.
Qed.

Lemma m_plus_slash_Some (p : nat) (s : string) (c : option string) :
  Re.m false (Re.Plus slash) Some (Re.St p s c)
  = match s with
    | String d s' =>
        if Ascii.eqb d "/"
        then Some (Re.St (S p + (String.length s' - String.length (strip_leading_slashes s')))
                      (strip_leading_slashes s') c)
        else None
    | "" => None
    end.
Proof.
  unfold Re.Plus. rewrite m_Seq. unfold slash at 1. rewrite m_Chr. cbn [Re.rest].
  destruct s as [|d s]; [reflexivity|]. cbn [Re.char_eq]. rewrite (Ascii.eqb_sym "/" d).
  destruct (Ascii.eqb d "/"); [|reflexivity].
  cbn [Re.advance Re.rest Re.pos Re.cap]. rewrite m_Star. cbn [Re.rest].
  now rewrite iterate_slash_Some.
Qed.

Lemma m_plus_slash_Eol (p : nat) (s : string) (c : option string) :
  Re.m false (Re.Seq (Re.Plus slash) Re.Eol) Some (Re.St p s c)
  = match s with
    | String d s' =>
        if Ascii.eqb d "/" && all_slashes s'
        then Some (Re.St (S p + String.length s') "" c)
        else None
    | "" => None
    end.
Proof.
  rewrite m_Seq. unfold Re.Plus. rewrite m_Seq. unfold slash at 1. rewrite m_Chr. cbn [Re.rest].
  destruct s as [|d s]; [reflexivity|]. cbn [Re.char_eq]. rewrite (Ascii.eqb_sym "/" d).
  destruct (Ascii.eqb d "/"); [|reflexivity].
  cbn [Re.advance Re.rest Re.pos Re.cap]. rewrite m_Star. cbn [Re.rest].
  now rewrite iterate_slash_Eol.
Qed.

End RegexFacts.

(** ** Offsets and positions *)

Section EditorFacts.

Lemma replaceRange_offsets (pf : Platform) (text : string) (a b : nat) (e : Editor) :
  a <= b -> b <= String.length (value e) ->
  replaceRange pf text (offsetToPos (value e) a) (offsetToPos (value e) b) e
  = change pf a b text e.
Proof.
  intros Hab Hb. unfold replaceRange. rewrite !posToOffset_offsetToPos.
  f_equal; lia.
Qed.

Lemma length_change (pf : Platform) (text : string) (a b : nat) (e : Editor) :
  a <= b -> b <= String.length (value e) ->
  String.length (value (change pf a b text e))
  = String.length (value e) - (b - a) + String.length text.
Proof.
  intros Hab Hb. unfold change. cbn [value].
  rewrite !length_append, length_take, length_drop. lia.
Qed.

End EditorFacts.

(** ** Residual cleanup *)

Section ResidualCleanup.

Variable pf : Platform.

(** With one turn of fuel per character of the document the loop comes to
    its end, on a document without match. *)
Lemma cleanup_loop_terminates (fuel : nat) :
  forall e, String.length (value e) <= fuel ->
    exists e', cleanup_loop pf fuel e = Some e' /\ Re.exec imgRe (value e') = None.
Proof.
  induction fuel as [|fuel IH]; intros e Hlen; cbn [cleanup_loop]; unfold getValue.
  - destruct (Re.exec imgRe (value e)) as [mt|] eqn:E; [|eauto].
    apply search_span in E as (_ & Hend & Hpos & _). specialize (Hpos eq_refl).
    simpl in Hend. lia.
  - destruct (Re.exec imgRe (value e)) as [mt|] eqn:E; [|eauto].
    apply search_span in E as (_ & Hend & Hpos & _). specialize (Hpos eq_refl).
    simpl in Hend. apply IH.
    rewrite replaceRange_offsets by lia. rewrite length_change by lia. simpl. lia.
Qed.

(** More fuel than needed changes nothing. *)
Lemma cleanup_loop_stable (fuel : nat) :
  forall e e' extra, cleanup_loop pf fuel e = Some e' ->
    cleanup_loop pf (fuel + extra) e = Some e'.
Proof.
  induction fuel as [|fuel IH]; intros e e' extra H.
  - cbn [cleanup_loop] in H. cbn [Nat.add].
    destruct (Re.exec imgRe (getValue e)) eqn:E; [discriminate|].
    destruct extra; cbn [cleanup_loop]; now rewrite E.
  - cbn [cleanup_loop Nat.add] in *.
    destruct (Re.exec imgRe (getValue e)); [|exact H]. now apply IH.
Qed.

(** C5.  The residual-cleanup loop comes to an end within one turn per
    character of the buffer, whatever the buffer, and more turns allowed
    change nothing; the buffer it ends on has no match of the pattern left;
    and on the buffer [![[Pasted image 1.png]]x![[Pasted image 2.jpg]]] it
    ends on [x]. *)
Theorem residual_cleanup_terminates_clean (e : Editor) (c : EditorPosition) :
  (exists e',
      cleanup_loop pf (String.length (value e)) e = Some e'
      /\ (forall extra, cleanup_loop pf (String.length (value e) + extra) e = Some e')
      /\ residual_cleanup pf e = e'
      /\ Re.test imgRe (value e') = false)
  /\ value (residual_cleanup pf
              {| value := "![[Pasted image 1.png]]x![[Pasted image 2.jpg]]"; cursor := c |})
     = "x".
Proof.
  split.
  - destruct (cleanup_loop_terminates (String.length (value e)) e (Nat.le_refl _))
      as (e' & He & Hn).
    exists e'. split; [exact He|]. split; [|split].
    + intro extra. now apply cleanup_loop_stable.
    + unfold residual_cleanup. now rewrite He.
    + unfold Re.test. now rewrite Hn.
  - vm_compute. reflexivity.
Qed.

End ResidualCleanup.

(** ** Reconciliation after an upload *)

Section Reconciliation.

Variable pf : Platform.

Lemma startsWith_length (p s : string) :
  Js.startsWith p s = true -> String.length p <= String.length s.
Proof.
  revert s. induction p as [|c p IH]; intros [|d s]; simpl; try easy; try lia.
  intro H. apply andb_prop in H as [_ H]. apply IH in H. lia.
Qed.

Lemma indexOf_occurs (needle hay : string) (i : nat) :
  Js.indexOf needle hay = Some i ->
  occurs_at needle hay i
  /\ (forall j, j < i -> Js.startsWith needle (Js.drop j hay) = false).
Proof.
  revert i. induction hay as [|c hay IH]; intros i H.
  - cbn [Js.indexOf] in H. destruct (Js.startsWith needle "") eqn:E; [|discriminate].
    injection H as <-. split; [|intros; lia].
    split; [exact E|]. apply startsWith_length in E. simpl in *. lia.
  - cbn [Js.indexOf] in H. destruct (Js.startsWith needle (String c hay)) eqn:E.
    + injection H as <-. split; [|intros; lia].
      split; [exact E|]. apply startsWith_length in E. simpl in *. lia.
    + destruct (Js.indexOf needle hay) as [i'|]; [|discriminate].
      injection H as <-. destruct (IH i' eq_refl) as [[Hs Hl] Hmin]. split.
      * split; [exact Hs | simpl; lia].
      * intros [|j] Hj; [exact E|]. simpl. apply Hmin. lia.
Qed.

Lemma startsWith_refl (s : string) : Js.startsWith s s = true.
Proof. induction s as [|c s IH]; simpl; [reflexivity | now rewrite Ascii.eqb_refl]. Qed.

Lemma indexOf_here (needle hay : string) :
  Js.startsWith needle hay = true -> Js.indexOf needle hay = Some 0.
Proof. intro H. destruct hay; cbn [Js.indexOf]; now rewrite H. Qed.

Lemma indexOf_later (needle : string) (c : ascii) (hay : string) :
  Js.startsWith needle (String c hay) = false ->
  Js.indexOf needle (String c hay) = option_map S (Js.indexOf needle hay).
Proof. intro H. cbn [Js.indexOf]. now rewrite H. Qed.

Lemma occurs_at_split (needle hay : string) (i : nat) :
  occurs_at needle hay i ->
  hay = Js.take i hay ++ needle ++ Js.drop (i + String.length needle) hay.
Proof.
  intros [Hs _]. apply startsWith_inv in Hs.
  rewrite drop_drop in Hs. rewrite <- Hs. now rewrite take_drop.
Qed.

Lemma offsetToPos_from_clamp (doc : string) (off ln col : nat) :
  offsetToPos_from ln col doc (Nat.min off (String.length doc))
  = offsetToPos_from ln col doc off.
Proof.
  revert off ln col. induction doc as [|c doc IH]; intros [|off] ln col; try reflexivity.
  cbn [String.length Nat.min offsetToPos_from]. now rewrite !IH.
Qed.

Lemma setCursor_offset (off : nat) (e : Editor) :
  setCursor (offsetToPos (value e) off) e
  = {| value := value e; cursor := offsetToPos (value e) off |}.
Proof.
  unfold setCursor. rewrite posToOffset_offsetToPos.
  unfold offsetToPos. now rewrite offsetToPos_from_clamp.
Qed.

Lemma position_eqb (p q : EditorPosition) :
  ((line p =? line q) && (ch p =? ch q))%nat = true <-> p = q.
Proof.
  destruct p as [l c], q as [l' c']. simpl. split.
  - intro H. apply andb_prop in H as [H1 H2].
    apply Nat.eqb_eq in H1, H2. now subst.
  - intros [= -> ->]. now rewrite !Nat.eqb_refl.
Qed.

Lemma reconcile_success_eq (token url : string) (e : Editor) (idx : nat) :
  Js.indexOf token (value e) = Some idx ->
  let finalMd := "![](" ++ url ++ ")" in
  let tokenEnd := offsetToPos (value e) (idx + String.length token) in
  let e1 := change pf idx (idx + String.length token) finalMd e in
  reconcile_success pf token url e
  = if ((line (cursor e) =? line tokenEnd) && (ch (cursor e) =? ch tokenEnd))%nat
    then {| value := value e1;
            cursor := offsetToPos (value e1) (idx + String.length finalMd) |}
    else e1.
Proof.
  intros Hi finalMd tokenEnd e1. unfold reconcile_success, getValue, getCursor. rewrite Hi.
  destruct (indexOf_occurs _ _ _ Hi) as [[_ Hl] _].
  rewrite replaceRange_offsets by lia. fold finalMd. fold tokenEnd. fold e1.
  destruct ((line (cursor e) =? line tokenEnd) && (ch (cursor e) =? ch tokenEnd))%nat;
    [|reflexivity].
  apply setCursor_offset.
Qed.

Lemma indexOf_after_abc (t : string) :
  Js.indexOf (String "{" t) ("abc" ++ String "{" t) = Some 3.
Proof.
  cbn [append]. rewrite !indexOf_later by reflexivity.
  now rewrite indexOf_here by apply startsWith_refl.
Qed.

(** C2.  When the token is found in the current buffer it gives way to the
    image reference; a cursor that stood exactly at the end of the token
    stands at the end of the reference afterwards, and for any other cursor
    the handler does nothing beyond the replacement itself: the cursor is
    where the editor's own handling of the change leaves it.  On the buffer
    made of [abc] and the token, with the cursor at its end, the result is
    [abc![](u)] with the cursor at its end. *)
Theorem reconcile_success_cursor (token url : string) (e : Editor) (idx : nat) :
  Js.indexOf token (value e) = Some idx ->
  let finalMd := "![](" ++ url ++ ")" in
  let tokenEnd := offsetToPos (value e) (idx + String.length token) in
  let e' := reconcile_success pf token url e in
  value e' = Js.take idx (value e) ++ finalMd ++ Js.drop (idx + String.length token) (value e)
  /\ (cursor e = tokenEnd ->
      cursor e' = offsetToPos (value e') (idx + String.length finalMd))
  /\ (cursor e <> tokenEnd ->
      e' = change pf idx (idx + String.length token) finalMd e
      /\ cursor e' = cursor_after_change pf (value e) idx (idx + String.length token)
                       finalMd (cursor e))
  /\ (forall (now : Z) (r36 : string),
        let tok := placeholderToken now r36 in
        reconcile_success pf tok "u" {| value := "abc" ++ tok; cursor := end_of ("abc" ++ tok) |}
        = {| value := "abc![](u)"; cursor := end_of "abc![](u)" |}).
Proof.
  intros Hidx finalMd tokenEnd e'. unfold e'.
  split; [|split; [|split]].
  - rewrite (reconcile_success_eq _ _ _ _ Hidx). cbv zeta.
    destruct (_ && _)%bool; reflexivity.
  - intro Hc. rewrite (reconcile_success_eq _ _ _ _ Hidx). cbv zeta.
    apply position_eqb in Hc. fold tokenEnd. rewrite Hc. reflexivity.
  - intro Hc. rewrite (reconcile_success_eq _ _ _ _ Hidx). cbv zeta. fold tokenEnd.
    destruct (_ && _)%bool eqn:E; [|split; reflexivity].
    apply position_eqb in E. contradiction.
  - intros clock r36. set (tok := placeholderToken clock r36).
    assert (Ht : exists t, tok = String "{" t) by (eexists; reflexivity).
    destruct Ht as [t Ht]. rewrite Ht.
    set (ed := {| value := "abc" ++ String "{" t; cursor := end_of ("abc" ++ String "{" t) |}).
    rewrite (reconcile_success_eq (String "{" t) "u" ed 3 (indexOf_after_abc t)). cbv zeta.
    assert (Hc : cursor ed = offsetToPos (value ed) (3 + String.length (String "{" t)))
      by reflexivity.
    apply position_eqb in Hc. rewrite Hc.
    change ("![](" ++ "u" ++ ")") with "![](u)".
    assert (Hv : value (change pf 3 (3 + String.length (String "{" t)) "![](u)" ed)
                 = "abc![](u)").
    { unfold change. cbn [value ed Js.take Js.drop Nat.add String.length append].
      rewrite drop_all by lia. reflexivity. }
    rewrite Hv. reflexivity.
Qed.

End Reconciliation.

Lemma reconcile_success_cursor_witness :
  let tok := placeholderToken 1700000000000 "0.4fzyo82mvyr" in
  let e := {| value := "abc" ++ tok; cursor := end_of ("abc" ++ tok) |} in
  Js.indexOf tok (value e) = Some 3
  /\ value (reconcile_success (Build_Platform (fun _ => true) (fun _ _ => None)
                                 (fun _ _ _ _ c => c)) tok "u" e)
     = "abc![](u)".
Proof.
  intros tok e.
  assert (H : Js.indexOf tok (value e) = Some 3) by reflexivity.
  split; [exact H|].
  destruct (reconcile_success_cursor (Build_Platform (fun _ => true) (fun _ _ => None)
                                       (fun _ _ _ _ c => c)) tok "u" e 3 H) as (Hv & _).
  rewrite Hv. reflexivity.
Defined.


(** ** An upload that fails *)

Section UploadFailure.

Variable pf : Platform.

Lemma uploadFile_world (u : TosUploader) (f : File) (clock : Z) (w : World) :
  snd (uploadFile u f clock w)
  = {| editor := editor w; notices := notices w;
       calls := (calls w ++ [PutObject (bucket (settings u)) (storageKey (settings u) f clock)
                               (if Js.truthy (type f) then Some (type f) else None)])%list |}.
Proof.
  unfold uploadFile, request. cbn [fst snd].
  destruct (respond _ _ _); [reflexivity|]. now destruct (getUrl _ _).
Qed.

Lemma filter_is_delete_put (cs : list Call) (b k : string) (ct : option string) :
  List.filter is_delete (cs ++ [PutObject b k ct])%list = List.filter is_delete cs.
Proof. rewrite List.filter_app. simpl. apply List.app_nil_r. Qed.

Lemma paste_image_calls (u : TosUploader) (mo : Moment) (f : File) (w : World) :
  calls (paste_image pf u mo f w)
  = (calls w ++ [PutObject (bucket (settings u)) (storageKey (settings u) f (upload_clock mo))
                   (if Js.truthy (type f) then Some (type f) else None)])%list.
Proof.
  unfold paste_image.
  match goal with |- context [uploadFile ?a ?b ?c ?d] =>
    pose proof (uploadFile_world a b c d) as Hw; destruct (uploadFile a b c d) as [r w1] end.
  cbn [snd] in Hw. subst w1. destruct r as [[url k]|err]; reflexivity.
Qed.

(** Every image item that yields a file gets its upload, whatever became of
    the items before it. *)
Lemma paste_images_attempts (u : TosUploader) (env : nat -> Moment) (imgs : list ClipboardItem) :
  forall i w,
    List.length (calls (paste_images pf u env i imgs w))
    = List.length (calls w) + List.length (List.filter has_file imgs)
    /\ List.filter is_delete (calls (paste_images pf u env i imgs w))
       = List.filter is_delete (calls w).
Proof.
  induction imgs as [|it rest IH]; intros i w; cbn [paste_images List.filter].
  - split; [simpl; lia | reflexivity].
  - unfold has_file at 1. destruct (getAsFile it) as [f|].
    + destruct (IH (S i) (paste_image pf u (env i) f w)) as [Hl Hd].
      rewrite Hl, Hd, paste_image_calls, filter_is_delete_put, List.length_app.
      simpl. split; [lia | reflexivity].
    + apply IH.
Qed.

Lemma reconcile_failure_found (token : string) (e : Editor) (i : nat) :
  Js.indexOf token (value e) = Some i ->
  let after := Js.take i (value e) ++ Js.drop (i + String.length token) (value e) in
  reconcile_failure pf token e = {| value := after; cursor := end_of after |}.
Proof.
  intros Hi after. unfold reconcile_failure, Js.includes, Js.replace, getValue. rewrite Hi.
  cbn [append]. fold after.
  assert (Hv : value (setValue pf after e) = after).
  { unfold setValue, change. cbn [value Js.take]. rewrite drop_all by lia.
    destruct (value e); cbn [Js.take append]; apply append_nil_r. }
  rewrite setCursor_offset, Hv. reflexivity.
Qed.

Lemma reconcile_failure_absent (token : string) (e : Editor) :
  Js.indexOf token (value e) = None -> reconcile_failure pf token e = e.
Proof.
  intro Hi. unfold reconcile_failure, Js.includes, getValue. now rewrite Hi.
Qed.

(** C6.  When the upload of one image fails, a failure notice is reported;
    if the token occurs in the buffer as it is then, exactly its first
    occurrence is taken out and the cursor goes to the end of the document;
    no remote delete is sent; and the loop goes on with the remaining
    payloads, each of which still gets its upload. *)
Theorem paste_image_failure (u : TosUploader) (mo : Moment) (f : File) (w : World) (err : Error) :
  let token := placeholderToken (token_clock mo) (token_random mo) in
  let w0 := with_editor (replaceRange pf token (cursor (editor w)) (cursor (editor w)) (editor w)) w in
  fst (uploadFile u f (upload_clock mo) w0) = Throw err ->
  let doc := value (meanwhile mo (editor w0)) in
  let w' := paste_image pf u mo f w in
  notices w' = (notices w ++ [UploadFailed err])%list
  /\ (forall i, Js.indexOf token doc = Some i ->
        occurs_at token doc i
        /\ (forall j, j < i -> Js.startsWith token (Js.drop j doc) = false)
        /\ value (editor w') = Js.take i doc ++ Js.drop (i + String.length token) doc
        /\ cursor (editor w') = end_of (value (editor w')))
  /\ List.filter is_delete (calls w') = List.filter is_delete (calls w)
  /\ (forall env i it rest,
        getAsFile it = Some f -> env i = mo ->
        paste_images pf u env i (it :: rest) w = paste_images pf u env (S i) rest w'
        /\ List.length (calls (paste_images pf u env i (it :: rest) w))
           = List.length (calls w') + List.length (List.filter has_file rest)).
Proof.
  intros token w0 Hfail doc w'.
  assert (Hw' : w' = notify (UploadFailed err)
                       (with_editor (reconcile_failure pf token (meanwhile mo (editor w0)))
                          (snd (uploadFile u f (upload_clock mo) w0)))).
  { unfold w', paste_image, getCursor. fold token. fold w0.
    destruct (uploadFile u f (upload_clock mo) w0) as [r w1] eqn:E.
    cbn [fst snd] in *. subst r.
    pose proof (uploadFile_world u f (upload_clock mo) w0) as Hw. rewrite E in Hw.
    cbn [snd] in Hw. subst w1. cbn [snd]. reflexivity. }
  split; [|split; [|split]].
  - rewrite Hw', uploadFile_world. reflexivity.
  - intros i Hi. destruct (indexOf_occurs _ _ _ Hi) as [Ho Hmin].
    repeat split; try apply Ho; try exact Hmin.
    + rewrite Hw', uploadFile_world. cbn [notify with_editor editor].
      now rewrite (reconcile_failure_found _ _ _ Hi).
    + rewrite Hw', uploadFile_world. cbn [notify with_editor editor].
      now rewrite (reconcile_failure_found _ _ _ Hi).
  - unfold w'. rewrite paste_image_calls. apply filter_is_delete_put.
  - intros env i it rest Hf He. cbn [paste_images]. rewrite Hf, He. fold w'.
    split; [reflexivity|]. apply paste_images_attempts.
Qed.

End UploadFailure.

Lemma paste_image_failure_witness :
  let u := example_uploader rejecting_client in
  let mo := {| token_clock := 1700000000000; token_random := "0.4fzyo82mvyr";
               upload_clock := 1700000000001; meanwhile := fun e => e |} in
  let f := {| name := "shot.png"; type := "image/png" |} in
  let w := quiet "abc" (end_of "abc") in
  let w' := paste_image example_platform u mo f w in
  notices w' = [UploadFailed quota_exceeded]
  /\ value (editor w') = "abc"
  /\ calls w' = [PutObject "notes" "img/1700000000001.png" (Some "image/png")].
Proof.
  intros u mo f w w'.
  assert (Hfail : fst (uploadFile u f (upload_clock mo)
            (with_editor (replaceRange example_platform
               (placeholderToken (token_clock mo) (token_random mo))
               (cursor (editor w)) (cursor (editor w)) (editor w)) w)) = Throw quota_exceeded)
    by reflexivity.
  destruct (paste_image_failure example_platform u mo f w quota_exceeded Hfail)
    as (Hn & Hv & _).
  split; [exact Hn|]. split; [|reflexivity].
  destruct (Hv 3 eq_refl) as (_ & _ & Hval & _).
  etransitivity; [exact Hval | reflexivity].
Defined.

(** ** What a global replacement leaves *)

Section Outside.

Lemma keep_from_ext (p q : nat -> bool) (s : string) (i : nat) :
  (forall j, i <= j -> p j = q j) -> keep_from i p s = keep_from i q s.
Proof.
  revert i. induction s as [|c s IH]; intros i H; [reflexivity|].
  cbn [keep_from]. rewrite (H i) by lia.
  rewrite (IH (S i)) by (intros; apply H; lia). reflexivity.
Qed.

Lemma scan_Forall (re : Re.RegExp) (P : Re.Match -> Prop) :
  (forall i s mt, Re.match_at re i s = Some mt -> P mt) ->
  forall s i skip, List.Forall P (Re.scan re i skip s).
Proof.
  intros HP. induction s as [|c s IH]; intros i skip; cbn [Re.scan].
  - destruct skip; [|constructor].
    destruct (Re.match_at re i "") eqn:E; constructor; eauto.
  - destruct skip as [|skip].
    + destruct (Re.match_at re i (String c s)) eqn:E; [constructor; eauto | apply IH].
    + apply IH.
Qed.

(** The matches of a scan start at or after the offset it starts from. *)
Lemma scan_from (re : Re.RegExp) (s : string) :
  forall i skip, List.Forall (fun mt => i + skip <= Re.index mt) (Re.scan re i skip s).
Proof.
  induction s as [|c s IH]; intros i skip; cbn [Re.scan].
  - destruct skip; [|constructor].
    destruct (Re.match_at re i "") eqn:E; constructor; [|constructor].
    apply match_at_index in E as [-> _]. lia.
  - destruct skip as [|skip].
    + destruct (Re.match_at re i (String c s)) eqn:E.
      * constructor; [apply match_at_index in E as [-> _]; lia|].
        eapply List.Forall_impl; [|apply IH]. simpl. intros; lia.
      * eapply List.Forall_impl; [|apply IH]. simpl. intros; lia.
    + eapply List.Forall_impl; [|apply IH]. simpl. intros; lia.
Qed.

Lemma covered_before (ms : list Re.Match) (i j : nat) :
  List.Forall (fun mt => i <= Re.index mt) ms -> j < i ->
  covered (List.map span ms) j = false.
Proof.
  induction 1 as [|mt ms Hm _ IH]; intro Hj; [reflexivity|].
  cbn [List.map covered List.existsb]. fold (covered (List.map span ms) j).
  rewrite IH by assumption. unfold span. cbn [fst snd].
  assert (E : (Re.index mt <=? j)%nat = false) by (apply Nat.leb_gt; lia).
  now rewrite E.
Qed.

Lemma covered_cons (sp : nat * nat) (sps : list (nat * nat)) (j : nat) :
  covered (sp :: sps) j = (fst sp <=? j)%nat && (j <? snd sp)%nat || covered sps j.
Proof. reflexivity. Qed.

Lemma uncovered_keep (re : Re.RegExp) (s : string) :
  forall i skip,
    uncovered re i skip s
    = keep_from i (fun j => negb (covered (List.map span (Re.scan re i skip s)) j)
                            && (i + skip <=? j)%nat) s.
Proof.
  induction s as [|c s IH]; intros i skip; [reflexivity|].
  cbn [uncovered Re.scan keep_from].
  destruct skip as [|skip].
  - destruct (Re.match_at re i (String c s)) as [mt|] eqn:E.
    + destruct (match_at_index _ _ _ _ E) as [Ei _].
      pose proof (scan_from re s (S i) (String.length (Re.text mt) - 1)) as Hfrom.
      assert (Hci : covered (List.map span (Re.scan re (S i) (String.length (Re.text mt) - 1) s)) i
                    = false).
      { eapply covered_before; [|apply Nat.lt_succ_diag_r].
        eapply List.Forall_impl; [|exact Hfrom]. simpl. intros; lia. }
      cbn [List.map]. rewrite covered_cons, Hci.
      unfold span at 1 2. cbn [fst snd]. rewrite Ei, (Nat.add_0_r i), Nat.leb_refl.
      rewrite IH.
      destruct (String.length (Re.text mt)) as [|L] eqn:EL.
      * rewrite (Nat.add_0_r i), Nat.ltb_irrefl. cbn [andb orb negb]. f_equal.
        apply keep_from_ext. intros j Hj. rewrite covered_cons.
        unfold span. cbn [fst snd]. rewrite Ei, EL, (Nat.add_0_r i).
        assert (E1 : (i <=? j)%nat = true) by (apply Nat.leb_le; lia).
        assert (E2 : (j <? i)%nat = false) by (apply Nat.ltb_ge; lia).
        assert (E3 : (S i + (0 - 1) <=? j)%nat = true) by (apply Nat.leb_le; lia).
        rewrite E1, E2, E3. reflexivity.
      * assert (E0 : (i <? i + S L)%nat = true) by (apply Nat.ltb_lt; lia).
        rewrite E0. cbn [andb orb negb].
        apply keep_from_ext. intros j Hj. rewrite covered_cons.
        unfold span. cbn [fst snd]. rewrite Ei, EL.
        assert (E1 : (i <=? j)%nat = true) by (apply Nat.leb_le; lia).
        rewrite E1. cbn [andb].
        replace (S i + (S L - 1)) with (i + S L) by lia.
        destruct (j <? i + S L)%nat eqn:E2.
        -- apply Nat.ltb_lt in E2.
           assert (E3 : (i + S L <=? j)%nat = false) by (apply Nat.leb_gt; lia).
           rewrite E3. cbn [orb negb]. now rewrite andb_false_r.
        -- apply Nat.ltb_ge in E2.
           assert (E3 : (i + S L <=? j)%nat = true) by (apply Nat.leb_le; lia).
           rewrite E3. cbn [orb]. now rewrite !andb_true_r.
    + pose proof (scan_from re s (S i) 0) as Hfrom.
      assert (Hci : covered (List.map span (Re.scan re (S i) (0 - 1) s)) i = false).
      { eapply covered_before; [|apply Nat.lt_succ_diag_r].
        eapply List.Forall_impl; [|exact Hfrom]. simpl. intros; lia. }
      rewrite Hci, (Nat.add_0_r i), Nat.leb_refl. cbn [andb negb]. f_equal.
      rewrite IH. apply keep_from_ext. intros j Hj.
      assert (E1 : (i <=? j)%nat = true) by (apply Nat.leb_le; lia).
      assert (E3 : (S i + (0 - 1) <=? j)%nat = true) by (apply Nat.leb_le; simpl; lia).
      rewrite E1, E3. reflexivity.
  - assert (E0 : (i + S skip <=? i)%nat = false) by (apply Nat.leb_gt; lia).
    rewrite E0, andb_false_r. rewrite IH. apply keep_from_ext. intros j Hj.
    replace (S i + (S skip - 1)) with (i + S skip) by lia. reflexivity.
Qed.

(** Replacing every match of a global pattern by nothing leaves exactly the
    characters that lie outside the spans of [matchAll]. *)
Lemma replace_global_outside (re : Re.RegExp) (s : string) :
  Re.global re = true -> Re.replace re "" s = outside (Re.matchAll re s) s.
Proof.
  intro Hg. rewrite (replace_global_uncovered re s Hg), uncovered_keep.
  unfold outside, Re.matchAll. apply keep_from_ext. intros j _.
  assert (E : (0 + 0 <=? j)%nat = true) by (apply Nat.leb_le; lia).
  now rewrite E, andb_true_r.
Qed.

End Outside.

(** ** Reference deletion *)

Section Deletion.

Variable pf : Platform.

Lemma value_setValue (text : string) (e : Editor) : value (setValue pf text e) = text.
Proof.
  unfold setValue, change. cbn [value Js.take]. rewrite drop_all by lia.
  destruct (value e); cbn [Js.take append]; apply append_nil_r.
Qed.

(** Every match of the image-reference pattern has its group. *)
Lemma image_matches_grouped (s : string) :
  List.Forall (fun mt => Re.group1 mt <> None) (Re.matchAll re_image_g s).
Proof.
  apply scan_Forall. intros i t mt H.
  apply match_at_span in H as (_ & _ & _ & Hc). now apply Hc.
Qed.

Lemma keys_of_total (ms : list Re.Match) :
  List.Forall (fun mt => Re.group1 mt <> None) ms ->
  exists keys, keys_of pf ms = Some keys /\ List.length keys = List.length ms.
Proof.
  induction 1 as [|mt ms Hm _ (keys & Hk & Hl)]; cbn [keys_of].
  - exists []. auto.
  - destruct (Re.group1 mt) as [url|]; [|congruence]. rewrite Hk.
    eexists. split; [reflexivity|]. simpl. now rewrite Hl.
Qed.

Lemma delete_each_world (u : TosUploader) (keys : list string) :
  forall w,
    editor (delete_each u keys w) = editor w
    /\ calls (delete_each u keys w)
       = (calls w ++ List.map (DeleteObject (bucket (settings u))) keys)%list
    /\ notices (delete_each u keys w)
       = (notices w ++ List.map KeyDeleteFailed
            (rejections (client u) (List.length (calls w)) (bucket (settings u)) keys))%list.
Proof.
  induction keys as [|k ks IH]; intro w; cbn [delete_each List.map rejections].
  - now rewrite !List.app_nil_r.
  - unfold deleteByKey, request.
    destruct (respond (client u) (List.length (calls w)) (DeleteObject (bucket (settings u)) k))
      as [e|];
      match goal with |- context [delete_each u ks ?w1] => destruct (IH w1) as (He & Hc & Hn) end;
      rewrite He, Hc, Hn; cbn [editor calls notices notify];
      rewrite ?List.length_app, <- ?List.app_assoc; cbn [List.length List.app List.map];
      rewrite ?Nat.add_1_r; auto.
Qed.

Lemma filter_key_failures (es : list Error) :
  List.length (List.filter is_key_failure (List.map KeyDeleteFailed es)) = List.length es.
Proof. induction es as [|e es IH]; simpl; [reflexivity | now rewrite IH]. Qed.

(** C4.  With an uploader and at least one image reference in the buffer,
    Delete-all sends one remote delete per reference, reports each rejected
    delete by a notice of its own, and then rewrites the buffer once, to the
    text outside the matched spans, whatever the outcomes of the deletes: as
    many failure notices as rejected deletes, so with two references and one
    rejected delete both spans are gone and one failure notice is shown. *)
Theorem delete_all_strips_all (u : TosUploader) (meanwhile : Editor -> Editor) (w : World) :
  let all := value (editor w) in
  let matches := Re.matchAll re_image_g all in
  matches <> [] ->
  let w' := click_delete_all pf (Some u) meanwhile w in
  exists keys,
    keys_of pf matches = Some keys
    /\ List.length keys = List.length matches
    /\ editor w' = setValue pf (outside matches all) (meanwhile (editor w))
    /\ value (editor w') = outside matches all
    /\ calls w' = (calls w ++ List.map (DeleteObject (bucket (settings u))) keys)%list
    /\ notices w'
       = (notices w
          ++ List.map KeyDeleteFailed
               (rejections (client u) (List.length (calls w)) (bucket (settings u)) keys)
          ++ [DeletedCount (List.length matches)])%list
    /\ List.length (List.filter is_key_failure (notices w'))
       = List.length (List.filter is_key_failure (notices w))
         + List.length (rejections (client u) (List.length (calls w))
                          (bucket (settings u)) keys).
Proof.
  intros all matches Hne w'.
  destruct (keys_of_total matches (image_matches_grouped all)) as (keys & Hk & Hl).
  exists keys. split; [exact Hk|]. split; [exact Hl|].
  destruct (delete_each_world u keys w) as (He & Hc & Hn).
  assert (Hw' : w' = notify (DeletedCount (List.length keys))
                       (with_editor (setValue pf (Re.replace re_image_g "" all)
                                       (meanwhile (editor (delete_each u keys w))))
                          (delete_each u keys w))).
  { unfold w', click_delete_all, getValue. fold all. fold matches.
    destruct matches; [congruence|]. now rewrite Hk. }
  rewrite Hw', He, Hl, (replace_global_outside re_image_g all eq_refl). fold matches.
  cbn [notify with_editor editor calls notices].
  repeat split; auto.
  - apply value_setValue.
  - rewrite Hn. now rewrite <- List.app_assoc.
  - rewrite Hn, !List.filter_app, !List.length_app, filter_key_failures.
    simpl. lia.
Qed.

(** C10.  Without an uploader, Delete-all on a buffer with at least one
    image reference still rewrites the buffer to the text outside the
    matched spans and reports the count, and sends no remote delete. *)
Theorem delete_all_without_uploader (meanwhile : Editor -> Editor) (w : World) :
  let all := value (editor w) in
  let matches := Re.matchAll re_image_g all in
  matches <> [] ->
  let w' := click_delete_all pf None meanwhile w in
  editor w' = setValue pf (outside matches all) (editor w)
  /\ value (editor w') = outside matches all
  /\ notices w' = (notices w ++ [DeletedCount (List.length matches)])%list
  /\ calls w' = calls w.
Proof.
  intros all matches Hne w'.
  destruct (keys_of_total matches (image_matches_grouped all)) as (keys & Hk & Hl).
  assert (Hw' : w' = notify (DeletedCount (List.length keys))
                       (with_editor (setValue pf (Re.replace re_image_g "" all) (editor w)) w)).
  { unfold w', click_delete_all, getValue. fold all. fold matches.
    destruct matches; [congruence|]. now rewrite Hk. }
  rewrite Hw', Hl, (replace_global_outside re_image_g all eq_refl). fold matches.
  cbn [notify with_editor editor calls notices].
  repeat split; auto. apply value_setValue.
Qed.

(** C7.  On a buffer without image reference Delete-all only reports that no
    image was found: the buffer and the call log are as before, so doing it
    again changes nothing either. *)
Theorem delete_all_nothing_to_do (uploader : option TosUploader)
  (meanwhile : Editor -> Editor) (w : World) :
  Re.matchAll re_image_g (value (editor w)) = [] ->
  let w' := click_delete_all pf uploader meanwhile w in
  w' = notify NoImageFound w
  /\ editor w' = editor w
  /\ calls w' = calls w
  /\ (forall uploader' meanwhile',
        let w'' := click_delete_all pf uploader' meanwhile' w' in
        editor w'' = editor w /\ calls w'' = calls w
        /\ notices w'' = (notices w ++ [NoImageFound; NoImageFound])%list).
Proof.
  intro H.
  assert (E : forall up mw w0, value (editor w0) = value (editor w) ->
                click_delete_all pf up mw w0 = notify NoImageFound w0).
  { intros up mw w0 Hv. unfold click_delete_all, getValue. now rewrite Hv, H. }
  cbv zeta. rewrite (E uploader meanwhile w eq_refl).
  cbn [notify editor calls]. repeat split.
  all: rewrite (E uploader' meanwhile' (notify NoImageFound w) eq_refl);
    cbn [notify editor calls notices]; auto.
  now rewrite <- List.app_assoc.
Qed.

(** The item offered by the menu carries a match with its group. *)
Lemma menu_delete_one_group (uploader : option TosUploader) (e : Editor) (d : DeleteOne) :
  menu_delete_one uploader e = Some d ->
  exists url, Re.group1 (m d) = Some url
              /\ Re.exec re_image (line_then d) = Some (m d)
              /\ line_then d = getLine (line (cursor e)) e /\ cur d = cursor e.
Proof.
  unfold menu_delete_one, getCursor.
  destruct (Re.exec re_image _) as [mt|] eqn:E; [|discriminate].
  destruct uploader; [|discriminate]. intros [= <-]. cbn [m line_then cur].
  apply search_span in E as H. destruct H as (_ & _ & _ & Hc). specialize (Hc eq_refl).
  destruct (Re.group1 mt) as [url|] eqn:G; [|congruence]. eauto.
Qed.

(** C3, as the code has it.  Delete-one sends one remote delete; when it is
    rejected the error is reported and the editor is left as it is, and only
    when it succeeds is the first occurrence of the matched text taken out
    of the line. *)
Theorem delete_one_outcome (menu_uploader : option TosUploader) (e : Editor) (d : DeleteOne)
  (u : TosUploader) (meanwhile : Editor -> Editor) (w : World) :
  menu_delete_one menu_uploader e = Some d ->
  let w' := click_delete_one pf (Some u) d meanwhile w in
  exists url,
    Re.group1 (m d) = Some url
    /\ let call := DeleteObject (bucket (settings u)) (parseKeyFromUrlOrKey pf url) in
       calls w' = (calls w ++ [call])%list
       /\ match respond (client u) (List.length (calls w)) call with
          | Some err =>
              editor w' = meanwhile (editor w)
              /\ notices w' = (notices w ++ [DeleteFailed err])%list
          | None =>
              editor w' = setLine pf (line (cur d)) (Js.replace (Re.text (m d)) "" (line_then d))
                            (meanwhile (editor w))
              /\ notices w' = (notices w ++ [DeleteSucceeded])%list
          end.
Proof.
  intros Hmenu w'. destruct (menu_delete_one_group _ _ _ Hmenu) as (url & Hg & _).
  exists url. split; [exact Hg|]. cbv zeta.
  unfold w', click_delete_one. rewrite Hg. unfold deleteByKey, request.
  destruct (respond _ _ _); cbn [notify with_editor editor calls notices]; auto.
Qed.

End Deletion.

Lemma delete_all_strips_all_witness :
  let u := example_uploader (client_rejecting_key "k2.png") in
  let w := quiet "a ![x](k1.png) b ![y](/k2.png) c" origin in
  let w' := click_delete_all example_platform (Some u) (fun e => e) w in
  List.length (Re.matchAll re_image_g (value (editor w))) = 2
  /\ value (editor w') = "a  b  c"
  /\ calls w' = [DeleteObject "notes" "k1.png"; DeleteObject "notes" "k2.png"]
  /\ notices w' = [KeyDeleteFailed quota_exceeded; DeletedCount 2].
Proof.
  intros u w w'.
  assert (Hne : Re.matchAll re_image_g (value (editor w)) <> []) by (vm_compute; discriminate).
  destruct (delete_all_strips_all example_platform u (fun e => e) w Hne)
    as (keys & Hk & _ & _ & Hv & Hc & Hn & _).
  assert (keys = ["k1.png"; "k2.png"]) as -> by (vm_compute in Hk; congruence).
  split; [reflexivity|]. split; [|split].
  - etransitivity; [exact Hv | reflexivity].
  - etransitivity; [exact Hc | reflexivity].
  - etransitivity; [exact Hn | reflexivity].
Defined.

Lemma delete_all_without_uploader_witness :
  let w := quiet "a ![x](k1.png) b ![y](https://notes.tos-cn-beijing.volces.com/img/2.png) c" origin in
  let w' := click_delete_all example_platform None (fun e => e) w in
  value (editor w') = "a  b  c" /\ notices w' = [DeletedCount 2] /\ calls w' = [].
Proof.
  intros w w'.
  assert (Hne : Re.matchAll re_image_g (value (editor w)) <> []) by (vm_compute; discriminate).
  destruct (delete_all_without_uploader example_platform (fun e => e) w Hne)
    as (_ & Hv & Hn & Hc).
  split; [|split].
  - etransitivity; [exact Hv | reflexivity].
  - etransitivity; [exact Hn | reflexivity].
  - etransitivity; [exact Hc | reflexivity].
Defined.

Lemma delete_all_nothing_to_do_witness :
  let w := quiet "no image here, only [a link](x)" origin in
  let w' := click_delete_all example_platform (Some (example_uploader rejecting_client))
              (fun e => e) w in
  value (editor w') = "no image here, only [a link](x)"
  /\ notices w' = [NoImageFound] /\ calls w' = [].
Proof.
  intros w w'.
  destruct (delete_all_nothing_to_do example_platform
              (Some (example_uploader rejecting_client)) (fun e => e) w eq_refl)
    as (Hw & _).
  split; [|split].
  - etransitivity; [exact (f_equal (fun x => value (editor x)) Hw) | reflexivity].
  - etransitivity; [exact (f_equal notices Hw) | reflexivity].
  - etransitivity; [exact (f_equal calls Hw) | reflexivity].
Defined.

Lemma delete_one_outcome_witness :
  let u := example_uploader rejecting_client in
  let w := quiet "see ![a](img/k.png) here" origin in
  exists d, menu_delete_one (Some u) (editor w) = Some d
    /\ let w' := click_delete_one example_platform (Some u) d (fun e => e) w in
       value (editor w') = "see ![a](img/k.png) here"
       /\ notices w' = [DeleteFailed quota_exceeded]
       /\ calls w' = [DeleteObject "notes" "img/k.png"].
Proof.
  intros u w.
  destruct (menu_delete_one (Some u) (editor w)) as [d|] eqn:Hmenu; [|discriminate].
  exists d. split; [reflexivity|].
  destruct (delete_one_outcome example_platform (Some u) (editor w) d u (fun e => e) w Hmenu)
    as (url & Hg & Hc & Hr).
  vm_compute in Hmenu. injection Hmenu as <-.
  vm_compute in Hg. injection Hg as <-.
  cbv zeta. split; [|split].
  - destruct Hr as [He _]. etransitivity; [exact (f_equal value He) | reflexivity].
  - destruct Hr as [_ Hn]. etransitivity; [exact Hn | reflexivity].
  - etransitivity; [exact Hc | reflexivity].
Defined.

(** C3, as the claim states it, fails: with a client that rejects the delete
    the line keeps the reference. *)
Lemma delete_one_failure_keeps_line :
  let u := example_uploader rejecting_client in
  let w := quiet "see ![a](img/k.png) here" origin in
  match menu_delete_one (Some u) (editor w) with
  | Some d =>
      let w' := click_delete_one example_platform (Some u) d (fun e => e) w in
      respond (client u) 0 (DeleteObject "notes" "img/k.png") = Some quota_exceeded
      /\ Js.replace (Re.text (m d)) "" (line_then d) = "see  here"
      /\ getLine 0 (editor w') = "see ![a](img/k.png) here"
      /\ getLine 0 (editor w') <> Js.replace (Re.text (m d)) "" (line_then d)
  | None => False
  end.
Proof.
  vm_compute. repeat split. discriminate.
Qed.

(** ** Percent-encoding round-trips every well-formed string *)

Section PercentRoundTrip.

Lemma unescape_unreserved (c : ascii) (t : string) :
  Uri.unreserved c = true ->
  Uri.unescape (String c t) = option_map (cons (Uri.Raw c)) (Uri.unescape t).
Proof.
  intro H. cbn [Uri.unescape].
  assert (E : Ascii.eqb c "%" = false)
    by (revert H; destruct c as [[|] [|] [|] [|] [|] [|] [|] [|]]; vm_compute; congruence).
  now rewrite E.
Qed.

Lemma hex_round_trip (c : ascii) :
  let n := nat_of_ascii c in
  Uri.hex_value (Uri.hex_digit (n / 16)) = Some (n / 16)
  /\ Uri.hex_value (Uri.hex_digit (n mod 16)) = Some (n mod 16)
  /\ ascii_of_nat (16 * (n / 16) + n mod 16) = c.
Proof.
  destruct c as [[|] [|] [|] [|] [|] [|] [|] [|]]; vm_compute; repeat split.
Qed.

Lemma unescape_escape (c : ascii) (t : string) :
  Uri.unescape (Uri.escape c ++ t) = option_map (cons (Uri.Escaped c)) (Uri.unescape t).
Proof.
  destruct (hex_round_trip c) as (Hh & Hl & Hc). cbv zeta in Hh, Hl, Hc.
  unfold Uri.escape. cbn [append Uri.unescape].
  change (Ascii.eqb "%" "%") with true. cbv iota.
  rewrite Hh, Hl, Hc. now destruct (Uri.unescape t).
Qed.

Lemma unescape_encode (s : string) :
  Uri.unescape (Uri.encodeURIComponent s) = Some (pieces s).
Proof.
  induction s as [|c s IH]; [reflexivity|]. cbn [Uri.encodeURIComponent pieces].
  destruct (Uri.unreserved c) eqn:E.
  - cbn [append]. now rewrite (unescape_unreserved c _ E), IH.
  - now rewrite unescape_escape, IH.
Qed.

Lemma width_one_or_reserved (c : ascii) :
  Uri.unreserved c = true -> Uri.width c = 1.
Proof. destruct c as [[|] [|] [|] [|] [|] [|] [|] [|]]; vm_compute; congruence. Qed.

Lemma continuation_reserved (c : ascii) :
  Uri.continuation c = true -> Uri.unreserved c = false.
Proof. destruct c as [[|] [|] [|] [|] [|] [|] [|] [|]]; vm_compute; congruence. Qed.

Lemma between_weaken (lo lo' hi hi' : nat) (c : ascii) :
  lo' <= lo -> hi <= hi' -> Uri.between lo hi c = true -> Uri.between lo' hi' c = true.
Proof.
  unfold Uri.between. intros Hl Hh H. apply andb_prop in H as [H1 H2].
  apply Nat.leb_le in H1, H2. apply andb_true_intro.
  split; apply Nat.leb_le; lia.
Qed.

Lemma second_ok_continuation (lead b : ascii) :
  Uri.second_ok lead b = true -> Uri.continuation b = true.
Proof.
  unfold Uri.second_ok, Uri.continuation. cbv zeta.
  repeat match goal with
         | |- context [if ?t then _ else _] => destruct t
         end;
    try (intro H; exact H); apply between_weaken; lia.
Qed.

Lemma assemble_pieces (s : string) :
  well_formed_utf8 s = true -> Uri.assemble (pieces s) = Some s.
Proof.
  remember (String.length s) as n eqn:Hn. revert s Hn.
  induction n as [n IH] using lt_wf_ind. intros s Hn H.
  destruct s as [|b s1]; [reflexivity|].
  cbn [well_formed_utf8 pieces] in *.
  destruct (Uri.width b) as [|[|[|[|[|k]]]]] eqn:W; try discriminate.
  - destruct (Uri.unreserved b); cbn [Uri.assemble]; rewrite ?W;
      rewrite (IH (String.length s1)) by (subst n; simpl; auto; lia); reflexivity.
  - assert (Ub : Uri.unreserved b = false).
    { destruct (Uri.unreserved b) eqn:E; [|reflexivity].
      apply width_one_or_reserved in E. congruence. }
    destruct s1 as [|b1 s2]; [discriminate|].
    apply andb_prop in H as [H1 H].
    rewrite Ub. cbn [pieces].
    rewrite (continuation_reserved b1 (second_ok_continuation b b1 H1)).
    cbn [Uri.assemble]. rewrite W, H1.
    rewrite (IH (String.length s2)) by (subst n; simpl; auto; lia). reflexivity.
  - assert (Ub : Uri.unreserved b = false).
    { destruct (Uri.unreserved b) eqn:E; [|reflexivity].
      apply width_one_or_reserved in E. congruence. }
    destruct s1 as [|b1 [|b2 s3]]; try discriminate.
    apply andb_prop in H as [H12 H]. apply andb_prop in H12 as [H1 H2].
    rewrite Ub. cbn [pieces].
    rewrite (continuation_reserved b1 (second_ok_continuation b b1 H1)).
    rewrite (continuation_reserved b2 H2).
    cbn [Uri.assemble]. rewrite W, H1, H2. cbn [andb].
    rewrite (IH (String.length s3)) by (subst n; simpl; auto; lia). reflexivity.
  - assert (Ub : Uri.unreserved b = false).
    { destruct (Uri.unreserved b) eqn:E; [|reflexivity].
      apply width_one_or_reserved in E. congruence. }
    destruct s1 as [|b1 [|b2 [|b3 s4]]]; try discriminate.
    apply andb_prop in H as [H123 H]. apply andb_prop in H123 as [H12 H3].
    apply andb_prop in H12 as [H1 H2].
    rewrite Ub. cbn [pieces].
    rewrite (continuation_reserved b1 (second_ok_continuation b b1 H1)).
    rewrite (continuation_reserved b2 H2), (continuation_reserved b3 H3).
    cbn [Uri.assemble]. rewrite W, H1, H2, H3. cbn [andb].
    rewrite (IH (String.length s4)) by (subst n; simpl; auto; lia). reflexivity.
Qed.

(** [decodeURIComponent(encodeURIComponent(s))] is [s] for every string. *)
Lemma decode_encode (s : string) :
  well_formed_utf8 s = true ->
  Uri.decodeURIComponent (Uri.encodeURIComponent s) = Some s.
Proof.
  intro H. unfold Uri.decodeURIComponent. rewrite unescape_encode.
  now apply assemble_pieces.
Qed.

End PercentRoundTrip.

(** ** The storage key *)

Section StorageKey.

Lemma strip_leading_length (s : string) :
  String.length (strip_leading_slashes s) <= String.length s.
Proof.
  induction s as [|c s IH]; simpl; [lia|]. destruct (Ascii.eqb c "/"); simpl; lia.
Qed.

Lemma drop_strip_leading (s : string) :
  Js.drop (String.length s - String.length (strip_leading_slashes s)) s
  = strip_leading_slashes s.
Proof.
  induction s as [|c s IH]; [reflexivity|]. cbn [strip_leading_slashes].
  destruct (Ascii.eqb c "/").
  - pose proof (strip_leading_length s).
    replace (String.length (String c s) - String.length (strip_leading_slashes s))
      with (S (String.length s - String.length (strip_leading_slashes s)))
      by (cbn [String.length]; lia).
    exact IH.
  - now rewrite Nat.sub_diag.
Qed.

Lemma strip_trailing_all_slashes (s : string) :
  all_slashes s = true <-> strip_trailing_slashes s = "".
Proof.
  induction s as [|c s IH]; [easy|]. cbn [all_slashes strip_trailing_slashes].
  destruct (strip_trailing_slashes s) eqn:E.
  - destruct (Ascii.eqb c "/"); simpl; [tauto|]. split; discriminate.
  - split; [|discriminate]. intro H. apply andb_prop in H as [_ H].
    apply IH in H. discriminate.
Qed.

Lemma strip_trailing_cons (c : ascii) (s : string) :
  all_slashes (String c s) = false ->
  strip_trailing_slashes (String c s) = String c (strip_trailing_slashes s).
Proof.
  cbn [all_slashes strip_trailing_slashes]. intro H.
  destruct (strip_trailing_slashes s) eqn:E; [|reflexivity].
  apply strip_trailing_all_slashes in E. rewrite E, andb_true_r in H. now rewrite H.
Qed.

Lemma uncovered_skip (re : Re.RegExp) (skip : nat) :
  forall i s, skip <= String.length s ->
    uncovered re i skip s = uncovered re (i + skip) 0 (Js.drop skip s).
Proof.
  induction skip as [|k IH]; intros i s H.
  - now rewrite Nat.add_0_r.
  - destruct s as [|c s]; [simpl in H; lia|].
    cbn [uncovered Js.drop]. replace (S k - 1) with k by lia.
    rewrite IH by (simpl in H; lia). f_equal. lia.
Qed.

Lemma uncovered_nil (re : Re.RegExp) (i skip : nat) : uncovered re i skip "" = "".
Proof. reflexivity. Qed.

(** What the trimming pattern matches at the start of the input, and what
    after it. *)
Lemma match_at_trim_start (s : string) :
  option_map (fun mt => String.length (Re.text mt)) (Re.match_at re_trim_slashes 0 s)
  = match s with
    | String d s' =>
        if Ascii.eqb d "/"
        then Some (S (String.length s' - String.length (strip_leading_slashes s')))
        else None
    | "" => None
    end.
Proof.
  unfold Re.match_at, re_trim_slashes. cbn [Re.source Re.ignoreCase].
  rewrite m_Alt, m_Seq, m_Bol. cbn [Re.pos Nat.eqb].
  rewrite m_plus_slash_Some, m_plus_slash_Eol.
  destruct s as [|d s]; [reflexivity|].
  destruct (Ascii.eqb d "/"); [|reflexivity].
  cbn [option_map Re.text Re.pos]. rewrite length_take.
  pose proof (strip_leading_length s). f_equal. simpl. lia.
Qed.

Lemma match_at_trim_later (i : nat) (s : string) :
  option_map (fun mt => String.length (Re.text mt)) (Re.match_at re_trim_slashes (S i) s)
  = match s with
    | String d s' => if all_slashes s then Some (String.length s) else None
    | "" => None
    end.
Proof.
  unfold Re.match_at, re_trim_slashes. cbn [Re.source Re.ignoreCase].
  rewrite m_Alt, m_Seq, m_Bol. cbn [Re.pos Nat.eqb].
  rewrite m_plus_slash_Eol.
  destruct s as [|d s]; [reflexivity|]. cbn [all_slashes].
  destruct (Ascii.eqb d "/" && all_slashes s); [|reflexivity].
  cbn [option_map Re.text Re.pos]. rewrite length_take. f_equal.
  cbn [String.length]. lia.
Qed.

Lemma uncovered_trim_later (s : string) :
  forall i, uncovered re_trim_slashes (S i) 0 s = strip_trailing_slashes s.
Proof.
  induction s as [|c s IH]; intro i; [reflexivity|].
  pose proof (match_at_trim_later i (String c s)) as Hm.
  cbn [uncovered].
  destruct (Re.match_at re_trim_slashes (S i) (String c s)) as [mt|];
    cbn [option_map] in Hm; destruct (all_slashes (String c s)) eqn:Ea; try discriminate.
  - injection Hm as ->. cbn [String.length].
    replace (S (String.length s) - 1) with (String.length s) by lia.
    rewrite uncovered_skip by lia. rewrite drop_all by lia.
    symmetry. now apply strip_trailing_all_slashes.
  - rewrite IH. symmetry. now apply strip_trailing_cons.
Qed.

(** The pattern of [normPrefix] strips the leading and the trailing
    slashes. *)
Lemma replace_trim_slashes (s : string) :
  Re.replace re_trim_slashes "" s = strip_trailing_slashes (strip_leading_slashes s).
Proof.
  rewrite replace_global_uncovered by reflexivity.
  destruct s as [|c s]; [reflexivity|].
  pose proof (match_at_trim_start (String c s)) as Hm.
  cbn [uncovered strip_leading_slashes].
  destruct (Re.match_at re_trim_slashes 0 (String c s)) as [mt|];
    cbn [option_map] in Hm; destruct (Ascii.eqb c "/") eqn:Ec; try discriminate.
  - injection Hm as ->.
    replace (S (String.length s - String.length (strip_leading_slashes s)) - 1)
      with (String.length s - String.length (strip_leading_slashes s)) by lia.
    pose proof (strip_leading_length s).
    rewrite uncovered_skip by lia. cbn [Nat.add].
    rewrite uncovered_trim_later. now rewrite drop_strip_leading.
  - rewrite uncovered_trim_later. symmetry. apply strip_trailing_cons.
    cbn [all_slashes]. now rewrite Ec.
Qed.

Lemma normPrefix_normalized (s : TosPicbedPluginSettings) :
  normPrefix s = normalized_prefix (prefix s).
Proof.
  unfold normPrefix, normalized_prefix. rewrite replace_trim_slashes.
  now destruct (strip_trailing_slashes _).
Qed.

(** [split] and [pop] against the text after the last dot. *)
Lemma split_dot_last (s : string) :
  match after_last_dot s with
  | Some e => exists front, Js.split "." s = (front ++ [e])%list /\ front <> []
  | None => Js.split "." s = [s]
  end.
Proof.
  induction s as [|c s IH]; [reflexivity|].
  cbn [after_last_dot Js.split].
  destruct (after_last_dot s) as [e|].
  - destruct IH as (front & Hs & Hf). rewrite Hs.
    destruct (Ascii.eqb c ".").
    + exists ("" :: front). split; [reflexivity | discriminate].
    + destruct front as [|f front]; [congruence|].
      exists (String c f :: front). split; [reflexivity | discriminate].
  - rewrite IH. destruct (Ascii.eqb c ".").
    + exists [""]. split; [reflexivity | discriminate].
    + reflexivity.
Qed.

Lemma includes_dot (s : string) :
  Js.includes "." s = match after_last_dot s with Some _ => true | None => false end.
Proof.
  unfold Js.includes. induction s as [|c s IH]; [reflexivity|].
  cbn [Js.indexOf Js.startsWith after_last_dot]. rewrite (Ascii.eqb_sym "." c).
  destruct (Ascii.eqb c "."); cbn [andb].
  - now destruct (after_last_dot s).
  - destruct (Js.indexOf "." s), (after_last_dot s); cbn [option_map]; congruence.
Qed.

Lemma objectName_extension (file : File) (clock : Z) :
  objectName file clock
  = match extension (name file) with
    | Some ext => Js.decimal clock ++ "." ++ ext
    | None => Js.decimal clock
    end.
Proof.
  unfold objectName, extension. rewrite includes_dot.
  pose proof (split_dot_last (name file)) as H.
  destruct (after_last_dot (name file)) as [e|]; [|reflexivity].
  destruct H as (front & -> & _). unfold Js.pop. rewrite List.last_last.
  now destruct e.
Qed.

(** C8.  The storage key of an upload is the normalized prefix, the clock
    reading in decimal and, when the file name has an extension, a dot and
    the extension; it is the key of the object that is put and the key that
    a successful upload returns. *)
Theorem uploadFile_storage_key (u : TosUploader) (file : File) (clock : Z) (w : World) :
  let key := normalized_prefix (prefix (settings u)) ++ Js.decimal clock
             ++ match extension (name file) with Some ext => "." ++ ext | None => "" end in
  storageKey (settings u) file clock = key
  /\ (exists contentType,
        calls (snd (uploadFile u file clock w))
        = (calls w ++ [PutObject (bucket (settings u)) key contentType])%list)
  /\ (forall url k, fst (uploadFile u file clock w) = Ok (url, k) -> k = key)
  /\ (normalized_prefix (prefix (settings u)) = ""
      \/ exists q, normalized_prefix (prefix (settings u)) = q ++ "/"
                   /\ q = strip_trailing_slashes (strip_leading_slashes (prefix (settings u)))
                   /\ q <> "").
Proof.
  intro key.
  assert (Hk : storageKey (settings u) file clock = key).
  { unfold storageKey, key. rewrite normPrefix_normalized, objectName_extension.
    destruct (extension (name file)); [reflexivity | now rewrite append_nil_r]. }
  split; [exact Hk|]. split; [|split].
  - exists (if Js.truthy (type file) then Some (type file) else None).
    rewrite uploadFile_world, Hk. reflexivity.
  - intros url k H. unfold uploadFile, request in H. cbn [fst] in H.
    destruct (respond _ _ _); cbn [fst] in H; [discriminate|].
    destruct (getUrl _ _); cbn [fst] in H; [|discriminate].
    injection H as _ <-. exact Hk.
  - unfold normalized_prefix.
    destruct (strip_trailing_slashes _) as [|c q] eqn:E; [now left|].
    right. exists (String c q). repeat split; auto. discriminate.
Qed.

End StorageKey.

(** ** Public URL and key *)

Section PublicUrl.

Ltac char_cases c :=
  destruct c as [[|] [|] [|] [|] [|] [|] [|] [|]]; vm_compute; intros;
  try discriminate; repeat split; try reflexivity.

Lemma all_app (p : ascii -> bool) (a b : string) : all p (a ++ b) = all p a && all p b.
Proof.
  induction a as [|c a IH]; simpl; [reflexivity|]. now rewrite IH, andb_assoc.
Qed.

Lemma all_impl (p q : ascii -> bool) (s : string) :
  (forall c, p c = true -> q c = true) -> all p s = true -> all q s = true.
Proof.
  intro H. induction s as [|c s IH]; simpl; [reflexivity|].
  intro Hs. apply andb_prop in Hs as [Hc Hs]. now rewrite (H c Hc), IH.
Qed.

Lemma enc_char_plain (c : ascii) :
  enc_char c = true ->
  Url.c0_or_space c = false /\ Url.is_slash c = false /\ Uri.mem c "?#" = false
  /\ Url.in_path_set c = false /\ Ascii.eqb c "/" = false.
Proof. char_cases c. Qed.

Lemma host_char_plain (c : ascii) :
  host_char c = true ->
  Url.c0_or_space c = false /\ Url.is_slash c = false /\ Uri.mem c "/\?#" = false
  /\ Ascii.eqb "@" c = false /\ Ascii.eqb "[" c = false /\ Uri.mem c ":" = false.
Proof. char_cases c. Qed.

Lemma escape_enc (c : ascii) : all enc_char (Uri.escape c) = true.
Proof. char_cases c. Qed.

Lemma unreserved_enc (c : ascii) : Uri.unreserved c = true -> enc_char c = true.
Proof. unfold enc_char. now intros ->. Qed.

Lemma encode_enc (s : string) : all enc_char (Uri.encodeURIComponent s) = true.
Proof.
  induction s as [|c s IH]; [reflexivity|]. cbn [Uri.encodeURIComponent].
  rewrite all_app, IH, andb_true_r.
  destruct (Uri.unreserved c) eqn:E; [|apply escape_enc].
  simpl. now rewrite (unreserved_enc c E).
Qed.

Lemma includes_slash_false (s : string) :
  all (fun c => negb (Ascii.eqb c "/")) s = true -> Js.includes "/" s = false.
Proof.
  unfold Js.includes. induction s as [|c s IH]; [reflexivity|].
  cbn [all Js.indexOf Js.startsWith]. intro H. apply andb_prop in H as [Hc Hs].
  apply negb_true_iff in Hc. rewrite Ascii.eqb_sym in Hc. rewrite Hc. cbn [andb].
  specialize (IH Hs). now destruct (Js.indexOf "/" s).
Qed.

(** Every well-formed string is a safe segment. *)
Lemma well_formed_percent_safe (seg : string) :
  well_formed_utf8 seg = true -> percent_safe seg.
Proof.
  intro H. split; [now apply decode_encode|].
  apply includes_slash_false. eapply all_impl; [|apply encode_enc].
  intros c Hc. now destruct (enc_char_plain c Hc) as (_ & _ & _ & _ & ->).
Qed.

(** *** The preprocessing of the parser leaves such a URL alone *)

Lemma trim_end_id (s : string) : all no_space s = true -> Url.trim_end s = s.
Proof.
  induction s as [|c s IH]; [reflexivity|]. cbn [all Url.trim_end].
  intro H. apply andb_prop in H as [Hc Hs]. rewrite (IH Hs).
  destruct s; [|reflexivity]. unfold no_space in Hc.
  now destruct (Url.c0_or_space c).
Qed.

Lemma tab_is_space (c : ascii) : Url.tab_or_newline c = true -> Url.c0_or_space c = true.
Proof. char_cases c. Qed.

Lemma remove_tab_newline_id (s : string) :
  all no_space s = true -> Url.remove_tab_newline s = s.
Proof.
  induction s as [|c s IH]; [reflexivity|]. cbn [all Url.remove_tab_newline].
  intro H. apply andb_prop in H as [Hc Hs]. rewrite (IH Hs).
  destruct (Url.tab_or_newline c) eqn:E; [|reflexivity].
  apply tab_is_space in E. unfold no_space in Hc. now rewrite E in Hc.
Qed.

Lemma break_at (stops a : string) (c : ascii) (b : string) :
  all (fun d => negb (Uri.mem d stops)) a = true -> Uri.mem c stops = true ->
  Url.break stops (a ++ String c b) = (a, String c b).
Proof.
  intros Ha Hc. induction a as [|d a IH]; cbn [append Url.break].
  - now rewrite Hc.
  - cbn [all] in Ha. apply andb_prop in Ha as [Hd Ha].
    apply negb_true_iff in Hd. now rewrite Hd, (IH Ha).
Qed.

Lemma break_none (stops a : string) :
  all (fun d => negb (Uri.mem d stops)) a = true -> Url.break stops a = (a, "").
Proof.
  intros Ha. induction a as [|d a IH]; cbn [Url.break]; [reflexivity|].
  cbn [all] in Ha. apply andb_prop in Ha as [Hd Ha].
  apply negb_true_iff in Hd. now rewrite Hd, (IH Ha).
Qed.

Lemma after_credentials_none (s : string) :
  all (fun d => negb (Ascii.eqb "@" d)) s = true -> Url.after_credentials s = s.
Proof.
  induction s as [|c s IH]; [reflexivity|]. cbn [all Url.after_credentials].
  intro H. apply andb_prop in H as [Hc Hs].
  assert (Hm : Uri.mem "@" s = false).
  { clear IH Hc. induction s as [|d s IHs]; [reflexivity|]. cbn [all Uri.mem] in *.
    apply andb_prop in Hs as [Hd Hs]. apply negb_true_iff in Hd. now rewrite Hd, IHs. }
  rewrite Hm. apply negb_true_iff in Hc. rewrite Ascii.eqb_sym in Hc. now rewrite Hc.
Qed.

(** [new URL(...).pathname] for an https URL with a plain host and a path
    of encoded segments. *)
Lemma pathname_https (pf : Platform) (host path : string) :
  host <> "" -> all host_char host = true ->
  all (fun c => enc_char c || Ascii.eqb c "/") path = true ->
  Url.pathname pf ("https://" ++ host ++ "/" ++ path)
  = if host_ok pf host
    then Some ("/" ++ Js.join "/" (Url.path_state [] (Url.segments path)))
    else None.
Proof.
  intros Hne Hh Hp. unfold Url.pathname.
  assert (Hns : all no_space ("https://" ++ host ++ "/" ++ path) = true).
  { rewrite !all_app. apply andb_true_intro. split; [reflexivity|].
    apply andb_true_intro. split.
    - eapply all_impl; [|exact Hh]. intros c Hc. unfold no_space.
      now destruct (host_char_plain c Hc) as (-> & _).
    - apply andb_true_intro. split; [reflexivity|].
      eapply all_impl; [|exact Hp]. intros c Hc. unfold no_space.
      apply orb_prop in Hc as [Hc|Hc].
      + now destruct (enc_char_plain c Hc) as (-> & _).
      + apply Ascii.eqb_eq in Hc. now subst c. }
  change (Url.trim_start ("https://" ++ host ++ "/" ++ path))
    with ("https://" ++ host ++ "/" ++ path).
  rewrite (trim_end_id _ Hns), (remove_tab_newline_id _ Hns).
  change (Url.scheme ("https://" ++ host ++ "/" ++ path))
    with (Some ("https", "//" ++ host ++ "/" ++ path)).
  cbv beta iota. change (Url.http_family "https") with true. cbv iota.
  destruct host as [|h0 host']; [congruence|].
  pose proof Hh as Hh0. cbn [all] in Hh0. apply andb_prop in Hh0 as [Hh0 _].
  destruct (host_char_plain h0 Hh0) as (_ & Hsl & _ & _ & Hbr & _).
  assert (Hskip : Url.skip_slashes ("//" ++ String h0 host' ++ "/" ++ path)
                  = String h0 host' ++ "/" ++ path).
  { cbn [append Url.skip_slashes]. change (Url.is_slash "/") with true. cbv iota.
    now rewrite Hsl. }
  rewrite Hskip. change ("/" ++ path) with (String "/" path).
  rewrite (break_at "/\?#" (String h0 host') "/" path);
    [|eapply all_impl; [|exact Hh]; intros c Hc;
      destruct (host_char_plain c Hc) as (_ & _ & -> & _); reflexivity
     |reflexivity].
  rewrite after_credentials_none
    by (eapply all_impl; [|exact Hh]; intros c Hc;
        destruct (host_char_plain c Hc) as (_ & _ & _ & -> & _); reflexivity).
  unfold Url.host_port. cbn [Js.startsWith]. rewrite Hbr. cbn [andb].
  rewrite break_none
    by (eapply all_impl; [|exact Hh]; intros c Hc;
        destruct (host_char_plain c Hc) as (_ & _ & _ & _ & _ & ->); reflexivity).
  cbn [Url.port_value Js.truthy andb].
  destruct (host_ok pf (String h0 host')); [|reflexivity].
  f_equal. unfold Url.path_of.
  rewrite (break_none "?#" (String "/" path)).
  - cbv beta iota. change (Url.is_slash "/") with true. reflexivity.
  - cbn [all]. apply andb_true_intro. split; [reflexivity|].
    eapply all_impl; [|exact Hp]. intros c Hc.
    apply orb_prop in Hc as [Hc|Hc].
    + now destruct (enc_char_plain c Hc) as (_ & _ & -> & _).
    + apply Ascii.eqb_eq in Hc. now subst c.
Qed.

(** *** Segments *)

Lemma segments_single (a : string) : all no_slash a = true -> Url.segments a = [a].
Proof.
  induction a as [|c a IH]; [reflexivity|]. cbn [all Url.segments].
  intro H. apply andb_prop in H as [Hc Ha]. unfold no_slash in Hc.
  apply negb_true_iff in Hc. now rewrite Hc, (IH Ha).
Qed.

Lemma segments_app_slash (a b : string) :
  all no_slash a = true -> Url.segments (a ++ String "/" b) = a :: Url.segments b.
Proof.
  induction a as [|c a IH]; [reflexivity|]. cbn [all append Url.segments].
  intro H. apply andb_prop in H as [Hc Ha]. unfold no_slash in Hc.
  apply negb_true_iff in Hc. now rewrite Hc, (IH Ha).
Qed.

Lemma join_cons (p q : string) (ps : list string) :
  Js.join "/" (p :: q :: ps) = p ++ String "/" (Js.join "/" (q :: ps)).
Proof. reflexivity. Qed.

Lemma segments_join (l : list string) :
  l <> [] -> List.Forall (fun seg => all no_slash seg = true) l ->
  Url.segments (Js.join "/" l) = l.
Proof.
  intros Hne H. induction H as [|p l Hp Hl IH]; [congruence|].
  destruct l as [|q l].
  - now apply segments_single.
  - rewrite join_cons, segments_app_slash by assumption.
    now rewrite IH.
Qed.

Lemma split_nonempty (sep : ascii) (s : string) : Js.split sep s <> [].
Proof.
  destruct s as [|c s]; cbn [Js.split]; [discriminate|].
  destruct (Ascii.eqb c sep); [discriminate|]. now destruct (Js.split sep s).
Qed.

Lemma join_split (s : string) : Js.join "/" (Js.split "/" s) = s.
Proof.
  induction s as [|c s IH]; [reflexivity|]. cbn [Js.split].
  pose proof (split_nonempty "/" s) as Hne.
  destruct (Ascii.eqb c "/") eqn:Ec.
  - apply Ascii.eqb_eq in Ec. subst c.
    destruct (Js.split "/" s) as [|q l]; [congruence|].
    rewrite join_cons, IH. reflexivity.
  - destruct (Js.split "/" s) as [|q l]; [congruence|].
    destruct l as [|r l].
    + cbn [Js.join] in *. now rewrite IH.
    + rewrite join_cons. rewrite join_cons in IH. cbn [append]. now rewrite IH.
Qed.

Lemma encode_path_segment_id (s : string) :
  all enc_char s = true -> Url.encode_path_segment s = s.
Proof.
  induction s as [|c s IH]; [reflexivity|]. cbn [all Url.encode_path_segment].
  intro H. apply andb_prop in H as [Hc Hs].
  destruct (enc_char_plain c Hc) as (_ & _ & _ & -> & _). now rewrite (IH Hs).
Qed.

Lemma path_state_plain (l : list string) :
  forall acc,
    List.Forall (fun seg => Url.encode_path_segment seg = seg
                            /\ Url.single_dot seg = false /\ Url.double_dot seg = false) l ->
    Url.path_state acc l = (List.rev acc ++ l)%list.
Proof.
  induction l as [|seg l IH]; intros acc H; cbn [Url.path_state].
  - now rewrite List.app_nil_r.
  - inversion H as [|? ? (He & Hs & Hd) Hl]; subst.
    rewrite He, Hd, Hs, (IH _ Hl). cbn [List.rev]. now rewrite <- List.app_assoc.
Qed.

(** *** An encoded segment is a dot segment only if the segment is one *)

Lemma encoded_head (c : ascii) (t : string) : exists x y, encoded c ++ t = String x y.
Proof.
  unfold encoded. destruct (Uri.unreserved c); cbn [Uri.escape append]; eauto.
Qed.

Lemma encoded_not_dot (c : ascii) (t : string) :
  c <> "."%char ->
  Url.single_dot (encoded c ++ t) = false /\ Url.double_dot (encoded c ++ t) = false.
Proof.
  destruct c as [[|] [|] [|] [|] [|] [|] [|] [|]]; intro H; vm_compute;
    try (split; reflexivity); exfalso; apply H; reflexivity.
Qed.

Lemma dot_encoded_not_dot (c : ascii) (t : string) :
  c <> "."%char ->
  Url.single_dot (String "." (encoded c ++ t)) = false
  /\ Url.double_dot (String "." (encoded c ++ t)) = false.
Proof.
  destruct c as [[|] [|] [|] [|] [|] [|] [|] [|]]; intro H; vm_compute;
    try (split; reflexivity); exfalso; apply H; reflexivity.
Qed.

Lemma encode_not_dot (seg : string) :
  dot_segment seg = false ->
  Url.single_dot (Uri.encodeURIComponent seg) = false
  /\ Url.double_dot (Uri.encodeURIComponent seg) = false.
Proof.
  intro H. destruct seg as [|c1 rest]; [split; reflexivity|].
  cbn [Uri.encodeURIComponent]. fold (encoded c1).
  destruct (ascii_dec c1 ".") as [->|N1]; [|now apply encoded_not_dot].
  destruct rest as [|c2 rest]; [discriminate|].
  cbn [Uri.encodeURIComponent]. fold (encoded c2).
  change (encoded "." ++ encoded c2 ++ Uri.encodeURIComponent rest)
    with (String "." (encoded c2 ++ Uri.encodeURIComponent rest)).
  destruct (ascii_dec c2 ".") as [->|N2]; [|now apply dot_encoded_not_dot].
  destruct rest as [|c3 rest]; [discriminate|].
  cbn [Uri.encodeURIComponent]. fold (encoded c3).
  destruct (encoded_head c3 (Uri.encodeURIComponent rest)) as (x & y & ->).
  split; reflexivity.
Qed.

(** *** Decoding, piece by piece *)

Lemma unescape_app (a b : string) :
  forall ua, Uri.unescape a = Some ua ->
    Uri.unescape (a ++ b) = option_map (List.app ua) (Uri.unescape b).
Proof.
  remember (String.length a) as n eqn:Hn. revert a Hn.
  induction n as [n IH] using lt_wf_ind. intros a Hn ua H.
  destruct a as [|c a].
  - injection H as <-. cbn [append]. now destruct (Uri.unescape b).
  - cbn [Uri.unescape append] in *. destruct (Ascii.eqb c "%").
    + destruct a as [|h [|l a]]; try discriminate. cbn [append].
      destruct (Uri.hex_value h); [|discriminate].
      destruct (Uri.hex_value l); [|discriminate].
      destruct (Uri.unescape a) as [us|] eqn:Ea; [|discriminate].
      injection H as <-.
      rewrite (IH (String.length a)) with (ua := us) by (subst n; simpl; auto; lia).
      now destruct (Uri.unescape b).
    + destruct (Uri.unescape a) as [us|] eqn:Ea; [|discriminate].
      injection H as <-.
      rewrite (IH (String.length a)) with (ua := us) by (subst n; simpl; auto; lia).
      now destruct (Uri.unescape b).
Qed.

Lemma assemble_app (us vs : list Uri.piece) :
  forall x, Uri.assemble us = Some x ->
    Uri.assemble (us ++ vs)%list = option_map (append x) (Uri.assemble vs).
Proof.
  remember (List.length us) as n eqn:Hn. revert us Hn.
  induction n as [n IH] using lt_wf_ind. intros us Hn x H.
  destruct us as [|[c|b] us].
  - injection H as <-. cbn [List.app]. now destruct (Uri.assemble vs).
  - cbn [Uri.assemble List.app] in *.
    destruct (Uri.assemble us) as [t|] eqn:E; [|discriminate]. injection H as <-.
    rewrite (IH (List.length us)) with (x := t) by (subst n; simpl; auto; lia).
    now destruct (Uri.assemble vs).
  - cbn [Uri.assemble List.app] in *.
    destruct (Uri.width b) as [|[|[|[|[|k]]]]]; try discriminate.
    + destruct (Uri.assemble us) as [t|] eqn:E; [|discriminate]. injection H as <-.
      rewrite (IH (List.length us)) with (x := t) by (subst n; simpl; auto; lia).
      now destruct (Uri.assemble vs).
    + destruct us as [|[c1|b1] us]; try discriminate. cbn [List.app].
      destruct (Uri.second_ok b b1); [|discriminate].
      destruct (Uri.assemble us) as [t|] eqn:E; [|discriminate]. injection H as <-.
      rewrite (IH (List.length us)) with (x := t) by (subst n; simpl; auto; lia).
      now destruct (Uri.assemble vs).
    + destruct us as [|[c1|b1] [|[c2|b2] us]]; try discriminate. cbn [List.app].
      destruct (Uri.second_ok b b1 && Uri.continuation b2); [|discriminate].
      destruct (Uri.assemble us) as [t|] eqn:E; [|discriminate]. injection H as <-.
      rewrite (IH (List.length us)) with (x := t) by (subst n; simpl; auto; lia).
      now destruct (Uri.assemble vs).
    + destruct us as [|[c1|b1] [|[c2|b2] [|[c3|b3] us]]]; try discriminate. cbn [List.app].
      destruct (Uri.second_ok b b1 && Uri.continuation b2 && Uri.continuation b3);
        [|discriminate].
      destruct (Uri.assemble us) as [t|] eqn:E; [|discriminate]. injection H as <-.
      rewrite (IH (List.length us)) with (x := t) by (subst n; simpl; auto; lia).
      now destruct (Uri.assemble vs).
Qed.

Lemma decode_app_slash (a b x y : string) :
  Uri.decodeURIComponent a = Some x -> Uri.decodeURIComponent b = Some y ->
  Uri.decodeURIComponent (a ++ String "/" b) = Some (x ++ String "/" y).
Proof.
  unfold Uri.decodeURIComponent. intros Ha Hb.
  destruct (Uri.unescape a) as [ua|] eqn:Ea; [|discriminate].
  destruct (Uri.unescape b) as [ub|] eqn:Eb; [|discriminate].
  rewrite (unescape_app a (String "/" b) ua Ea).
  cbn [Uri.unescape]. change (Ascii.eqb "/" "%") with false. cbv iota.
  rewrite Eb. cbn [option_map].
  rewrite (assemble_app ua (Uri.Raw "/" :: ub) x Ha).
  cbn [Uri.assemble]. now rewrite Hb.
Qed.

Lemma decode_join (segs : list string) :
  segs <> [] -> List.Forall percent_safe segs ->
  Uri.decodeURIComponent (Js.join "/" (List.map Uri.encodeURIComponent segs))
  = Some (Js.join "/" segs).
Proof.
  intros Hne H. induction H as [|p l [Hp _] Hl IH]; [congruence|].
  destruct l as [|q l]; [exact Hp|].
  cbn [List.map]. rewrite !join_cons.
  apply decode_app_slash; [exact Hp|]. apply IH. discriminate.
Qed.

(** *** Leading slashes *)

Lemma match_at_leading_start (s : string) :
  Re.match_at re_leading_slashes 0 s
  = match s with
    | String d s' =>
        if Ascii.eqb d "/"
        then Some {| Re.index := 0;
                     Re.text := Js.take (S (String.length s'
                                            - String.length (strip_leading_slashes s'))) s;
                     Re.group1 := None |}
        else None
    | "" => None
    end.
Proof.
  unfold Re.match_at, re_leading_slashes. cbn [Re.source Re.ignoreCase].
  rewrite m_Seq, m_Bol. cbn [Re.pos Nat.eqb]. rewrite m_plus_slash_Some.
  destruct s as [|d s]; [reflexivity|]. destruct (Ascii.eqb d "/"); [|reflexivity].
  cbn [Re.pos Re.cap]. now rewrite Nat.sub_0_r.
Qed.

Lemma search_leading_later (s : string) :
  forall i, Re.search re_leading_slashes (S i) s = None.
Proof.
  assert (H : forall i t, Re.match_at re_leading_slashes (S i) t = None).
  { intros i t. unfold Re.match_at, re_leading_slashes. cbn [Re.source Re.ignoreCase].
    now rewrite m_Seq, m_Bol. }
  induction s as [|c s IH]; intro i; cbn [Re.search]; now rewrite H.
Qed.

(** The pattern of [parseKeyFromUrlOrKey] strips the leading slashes. *)
Lemma replace_leading_slashes (s : string) :
  Re.replace re_leading_slashes "" s = strip_leading_slashes s.
Proof.
  unfold Re.replace, Re.exec. cbn [Re.global re_leading_slashes].
  destruct s as [|d s]; [reflexivity|].
  cbn [Re.search]. rewrite match_at_leading_start.
  cbn [strip_leading_slashes]. destruct (Ascii.eqb d "/").
  - cbn [Re.substitute Re.index Re.text Nat.leb]. unfold Js.slice.
    cbn [Nat.sub Js.take Js.drop append Nat.add].
    pose proof (strip_leading_length s).
    cbn [String.length Js.drop]. rewrite length_take.
    replace (Nat.min _ _) with (String.length s - String.length (strip_leading_slashes s))
      by lia.
    apply drop_strip_leading.
  - rewrite search_leading_later. reflexivity.
Qed.

Lemma strip_leading_id (s : string) :
  Js.startsWith "/" s = false -> strip_leading_slashes s = s.
Proof.
  destruct s as [|c s]; [reflexivity|]. cbn [Js.startsWith strip_leading_slashes].
  rewrite andb_true_r, Ascii.eqb_sym. now intros ->.
Qed.

Lemma encoded_no_slash (c : ascii) (t : string) :
  Ascii.eqb c "/" = false -> Js.startsWith "/" (encoded c ++ t) = false.
Proof.
  destruct c as [[|] [|] [|] [|] [|] [|] [|] [|]]; vm_compute; intros; try reflexivity;
    discriminate.
Qed.

Lemma safeKey_no_leading_slash (key : string) :
  Js.startsWith "/" key = false ->
  Js.startsWith "/" (Js.join "/" (List.map Uri.encodeURIComponent (Js.split "/" key))) = false.
Proof.
  destruct key as [|c key]; [reflexivity|]. cbn [Js.startsWith]. rewrite andb_true_r.
  rewrite Ascii.eqb_sym. intro Hc. cbn [Js.split]. rewrite Hc.
  pose proof (split_nonempty "/" key) as Hne.
  destruct (Js.split "/" key) as [|seg segs]; [congruence|].
  cbn [List.map]. destruct segs as [|q segs].
  - cbn [List.map Js.join Uri.encodeURIComponent]. now apply encoded_no_slash.
  - cbn [List.map]. rewrite join_cons. cbn [Uri.encodeURIComponent].
    rewrite append_assoc. now apply encoded_no_slash.
Qed.

Lemma Forall_map_enc (segs : list string) (P : string -> Prop) :
  (forall seg, List.In seg segs -> P (Uri.encodeURIComponent seg)) ->
  List.Forall P (List.map Uri.encodeURIComponent segs).
Proof.
  intro H. apply List.Forall_forall. intros x Hx.
  apply List.in_map_iff in Hx as (seg & <- & Hin). auto.
Qed.

(** C1, as the code has it.  In public mode, for a bucket and a region that
    make a plain host name which the URL parser accepts, and for a key of
    safe segments that does not begin with a slash and has no segment [.] or
    [..], parsing the public URL of the key yields the key. *)
Theorem public_url_round_trip (pf : Platform) (u : TosUploader) (key : string) :
  usePublicUrl (settings u) = true ->
  all host_char (public_host (settings u)) = true ->
  host_ok pf (public_host (settings u)) = true ->
  List.Forall percent_safe (Js.split "/" key) ->
  Js.startsWith "/" key = false ->
  List.Forall (fun seg => dot_segment seg = false) (Js.split "/" key) ->
  exists url,
    getUrl u key = Ok url
    /\ url = "https://" ++ bucket (settings u) ++ ".tos-" ++ region (settings u)
             ++ ".volces.com/"
             ++ Js.join "/" (List.map Uri.encodeURIComponent (Js.split "/" key))
    /\ parseKeyFromUrlOrKey pf url = key.
Proof.
  intros Hpub Hhost Hok Hsafe Hlead Hdot.
  exists (publicUrl (settings u) key). unfold getUrl. rewrite Hpub.
  split; [reflexivity|]. split; [reflexivity|].
  set (segs := Js.split "/" key) in *.
  set (safeKey := Js.join "/" (List.map Uri.encodeURIComponent segs)).
  assert (Hurl : publicUrl (settings u) key
                 = "https://" ++ public_host (settings u) ++ "/" ++ safeKey).
  { unfold publicUrl, public_host. fold segs. fold safeKey.
    rewrite !append_assoc. reflexivity. }
  assert (Hne : segs <> []) by apply split_nonempty.
  assert (Hne' : List.map Uri.encodeURIComponent segs <> [])
    by (destruct segs; [congruence | discriminate]).
  assert (Hhne : public_host (settings u) <> "").
  { unfold public_host. destruct (bucket (settings u)); discriminate. }
  assert (Hnoslash : List.Forall (fun seg => all no_slash seg = true)
                       (List.map Uri.encodeURIComponent segs)).
  { apply Forall_map_enc. intros seg _. eapply all_impl; [|apply encode_enc].
    intros c Hc. unfold no_slash. now destruct (enc_char_plain c Hc) as (_ & -> & _). }
  assert (Hpath : all (fun c => enc_char c || Ascii.eqb c "/") safeKey = true).
  { unfold safeKey. clear - segs. induction segs as [|p l IH]; [reflexivity|].
    destruct l as [|q l].
    - cbn [List.map Js.join]. eapply all_impl; [|apply encode_enc].
      intros c ->. reflexivity.
    - cbn [List.map]. rewrite join_cons, all_app. apply andb_true_intro. split.
      + eapply all_impl; [|apply encode_enc]. intros c ->. reflexivity.
      + cbn [all]. exact IH. }
  unfold parseKeyFromUrlOrKey.
  rewrite Hurl, (pathname_https pf _ _ Hhne Hhost Hpath), Hok.
  unfold safeKey at 1. rewrite (segments_join _ Hne' Hnoslash).
  rewrite path_state_plain.
  2:{ apply Forall_map_enc. intros seg Hin.
      rewrite List.Forall_forall in Hdot. specialize (Hdot seg Hin).
      destruct (encode_not_dot seg Hdot) as [Hs Hd].
      split; [|split]; auto. apply encode_path_segment_id, encode_enc. }
  cbn [List.rev List.app]. fold safeKey.
  rewrite replace_leading_slashes.
  change ("/" ++ safeKey) with (String "/" safeKey). cbn [strip_leading_slashes].
  change (Ascii.eqb "/" "/") with true. cbv iota.
  rewrite (strip_leading_id safeKey) by now apply safeKey_no_leading_slash.
  unfold safeKey. rewrite (decode_join segs Hne Hsafe).
  apply join_split.
Qed.

End PublicUrl.

Lemma public_url_round_trip_witness :
  let u := example_uploader rejecting_client in
  let key := "图片/a b.png" in
  getUrl u key = Ok "https://notes.tos-cn-beijing.volces.com/%E5%9B%BE%E7%89%87/a%20b.png"
  /\ parseKeyFromUrlOrKey example_platform
       "https://notes.tos-cn-beijing.volces.com/%E5%9B%BE%E7%89%87/a%20b.png" = key.
Proof.
  intros u key.
  assert (Hsafe : List.Forall percent_safe (Js.split "/" key))
    by (repeat constructor; reflexivity).
  assert (Hdot : List.Forall (fun seg => dot_segment seg = false) (Js.split "/" key))
    by (repeat constructor; reflexivity).
  destruct (public_url_round_trip example_platform u key eq_refl eq_refl eq_refl
              Hsafe eq_refl Hdot) as (url & Hu & Hurl & Hk).
  assert (url = "https://notes.tos-cn-beijing.volces.com/%E5%9B%BE%E7%89%87/a%20b.png")
    as -> by (rewrite Hurl; reflexivity).
  split; [exact Hu | exact Hk].
Defined.

(** C1, as the claim states it, fails: the segments of [./a] and of [/a] are
    safe, and parsing the public URL of either key yields [a]. *)
Lemma public_url_round_trip_fails :
  let u := example_uploader rejecting_client in
  (List.Forall percent_safe (Js.split "/" "./a")
   /\ getUrl u "./a" = Ok "https://notes.tos-cn-beijing.volces.com/./a"
   /\ parseKeyFromUrlOrKey example_platform "https://notes.tos-cn-beijing.volces.com/./a" = "a"
   /\ parseKeyFromUrlOrKey example_platform "https://notes.tos-cn-beijing.volces.com/./a"
      <> "./a")
  /\ (List.Forall percent_safe (Js.split "/" "/a")
      /\ getUrl u "/a" = Ok "https://notes.tos-cn-beijing.volces.com//a"
      /\ parseKeyFromUrlOrKey example_platform "https://notes.tos-cn-beijing.volces.com//a"
         = "a").
Proof.
  intro u. split.
  - split; [repeat constructor; reflexivity|].
    split; [reflexivity|]. split; [reflexivity|]. vm_compute. discriminate.
  - split; [repeat constructor; reflexivity|]. split; reflexivity.
Qed.

(** ** The image pattern, match by match *)
Section LazyAny.

Lemma m_Any (ic : bool) (k : Re.state -> option Re.state) (x : Re.state) :
  Re.m ic Re.Any k x
  = match Re.rest x with
    | String _ _ => if Re.line_terminator_at (Re.rest x) then None else k (Re.advance x)
    | "" => None
    end.
Proof. reflexivity. Qed.

Lemma m_Group (ic : bool) (r : Re.regex) (k : Re.state -> option Re.state) (x : Re.state) :
  Re.m ic (Re.Group r) k x
  = Re.m ic r
      (fun y => k {| Re.pos := Re.pos y; Re.rest := Re.rest y;
                     Re.cap := Some (Js.take (Re.pos y - Re.pos x) (Re.rest x)) |}) x.
Proof. reflexivity. Qed.

Lemma iterate_lazy_any (ic : bool) (k : Re.state -> option Re.state) (fuel : nat) :
  forall p s c, String.length s <= fuel ->
  Re.iterate ic false Re.Any k fuel (Re.St p s c) = lazy_any k p s c.
Proof.
  induction fuel as [|fuel IH]; intros p s c Hl.
  - destruct s; [|simpl in Hl; lia]. rewrite iterate_0. cbn [lazy_any].
    now destruct (k _).
  - rewrite iterate_S. cbv zeta. destruct s as [|d s].
    + cbn [lazy_any]. destruct (k _); reflexivity.
    + cbn [lazy_any]. destruct (k (Re.St p (String d s) c)); [reflexivity|].
      rewrite m_Any. cbn [Re.rest Re.advance Re.pos Re.cap].
      destruct (Re.line_terminator_at (String d s)); [reflexivity|].
      assert (E : (p <? S p)%nat = true) by (apply Nat.ltb_lt; lia).
      rewrite E. apply IH. simpl in Hl. lia.
Qed.

Lemma m_lazy_any (ic : bool) (k : Re.state -> option Re.state) (p : nat) (s : string)
  (c : option string) :
  Re.m ic (Re.Star false Re.Any) k (Re.St p s c) = lazy_any k p s c.
Proof. rewrite m_Star. now apply iterate_lazy_any. Qed.

Lemma lazy_any_sound (k : Re.state -> option Re.state) (s : string) :
  forall p c z, lazy_any k p s c = Some z ->
  exists a t, s = a ++ t /\ k (Re.St (p + String.length a) t c) = Some z
              /\ clear_run a t = true.
Proof.
  induction s as [|d s IH]; intros p c z H; cbn [lazy_any] in H.
  - exists "", "". rewrite Nat.add_0_r. destruct (k _); [|discriminate].
    repeat split; assumption.
  - destruct (k (Re.St p (String d s) c)) eqn:E.
    + exists "", (String d s). rewrite Nat.add_0_r. injection H as <-.
      repeat split; assumption.
    + destruct (Re.line_terminator_at (String d s)) eqn:El; [discriminate|].
      apply IH in H as (a & t & -> & Hk & Hc).
      exists (String d a), t. cbn [String.length append clear_run].
      replace (p + S (String.length a)) with (S p + String.length a) by lia.
      change (String d (a ++ t)) with (String d a ++ t) in El.
      cbn [append] in El. rewrite El. repeat split; assumption.
Qed.

Lemma lazy_any_first (k : Re.state -> option Re.state) (a t : string) :
  forall p c,
  (forall j, j < String.length a ->
             k (Re.St (p + j) (Js.drop j (a ++ t)) c) = None) ->
  clear_run a t = true ->
  lazy_any k p (a ++ t) c
  = match k (Re.St (p + String.length a) t c) with
    | Some z => Some z
    | None => lazy_any k (p + String.length a) t c
    end.
Proof.
  induction a as [|d a IH]; intros p c Hk Hc.
  - cbn [append String.length]. rewrite Nat.add_0_r.
    destruct (k (Re.St p t c)) eqn:E; [|reflexivity].
    destruct t; cbn [lazy_any]; now rewrite E.
  - cbn [append lazy_any]. specialize (Hk 0 ltac:(simpl; lia)) as Hk0.
    rewrite Nat.add_0_r in Hk0. cbn [Js.drop append] in Hk0. rewrite Hk0.
    cbn [clear_run append] in Hc. apply andb_prop in Hc as [Hl Hc].
    apply negb_true_iff in Hl. rewrite Hl.
    rewrite IH; [|intros j Hj|exact Hc].
    + cbn [String.length]. now replace (S p + String.length a) with (p + S (String.length a)) by lia.
    + specialize (Hk (S j) ltac:(simpl; lia)). cbn [Js.drop append] in Hk.
      now replace (S p + j) with (p + S j) by lia.
Qed.

Lemma lazy_any_complete (k : Re.state -> option Re.state) (a t : string) :
  forall p c z, clear_run a t = true ->
  k (Re.St (p + String.length a) t c) = Some z ->
  exists z', lazy_any k p (a ++ t) c = Some z'.
Proof.
  induction a as [|d a IH]; intros p c z Hc Hk.
  - cbn [append String.length] in *. rewrite Nat.add_0_r in Hk.
    exists z. destruct t; cbn [lazy_any]; now rewrite Hk.
  - cbn [append lazy_any]. destruct (k (Re.St p (String d (a ++ t)) c)); [eauto|].
    cbn [clear_run append] in Hc. apply andb_prop in Hc as [Hl Hc].
    apply negb_true_iff in Hl. rewrite Hl.
    apply (IH (S p) c z Hc). cbn [String.length] in Hk.
    now replace (S p + String.length a) with (p + S (String.length a)) by lia.
Qed.

End LazyAny.

Section ImagePattern.

Lemma lazy_any_ext (k k' : Re.state -> option Re.state) (s : string) :
  (forall x, k x = k' x) -> forall p c, lazy_any k p s c = lazy_any k' p s c.
Proof.
  intro H. induction s as [|d s IH]; intros p c; cbn [lazy_any]; rewrite H.
  - reflexivity.
  - now rewrite IH.
Qed.

Lemma m_url_part (x : Re.state) :
  Re.m false (Re.Lit "](")
    (Re.m false (Re.Group (Re.Star false Re.Any)) (Re.m false (Re.Chr ")") Some)) x
  = url_part x.
Proof.
  destruct x as [p s c]. unfold url_part. cbn [Re.rest Re.pos Re.cap].
  change (Re.Lit "](") with (Re.Seq (Re.Chr "]") (Re.Chr "(")).
  rewrite m_Seq, m_Chr. cbn [Re.rest].
  destruct s as [|c1 s]; [reflexivity|]. unfold Re.char_eq. cbn [Js.startsWith].
  destruct (Ascii.eqb "]" c1); [|reflexivity]. cbn [andb].
  rewrite m_Chr. cbn [Re.advance Re.rest Re.pos Re.cap].
  destruct s as [|c2 s]; [reflexivity|]. unfold Re.char_eq.
  destruct (Ascii.eqb "(" c2); [|reflexivity]. cbn [andb Js.drop].
  rewrite m_Group. unfold Re.advance. cbn [Re.rest Re.pos Re.cap].
  rewrite m_lazy_any. cbn [Re.pos Re.rest].
  replace (S (S p)) with (p + 2) by lia.
  apply lazy_any_ext. intros [q r c']. unfold closes. cbn [Re.pos Re.rest].
  rewrite m_Chr. cbn [Re.rest].
  destruct r as [|d r]; [reflexivity|]. unfold Re.char_eq, Re.advance.
  cbn [Re.rest Re.pos Re.cap]. destruct (Ascii.eqb ")" d); reflexivity.
Qed.

Lemma m_image_reference (i : nat) (s : string) :
  Re.m false image_reference Some (Re.St i s None)
  = if Js.startsWith "![" s then lazy_any url_part (i + 2) (Js.drop 2 s) None else None.
Proof.
  unfold image_reference. change (Re.Lit "![") with (Re.Seq (Re.Chr "!") (Re.Chr "[")).
  rewrite !m_Seq, m_Chr. cbn [Re.rest].
  destruct s as [|c1 s]; [reflexivity|]. unfold Re.char_eq. cbn [Js.startsWith].
  destruct (Ascii.eqb "!" c1); [|reflexivity]. cbn [andb].
  rewrite m_Chr. cbn [Re.advance Re.rest Re.pos Re.cap].
  destruct s as [|c2 s]; [reflexivity|]. unfold Re.char_eq.
  destruct (Ascii.eqb "[" c2); [|reflexivity]. cbn [andb Js.drop].
  unfold Re.advance. cbn [Re.rest Re.pos Re.cap].
  rewrite m_Seq, m_lazy_any. replace (S (S i)) with (i + 2) by lia.
  apply lazy_any_ext. intro x. rewrite !m_Seq. apply m_url_part.
Qed.

End ImagePattern.

Section ImageMatches.

Lemma eqb_high_ascii (x d : ascii) :
  128 <= nat_of_ascii x -> is_ascii d = true -> Ascii.eqb x d = false.
Proof.
  intros Hx Hd. apply Ascii.eqb_neq. intros ->.
  unfold is_ascii in Hd. apply Nat.ltb_lt in Hd. lia.
Qed.

Lemma line_terminator_context (c : ascii) (a : string) (d : ascii) (t : string) :
  is_ascii d = true ->
  Re.line_terminator_at (String c a ++ String d t) = Re.line_terminator_at (String c a).
Proof.
  intro Hd. unfold Re.line_terminator_at. cbn [append]. f_equal; [f_equal|].
  - unfold Re.LS. cbn [Js.startsWith]. f_equal.
    destruct a as [|c2 [|c3 a]]; cbn [append Js.startsWith].
    + rewrite (eqb_high_ascii _ d) by (vm_compute; auto; lia). reflexivity.
    + rewrite (eqb_high_ascii (ascii_of_nat 168) d) by (vm_compute; auto; lia).
      cbn [andb]. now rewrite !andb_false_r.
    + reflexivity.
  - unfold Re.PS. cbn [Js.startsWith]. f_equal.
    destruct a as [|c2 [|c3 a]]; cbn [append Js.startsWith].
    + rewrite (eqb_high_ascii _ d) by (vm_compute; auto; lia). reflexivity.
    + rewrite (eqb_high_ascii (ascii_of_nat 169) d) by (vm_compute; auto; lia).
      cbn [andb]. now rewrite !andb_false_r.
    + reflexivity.
Qed.

Lemma clear_run_context (a : string) (d : ascii) (t : string) :
  is_ascii d = true -> clear_run a (String d t) = one_line a.
Proof.
  intro Hd. unfold one_line. induction a as [|c a IH]; [reflexivity|].
  cbn [clear_run]. rewrite IH, (line_terminator_context c a d t Hd).
  now rewrite append_nil_r.
Qed.

Lemma plain_ascii_one_line (s : string) : all plain_ascii s = true -> one_line s = true.
Proof.
  unfold one_line. induction s as [|c s IH]; [reflexivity|].
  cbn [all clear_run]. intro H. apply andb_prop in H as [Hc Hs].
  rewrite (IH Hs), andb_true_r. apply negb_true_iff.
  unfold plain_ascii in Hc. apply andb_prop in Hc as [Hc Hcr].
  apply andb_prop in Hc as [Ha Hlf]. apply negb_true_iff in Hlf, Hcr.
  unfold Re.line_terminator_at. cbn [append]. rewrite Hlf, Hcr. cbn [orb].
  unfold Re.LS, Re.PS. cbn [Js.startsWith].
  rewrite !(eqb_high_ascii _ c) by (vm_compute; auto; lia). reflexivity.
Qed.

Lemma closes_inside (a t : string) :
  all (fun c => negb (Ascii.eqb ")" c)) a = true ->
  forall j q u p c, j < String.length a ->
  closes q u (Re.St p (Js.drop j (a ++ t)) c) = None.
Proof.
  intro Hp. induction a as [|d a IH]; intros j q u p c Hj; [simpl in Hj; lia|].
  cbn [all] in Hp. apply andb_prop in Hp as [Hd Hp]. apply negb_true_iff in Hd.
  destruct j as [|j]; cbn [Js.drop append].
  - unfold closes. cbn [Re.rest]. now rewrite Hd.
  - apply IH; [exact Hp | simpl in Hj; lia].
Qed.

Variable re : Re.RegExp.
Hypothesis re_source : Re.source re = image_reference.
Hypothesis re_case : Re.ignoreCase re = false.

Lemma match_at_image (i : nat) (s : string) :
  Re.match_at re i s
  = if Js.startsWith "![" s
    then match lazy_any url_part (i + 2) (Js.drop 2 s) None with
         | Some y => Some {| Re.index := i; Re.text := Js.take (Re.pos y - i) s;
                             Re.group1 := Re.cap y |}
         | None => None
         end
    else None.
Proof.
  unfold Re.match_at. rewrite re_source, re_case, m_image_reference.
  destruct (Js.startsWith "![" s); reflexivity.
Qed.

Lemma image_match_sound (i : nat) (s : string) (mt : Re.Match) :
  Re.match_at re i s = Some mt ->
  exists a b rest,
    s = "![" ++ a ++ "](" ++ b ++ ")" ++ rest
    /\ mt = {| Re.index := i; Re.text := "![" ++ a ++ "](" ++ b ++ ")";
               Re.group1 := Some b |}
    /\ clear_run a ("](" ++ b ++ ")" ++ rest) = true
    /\ clear_run b (")" ++ rest) = true.
Proof.
  rewrite match_at_image. destruct (Js.startsWith "![" s) eqn:E1; [|discriminate].
  apply startsWith_inv in E1. cbn [String.length] in E1.
  destruct (lazy_any url_part (i + 2) (Js.drop 2 s) None) as [y|] eqn:E2; [|discriminate].
  intros [= <-].
  apply lazy_any_sound in E2 as (a & t & Hs & Hk & Ha).
  unfold url_part in Hk. cbn [Re.rest Re.pos Re.cap] in Hk.
  destruct (Js.startsWith "](" t) eqn:E3; [|discriminate].
  apply startsWith_inv in E3. cbn [String.length] in E3.
  apply lazy_any_sound in Hk as (b & t' & Hu & Hc & Hb).
  unfold closes in Hc. cbn [Re.rest Re.pos] in Hc.
  destruct t' as [|d rest]; [discriminate|].
  destruct (Ascii.eqb ")" d) eqn:E4; [|discriminate].
  apply Ascii.eqb_eq in E4. subst d. injection Hc as <-.
  exists a, b, rest.
  assert (Hs' : s = "![" ++ a ++ "](" ++ b ++ ")" ++ rest).
  { rewrite E1, Hs, E3, Hu. reflexivity. }
  split; [exact Hs'|]. split; [|split].
  - cbn [Re.pos Re.cap]. f_equal.
    + rewrite Hs' at 1.
      replace (S (i + 2 + String.length a + 2 + String.length b) - i)
        with (String.length ("![" ++ a ++ "](" ++ b ++ ")"))
        by (rewrite !length_append; cbn [String.length]; lia).
      rewrite <- (take_app_exact ("![" ++ a ++ "](" ++ b ++ ")") rest) at 2.
      now rewrite !append_assoc.
    + f_equal. change (Js.take (i + 2 + String.length a + 2 + String.length b - (i + 2 + String.length a + 2)) (Js.drop 2 t) = b). rewrite Hu.
      replace (i + 2 + String.length a + 2 + String.length b
               - (i + 2 + String.length a + 2)) with (String.length b) by lia.
      apply take_app_exact.
  - rewrite E3, Hu in Ha. exact Ha.
  - exact Hb.
Qed.

Lemma image_match_complete (i : nat) (a b rest : string) :
  clear_run a ("](" ++ b ++ ")" ++ rest) = true ->
  clear_run b (")" ++ rest) = true ->
  Re.match_at re i ("![" ++ a ++ "](" ++ b ++ ")" ++ rest) <> None.
Proof.
  intros Ha Hb. rewrite match_at_image. cbn [append Js.startsWith Js.drop].
  change (Ascii.eqb "!" "!") with true. change (Ascii.eqb "[" "[") with true.
  cbn [andb].
  assert (Hc : exists z, closes (i + 2 + String.length a + 2) (b ++ ")" ++ rest)
                 (Re.St (i + 2 + String.length a + 2 + String.length b) (")" ++ rest) None)
               = Some z) by (eexists; reflexivity).
  destruct Hc as [z Hc].
  destruct (lazy_any_complete _ b (")" ++ rest) _ None z Hb Hc) as [z1 Hz1].
  assert (Hu : url_part (Re.St (i + 2 + String.length a) ("](" ++ b ++ ")" ++ rest) None)
               = Some z1) by exact Hz1.
  destruct (lazy_any_complete _ a _ _ None z1 Ha Hu) as [z2 Hz2].
  change (a ++ String "]" (String "(" (b ++ String ")" rest)))
    with (a ++ "](" ++ b ++ ")" ++ rest).
  rewrite Hz2. discriminate.
Qed.

(** The reference the plugin writes for a URL on one line and without a
    closing parenthesis is matched whole, and its group is the URL. *)
Lemma image_match_exact (i : nat) (url post : string) :
  all (fun c => negb (Ascii.eqb ")" c)) url = true -> one_line url = true ->
  Re.match_at re i ("![](" ++ url ++ ")" ++ post)
  = Some {| Re.index := i; Re.text := "![](" ++ url ++ ")"; Re.group1 := Some url |}.
Proof.
  intros Hp Hl. rewrite match_at_image. cbn [append Js.startsWith Js.drop].
  change (Ascii.eqb "!" "!") with true. change (Ascii.eqb "[" "[") with true.
  cbn [andb lazy_any]. unfold url_part at 1. cbn [Re.rest Re.pos Re.cap Js.startsWith Js.drop].
  change (Ascii.eqb "]" "]") with true. change (Ascii.eqb "(" "(") with true.
  cbn [andb].
  change (url ++ String ")" post) with (url ++ ")" ++ post).
  rewrite lazy_any_first.
  - unfold closes at 1. cbn [Re.rest Re.pos append].
    change (Ascii.eqb ")" ")") with true. cbv iota.
    f_equal. f_equal.
    + etransitivity; [|apply (take_app_exact ("![](" ++ url ++ ")") post)].
      f_equal.
      * rewrite !length_append. cbn [String.length Re.pos]. lia.
      * cbn [append]. now rewrite append_assoc.
    + cbn [Re.cap]. f_equal. replace (i + 2 + 2 + String.length url - (i + 2 + 2)) with (String.length url) by lia.
      apply (take_app_exact url (")" ++ post)).
  - intros j Hj. now apply closes_inside.
  - change (")" ++ post) with (String ")" post). now rewrite clear_run_context.
Qed.

End ImageMatches.

Section References.

Lemma search_first (re : Re.RegExp) (s : string) :
  forall i mt, Re.search re i s = Some mt ->
  exists j, j <= String.length s
            /\ Re.match_at re (i + j) (Js.drop j s) = Some mt
            /\ forall j', j' < j -> Re.match_at re (i + j') (Js.drop j' s) = None.
Proof.
  induction s as [|c s IH]; intros i mt H; cbn [Re.search] in H.
  - destruct (Re.match_at re i "") eqn:E; [|discriminate]. injection H as <-.
    exists 0. rewrite Nat.add_0_r. repeat split; auto. intros; lia.
  - destruct (Re.match_at re i (String c s)) eqn:E.
    + injection H as <-. exists 0. rewrite Nat.add_0_r. cbn [Js.drop].
      repeat split; auto; [lia | intros; lia].
    + apply IH in H as (j & Hj & Hm & Hn). exists (S j). cbn [String.length Js.drop].
      replace (i + S j) with (S i + j) by lia. repeat split; auto; [lia|].
      intros [|j'] Hlt; cbn [Js.drop].
      * now rewrite Nat.add_0_r.
      * replace (i + S j') with (S i + j') by lia. apply Hn. lia.
Qed.

Lemma indexOf_first (needle hay : string) :
  forall i, Js.startsWith needle (Js.drop i hay) = true -> i <= String.length hay ->
  (forall j, j < i -> Js.startsWith needle (Js.drop j hay) = false) ->
  Js.indexOf needle hay = Some i.
Proof.
  induction hay as [|c hay IH]; intros i Hs Hl Hn.
  - simpl in Hl. assert (i = 0) by lia. subst i. cbn [Js.drop] in Hs.
    cbn [Js.indexOf]. now rewrite Hs.
  - destruct i as [|i].
    + cbn [Js.drop] in Hs. now apply indexOf_here.
    + rewrite indexOf_later by (apply (Hn 0); lia).
      rewrite (IH i); [reflexivity| exact Hs | simpl in Hl; lia |].
      intros j Hj. apply (Hn (S j)). lia.
Qed.

(** The leftmost reference of a text is also the first place where its own
    text stands: removing the first occurrence of the matched text removes
    the matched span. *)
Lemma image_match_first_occurrence (re : Re.RegExp) (line : string) (mt : Re.Match) :
  Re.source re = image_reference -> Re.ignoreCase re = false ->
  Re.search re 0 line = Some mt ->
  Js.indexOf (Re.text mt) line = Some (Re.index mt)
  /\ (forall j, j < Re.index mt -> Re.match_at re j (Js.drop j line) = None).
Proof.
  intros Hsrc Hic H. apply search_first in H as (j & Hj & Hm & Hn).
  cbn [Nat.add] in Hm, Hn.
  destruct (image_match_sound re Hsrc Hic _ _ _ Hm) as (a & b & rest & Hs & -> & Ha & Hb).
  cbn [Re.text Re.index]. split; [|exact Hn].
  set (T := "![" ++ a ++ "](" ++ b ++ ")") in *.
  assert (HT : Js.drop j line = T ++ rest).
  { rewrite Hs. unfold T. cbn [append]. rewrite !append_assoc. cbn [append].
    now rewrite !append_assoc. }
  apply indexOf_first; [rewrite HT; apply startsWith_app | exact Hj |].
  intros j' Hlt. destruct (Js.startsWith T (Js.drop j' line)) eqn:E; [|reflexivity].
  exfalso. apply startsWith_inv in E.
  set (rest' := Js.drop (String.length T) (Js.drop j' line)) in E.
  apply (image_match_complete re Hsrc Hic j' a b rest').
  - change ("](" ++ b ++ ")" ++ rest') with (String "]" ("(" ++ b ++ ")" ++ rest')).
    change ("](" ++ b ++ ")" ++ rest) with (String "]" ("(" ++ b ++ ")" ++ rest)) in Ha.
    rewrite clear_run_context in * by reflexivity. exact Ha.
  - change (")" ++ rest') with (String ")" rest').
    change (")" ++ rest) with (String ")" rest) in Hb.
    rewrite clear_run_context in * by reflexivity. exact Hb.
  - rewrite <- (Hn j' Hlt), E. f_equal. unfold T. cbn [append].
    rewrite !append_assoc. cbn [append]. now rewrite !append_assoc.
Qed.

(** Both patterns begin with an exclamation mark. *)
Lemma char_eq_bang (ic : bool) (d : ascii) : Re.char_eq ic "!" d = true -> d = "!"%char.
Proof.
  destruct ic, d as [[|] [|] [|] [|] [|] [|] [|] [|]]; vm_compute; intro H;
    first [reflexivity | discriminate H].
Qed.

Lemma image_needs_bang (re : Re.RegExp) (i : nat) (s : string) (mt : Re.Match) :
  Re.source re = image_reference \/ re = imgRe ->
  Re.match_at re i s = Some mt -> exists t, s = String "!" t.
Proof.
  intros Hre H. unfold Re.match_at in H.
  assert (Hm : exists k, Re.m (Re.ignoreCase re) (Re.source re) Some (Re.St i s None)
                         = Re.m (Re.ignoreCase re) (Re.Chr "!") k (Re.St i s None)).
  { destruct Hre as [-> | ->].
    - eexists. unfold image_reference.
      change (Re.Lit "![") with (Re.Seq (Re.Chr "!") (Re.Chr "[")).
      rewrite !m_Seq. reflexivity.
    - eexists. unfold imgRe. cbn [Re.source Re.ignoreCase].
      change (Re.Lit "![[Pasted image")
        with (Re.Seq (Re.Chr "!") (Re.Lit "[[Pasted image")).
      rewrite !m_Seq. reflexivity. }
  destruct Hm as [k Hm]. rewrite Hm, m_Chr in H. cbn [Re.rest] in H.
  destruct s as [|d t]; [discriminate|].
  destruct (Re.char_eq _ "!" d) eqn:E; [|discriminate].
  apply char_eq_bang in E. subst d. eauto.
Qed.

Lemma no_match_inside (re : Re.RegExp) (pre s post : string) (i j : nat) :
  Re.source re = image_reference \/ re = imgRe ->
  all no_bang s = true -> j < String.length s ->
  Re.match_at re i (Js.drop (String.length pre + j) (pre ++ s ++ post)) = None.
Proof.
  intros Hre Hs Hj.
  destruct (Re.match_at re i _) as [mt|] eqn:E; [|reflexivity]. exfalso.
  apply (image_needs_bang re _ _ _ Hre) in E as [t Ht].
  rewrite <- drop_drop, drop_app_exact in Ht. clear - Hs Hj Ht.
  revert j Hj Ht. induction s as [|c s IH]; intros j Hj Ht; [simpl in Hj; lia|].
  cbn [all] in Hs. apply andb_prop in Hs as [Hc Hs].
  destruct j as [|j]; cbn [Js.drop append] in Ht.
  - injection Ht as -> _. discriminate.
  - apply (IH Hs j); [simpl in Hj; lia | exact Ht].
Qed.

Lemma search_none_no_bang (re : Re.RegExp) (s : string) :
  Re.source re = image_reference \/ re = imgRe ->
  all no_bang s = true -> forall i, Re.search re i s = None.
Proof.
  intros Hre. induction s as [|c s IH]; intros Hs i; cbn [Re.search].
  - destruct (Re.match_at re i "") eqn:E; [|reflexivity].
    apply (image_needs_bang re _ _ _ Hre) in E as [t Ht]. discriminate.
  - destruct (Re.match_at re i (String c s)) eqn:E.
    + apply (image_needs_bang re _ _ _ Hre) in E as [t Ht]. injection Ht as -> _.
      discriminate.
    + cbn [all] in Hs. apply andb_prop in Hs as [_ Hs]. now apply IH.
Qed.

Lemma scan_nil_no_bang (re : Re.RegExp) (s : string) :
  Re.source re = image_reference \/ re = imgRe ->
  all no_bang s = true -> forall i skip, Re.scan re i skip s = [].
Proof.
  intros Hre. induction s as [|c s IH]; intros Hs i skip; cbn [Re.scan].
  - destruct skip; [|reflexivity].
    destruct (Re.match_at re i "") eqn:E; [|reflexivity].
    apply (image_needs_bang re _ _ _ Hre) in E as [t Ht]. discriminate.
  - cbn [all] in Hs. apply andb_prop in Hs as [Hc Hs].
    destruct skip; [|now apply IH].
    destruct (Re.match_at re i (String c s)) eqn:E; [|now apply IH].
    apply (image_needs_bang re _ _ _ Hre) in E as [t Ht]. injection Ht as -> _.
    discriminate.
Qed.

Lemma all_digits_all (p : ascii -> bool) (d : string) :
  (forall c, is_digit c = true -> p c = true) -> all_digits d = true -> all p d = true.
Proof.
  intro H. induction d as [|c d IH]; [reflexivity|]. cbn [all_digits all].
  intro E. apply andb_prop in E as [Hc Hd]. now rewrite (H c Hc), IH.
Qed.

Lemma is_digit_no_bang (c : ascii) : is_digit c = true -> no_bang c = true.
Proof.
  intro H. unfold no_bang. apply negb_true_iff, Ascii.eqb_neq. intros <-. discriminate.
Qed.

Lemma base36_no_bang (c : ascii) : base36 c = true -> no_bang c = true.
Proof.
  intro H. unfold no_bang. apply negb_true_iff, Ascii.eqb_neq. intros <-. discriminate.
Qed.

Lemma token_no_bang (now : Z) (r36 : string) :
  all base36 (randomSuffix r36) = true -> all no_bang (placeholderToken now r36) = true.
Proof.
  intro Hr. unfold placeholderToken. rewrite !all_app.
  destruct (decimal_shape now) as (sign & d & -> & Hsign & Hd & _).
  rewrite all_app, (all_digits_all no_bang d is_digit_no_bang Hd).
  rewrite (all_impl base36 no_bang _ base36_no_bang Hr).
  destruct Hsign as [-> | ->]; reflexivity.
Qed.

End References.

(** ** Key resolution: bare keys, queries, distinct URLs *)

Section KeyResolution.

Lemma scheme_rest_no_colon (s : string) :
  all no_colon s = true -> Url.scheme_rest s = None.
Proof.
  induction s as [|c s IH]; [reflexivity|]. cbn [all Url.scheme_rest].
  intro H. apply andb_prop in H as [Hc Hs]. apply negb_true_iff in Hc.
  rewrite Hc, (IH Hs). now destruct (_ || _).
Qed.

Lemma trim_start_all (p : ascii -> bool) (s : string) :
  all p s = true -> all p (Url.trim_start s) = true.
Proof.
  induction s as [|c s IH]; [reflexivity|]. cbn [Url.trim_start].
  intro H. destruct (Url.c0_or_space c); [|exact H].
  cbn [all] in H. apply andb_prop in H as [_ Hs]. auto.
Qed.

Lemma trim_end_all (p : ascii -> bool) (s : string) :
  all p s = true -> all p (Url.trim_end s) = true.
Proof.
  induction s as [|c s IH]; [reflexivity|]. cbn [all Url.trim_end].
  intro H. apply andb_prop in H as [Hc Hs]. specialize (IH Hs).
  destruct (Url.trim_end s).
  - destruct (Url.c0_or_space c); [reflexivity|]. cbn [all]. now rewrite Hc.
  - cbn [all] in *. now rewrite Hc, IH.
Qed.

Lemma remove_tab_newline_all (p : ascii -> bool) (s : string) :
  all p s = true -> all p (Url.remove_tab_newline s) = true.
Proof.
  induction s as [|c s IH]; [reflexivity|]. cbn [all Url.remove_tab_newline].
  intro H. apply andb_prop in H as [Hc Hs]. specialize (IH Hs).
  destruct (Url.tab_or_newline c); [exact IH|]. cbn [all]. now rewrite Hc, IH.
Qed.

(** A text without colon has no scheme: the URL constructor throws. *)
Lemma pathname_no_colon (pf : Platform) (input : string) :
  all no_colon input = true -> Url.pathname pf input = None.
Proof.
  intro H. unfold Url.pathname.
  pose proof (remove_tab_newline_all _ _ (trim_end_all _ _ (trim_start_all _ _ H))) as H'.
  destruct (Url.remove_tab_newline _) as [|c s]; [reflexivity|].
  unfold Url.scheme. rewrite (scheme_rest_no_colon _ H'). now destruct (Uri.is_alpha c).
Qed.

Lemma strip_leading_all (p : ascii -> bool) (s : string) :
  all p s = true -> all p (strip_leading_slashes s) = true.
Proof.
  induction s as [|c s IH]; [reflexivity|]. cbn [strip_leading_slashes].
  intro H. destruct (Ascii.eqb c "/"); [|exact H].
  cbn [all] in H. apply andb_prop in H as [_ Hs]. auto.
Qed.

Lemma strip_leading_no_slash (s : string) :
  Js.startsWith "/" (strip_leading_slashes s) = false.
Proof.
  induction s as [|c s IH]; [reflexivity|]. cbn [strip_leading_slashes].
  destruct (Ascii.eqb c "/") eqn:E; [exact IH|].
  cbn [Js.startsWith]. rewrite Ascii.eqb_sym, E. reflexivity.
Qed.

Lemma strip_leading_idem (s : string) :
  strip_leading_slashes (strip_leading_slashes s) = strip_leading_slashes s.
Proof. apply strip_leading_id, strip_leading_no_slash. Qed.

(** *** The URL with a query or a fragment *)

Lemma trim_end_app (a b : string) :
  all no_space a = true -> Url.trim_end (a ++ b) = a ++ Url.trim_end b.
Proof.
  induction a as [|c a IH]; [reflexivity|]. cbn [all append Url.trim_end].
  intro H. apply andb_prop in H as [Hc Ha]. rewrite (IH Ha).
  unfold no_space in Hc. apply negb_true_iff in Hc. rewrite Hc.
  now destruct (a ++ Url.trim_end b).
Qed.

Lemma remove_tab_newline_app (a b : string) :
  all no_space a = true ->
  Url.remove_tab_newline (a ++ b) = a ++ Url.remove_tab_newline b.
Proof.
  induction a as [|c a IH]; [reflexivity|]. cbn [all append Url.remove_tab_newline].
  intro H. apply andb_prop in H as [Hc Ha]. rewrite (IH Ha).
  destruct (Url.tab_or_newline c) eqn:E; [|reflexivity].
  apply tab_is_space in E. unfold no_space in Hc. now rewrite E in Hc.
Qed.

Lemma mark_plain (c : ascii) :
  Uri.mem c "?#" = true ->
  Url.c0_or_space c = false /\ Url.tab_or_newline c = false /\ Uri.mem c "/\?#" = true.
Proof.
  cbn [Uri.mem]. intro H. apply orb_prop in H as [H|H].
  - apply Ascii.eqb_eq in H. subst c. repeat split.
  - rewrite orb_false_r in H. apply Ascii.eqb_eq in H. subst c. repeat split.
Qed.

Lemma pathname_https_tail (pf : Platform) (host path tail : string) :
  host <> "" -> all host_char host = true ->
  all (fun c => enc_char c || Ascii.eqb c "/") path = true ->
  query_or_fragment tail = true ->
  Url.pathname pf ("https://" ++ host ++ "/" ++ path ++ tail)
  = if host_ok pf host
    then Some ("/" ++ Js.join "/" (Url.path_state [] (Url.segments path)))
    else None.
Proof.
  intros Hne Hh Hp Ht. destruct tail as [|m t].
  { rewrite append_nil_r. now apply pathname_https. }
  cbn [query_or_fragment] in Ht. destruct (mark_plain m Ht) as (Hm1 & Hm2 & Hm3).
  unfold Url.pathname.
  assert (Hhs : all no_space host = true).
  { eapply all_impl; [|exact Hh]. intros c Hc. unfold no_space.
    now destruct (host_char_plain c Hc) as (-> & _). }
  assert (Hps : all no_space path = true).
  { eapply all_impl; [|exact Hp]. intros c Hc. unfold no_space.
    apply orb_prop in Hc as [Hc|Hc].
    - now destruct (enc_char_plain c Hc) as (-> & _).
    - apply Ascii.eqb_eq in Hc. now subst c. }
  change (Url.trim_start ("https://" ++ host ++ "/" ++ path ++ String m t))
    with ("https://" ++ host ++ "/" ++ path ++ String m t).
  assert (Hin : Url.remove_tab_newline
                  (Url.trim_end ("https://" ++ host ++ "/" ++ path ++ String m t))
                = "https://" ++ host ++ "/" ++ path
                  ++ String m (Url.remove_tab_newline (Url.trim_end t))).
  { rewrite (trim_end_app "https://") by reflexivity.
    rewrite (trim_end_app host) by exact Hhs.
    rewrite (trim_end_app "/") by reflexivity.
    rewrite (trim_end_app path) by exact Hps.
    assert (E : Url.trim_end (String m t) = String m (Url.trim_end t)).
    { cbn [Url.trim_end]. rewrite Hm1. now destruct (Url.trim_end t). }
    rewrite E.
    rewrite (remove_tab_newline_app "https://") by reflexivity.
    rewrite (remove_tab_newline_app host) by exact Hhs.
    rewrite (remove_tab_newline_app "/") by reflexivity.
    rewrite (remove_tab_newline_app path) by exact Hps.
    cbn [Url.remove_tab_newline]. now rewrite Hm2. }
  rewrite Hin. set (t' := Url.remove_tab_newline (Url.trim_end t)).
  change (Url.scheme ("https://" ++ host ++ "/" ++ path ++ String m t'))
    with (Some ("https", "//" ++ host ++ "/" ++ path ++ String m t')).
  cbv beta iota. change (Url.http_family "https") with true. cbv iota.
  destruct host as [|h0 host']; [congruence|].
  pose proof Hh as Hh0. cbn [all] in Hh0. apply andb_prop in Hh0 as [Hh0 _].
  destruct (host_char_plain h0 Hh0) as (_ & Hsl & _ & _ & Hbr & _).
  assert (Hskip : Url.skip_slashes ("//" ++ String h0 host' ++ "/" ++ path ++ String m t')
                  = String h0 host' ++ "/" ++ path ++ String m t').
  { cbn [append Url.skip_slashes]. change (Url.is_slash "/") with true. cbv iota.
    now rewrite Hsl. }
  rewrite Hskip. change ("/" ++ path ++ String m t') with (String "/" (path ++ String m t')).
  rewrite (break_at "/\?#" (String h0 host') "/" (path ++ String m t'));
    [|eapply all_impl; [|exact Hh]; intros c Hc;
      destruct (host_char_plain c Hc) as (_ & _ & -> & _); reflexivity
     |reflexivity].
  rewrite after_credentials_none
    by (eapply all_impl; [|exact Hh]; intros c Hc;
        destruct (host_char_plain c Hc) as (_ & _ & _ & -> & _); reflexivity).
  unfold Url.host_port. cbn [Js.startsWith]. rewrite Hbr. cbn [andb].
  rewrite break_none
    by (eapply all_impl; [|exact Hh]; intros c Hc;
        destruct (host_char_plain c Hc) as (_ & _ & _ & _ & _ & ->); reflexivity).
  cbn [Url.port_value Js.truthy andb].
  destruct (host_ok pf (String h0 host')); [|reflexivity].
  f_equal. unfold Url.path_of.
  change (String "/" (path ++ String m t')) with (String "/" path ++ String m t').
  rewrite (break_at "?#" (String "/" path) m t').
  - cbv beta iota. change (Url.is_slash "/") with true. reflexivity.
  - cbn [all]. apply andb_true_intro. split; [reflexivity|].
    eapply all_impl; [|exact Hp]. intros c Hc.
    apply orb_prop in Hc as [Hc|Hc].
    + now destruct (enc_char_plain c Hc) as (_ & _ & -> & _).
    + apply Ascii.eqb_eq in Hc. now subst c.
  - exact Ht.
Qed.

End KeyResolution.

Section SafeKey.

Lemma safe_key_cons (c : ascii) (key : string) :
  safe_key (String c key)
  = (if Ascii.eqb c "/" then "/" else encoded c) ++ safe_key key.
Proof.
  unfold safe_key. cbn [Js.split]. pose proof (split_nonempty "/" key) as Hne.
  destruct (Ascii.eqb c "/").
  - destruct (Js.split "/" key) as [|seg segs]; [congruence|].
    cbn [List.map]. now rewrite join_cons.
  - destruct (Js.split "/" key) as [|seg segs]; [congruence|].
    cbn [List.map Uri.encodeURIComponent]. fold (encoded c).
    destruct segs as [|q segs].
    + reflexivity.
    + cbn [List.map]. rewrite !join_cons. now rewrite append_assoc.
Qed.

Lemma publicUrl_safe_key (s : TosPicbedPluginSettings) (key : string) :
  publicUrl s key = "https://" ++ public_host s ++ "/" ++ safe_key key.
Proof. unfold publicUrl, public_host, safe_key. now rewrite !append_assoc. Qed.

Lemma safe_key_all (p q : ascii -> bool) (key : string) :
  q "/"%char = true -> (forall c, p c = true -> all q (encoded c) = true) ->
  all p key = true -> all q (safe_key key) = true.
Proof.
  intros Hs Hq. induction key as [|c key IH]; [reflexivity|].
  cbn [all]. intro H. apply andb_prop in H as [Hc Hk].
  rewrite safe_key_cons, all_app, (IH Hk), andb_true_r.
  destruct (Ascii.eqb c "/"); [cbn [all]; now rewrite Hs | auto].
Qed.

Lemma unescape_safe_key (key : string) :
  exists us, Uri.unescape (safe_key key) = Some us /\ pieces_text us = key.
Proof.
  induction key as [|c key (us & IH & Ht)]; [exists []; split; reflexivity|].
  rewrite safe_key_cons. destruct (Ascii.eqb c "/") eqn:E.
  - apply Ascii.eqb_eq in E. subst c. exists (Uri.Raw "/" :: us).
    cbn [append Uri.unescape]. change (Ascii.eqb "/" "%") with false. cbv iota.
    rewrite IH. cbn [option_map pieces_text piece_char]. now rewrite Ht.
  - unfold encoded. destruct (Uri.unreserved c) eqn:U.
    + exists (Uri.Raw c :: us). cbn [append]. rewrite (unescape_unreserved c _ U), IH.
      cbn [option_map pieces_text piece_char]. now rewrite Ht.
    + exists (Uri.Escaped c :: us). rewrite unescape_escape, IH.
      cbn [option_map pieces_text piece_char]. now rewrite Ht.
Qed.

Lemma safe_key_inj (k1 k2 : string) : safe_key k1 = safe_key k2 -> k1 = k2.
Proof.
  intro E. destruct (unescape_safe_key k1) as (u1 & H1 & <-).
  destruct (unescape_safe_key k2) as (u2 & H2 & <-).
  rewrite E in H1. congruence.
Qed.

Lemma encoded_plain (c : ascii) : all plain_ascii (encoded c) = true.
Proof. destruct c as [[|] [|] [|] [|] [|] [|] [|] [|]]; reflexivity. Qed.

Lemma encoded_no_paren (c : ascii) : no_paren c = true -> all no_paren (encoded c) = true.
Proof.
  destruct c as [[|] [|] [|] [|] [|] [|] [|] [|]]; vm_compute; intro H;
    first [reflexivity | discriminate H].
Qed.

Lemma host_char_plain_ascii (c : ascii) :
  host_char c = true -> plain_ascii c = true /\ no_paren c = true.
Proof.
  destruct c as [[|] [|] [|] [|] [|] [|] [|] [|]]; vm_compute; intro H;
    first [split; reflexivity | discriminate H].
Qed.

(** The public URL is plain ASCII on one line and, for a key without
    closing parenthesis, has none. *)
Lemma publicUrl_plain (s : TosPicbedPluginSettings) (key : string) :
  all host_char (public_host s) = true ->
  all plain_ascii (publicUrl s key) = true
  /\ (all no_paren key = true -> all no_paren (publicUrl s key) = true).
Proof.
  intro Hh. rewrite publicUrl_safe_key, !all_app. split.
  - rewrite (all_impl host_char plain_ascii _
               (fun c Hc => proj1 (host_char_plain_ascii c Hc)) Hh).
    rewrite (safe_key_all (fun _ => true) plain_ascii key eq_refl
               (fun c _ => encoded_plain c)); [reflexivity|].
    clear. induction key; [reflexivity | assumption].
  - intro Hk.
    rewrite (all_impl host_char no_paren _
               (fun c Hc => proj2 (host_char_plain_ascii c Hc)) Hh).
    now rewrite (safe_key_all no_paren no_paren key eq_refl encoded_no_paren Hk).
Qed.

(** Parsing an https URL whose path is a key as [getUrl] encodes it, a
    query or a fragment after it or not. *)
Lemma parse_https_key (pf : Platform) (host key tail : string) :
  host <> "" ->
  all host_char host = true ->
  host_ok pf host = true ->
  List.Forall percent_safe (Js.split "/" key) ->
  Js.startsWith "/" key = false ->
  List.Forall (fun seg => dot_segment seg = false) (Js.split "/" key) ->
  query_or_fragment tail = true ->
  parseKeyFromUrlOrKey pf ("https://" ++ host ++ "/" ++ safe_key key ++ tail) = key.
Proof.
  intros Hhne Hhost Hok Hsafe Hlead Hdot Htail.
  set (segs := Js.split "/" key) in *.
  assert (Hsk : safe_key key = Js.join "/" (List.map Uri.encodeURIComponent segs))
    by reflexivity.
  assert (Hne : segs <> []) by apply split_nonempty.
  assert (Hne' : List.map Uri.encodeURIComponent segs <> [])
    by (destruct segs; [congruence | discriminate]).
  assert (Hnoslash : List.Forall (fun seg => all no_slash seg = true)
                       (List.map Uri.encodeURIComponent segs)).
  { apply Forall_map_enc. intros seg _. eapply all_impl; [|apply encode_enc].
    intros c Hc. unfold no_slash. now destruct (enc_char_plain c Hc) as (_ & -> & _). }
  assert (Hpath : all (fun c => enc_char c || Ascii.eqb c "/") (safe_key key) = true).
  { apply (safe_key_all (fun _ => true)); [reflexivity| |].
    - intros c _. unfold encoded. destruct (Uri.unreserved c) eqn:U.
      + cbn [all]. now rewrite (unreserved_enc c U).
      + eapply all_impl; [|apply escape_enc]. intros d ->. reflexivity.
    - clear. induction key; [reflexivity | assumption]. }
  unfold parseKeyFromUrlOrKey.
  rewrite (pathname_https_tail pf _ _ _ Hhne Hhost Hpath Htail), Hok.
  rewrite Hsk at 1. rewrite (segments_join _ Hne' Hnoslash).
  rewrite path_state_plain.
  2:{ apply Forall_map_enc. intros seg Hin.
      rewrite List.Forall_forall in Hdot. specialize (Hdot seg Hin).
      destruct (encode_not_dot seg Hdot) as [Hs Hd].
      split; [|split]; auto. apply encode_path_segment_id, encode_enc. }
  cbn [List.rev List.app]. rewrite <- Hsk.
  rewrite replace_leading_slashes.
  change ("/" ++ safe_key key) with (String "/" (safe_key key)).
  cbn [strip_leading_slashes]. change (Ascii.eqb "/" "/") with true. cbv iota.
  rewrite (strip_leading_id (safe_key key)) by now apply safeKey_no_leading_slash.
  rewrite Hsk, (decode_join segs Hne Hsafe).
  apply join_split.
Qed.

Lemma parse_public_url (pf : Platform) (s : TosPicbedPluginSettings) (key tail : string) :
  all host_char (public_host s) = true ->
  host_ok pf (public_host s) = true ->
  List.Forall percent_safe (Js.split "/" key) ->
  Js.startsWith "/" key = false ->
  List.Forall (fun seg => dot_segment seg = false) (Js.split "/" key) ->
  query_or_fragment tail = true ->
  parseKeyFromUrlOrKey pf (publicUrl s key ++ tail) = key.
Proof.
  intros Hhost Hok Hsafe Hlead Hdot Htail.
  rewrite publicUrl_safe_key, !append_assoc.
  apply parse_https_key; auto.
  unfold public_host. destruct (bucket s); discriminate.
Qed.

End SafeKey.

(** X1.  A text without colon is no URL, so [parseKeyFromUrlOrKey] takes it
    as a bare key: it comes back with its leading slashes stripped and
    otherwise as it is, percent signs included; the result begins with no
    slash, and resolving it once more changes nothing. *)
Theorem bare_key_resolution (pf : Platform) (input : string) :
  all no_colon input = true ->
  parseKeyFromUrlOrKey pf input = strip_leading_slashes input
  /\ Js.startsWith "/" (parseKeyFromUrlOrKey pf input) = false
  /\ parseKeyFromUrlOrKey pf (parseKeyFromUrlOrKey pf input)
     = parseKeyFromUrlOrKey pf input.
Proof.
  intro H.
  assert (E : forall s, all no_colon s = true ->
                        parseKeyFromUrlOrKey pf s = strip_leading_slashes s).
  { intros s Hs. unfold parseKeyFromUrlOrKey.
    rewrite (pathname_no_colon pf s Hs). apply replace_leading_slashes. }
  rewrite (E input H). split; [reflexivity|]. split.
  - apply strip_leading_no_slash.
  - rewrite (E _ (strip_leading_all _ _ H)). apply strip_leading_idem.
Qed.

Lemma bare_key_resolution_witness :
  parseKeyFromUrlOrKey example_platform "//img/a%20b.png" = "img/a%20b.png"
  /\ parseKeyFromUrlOrKey example_platform "img/a%20b.png" = "img/a%20b.png".
Proof.
  destruct (bare_key_resolution example_platform "//img/a%20b.png" eq_refl)
    as (H1 & _ & H3).
  rewrite H1 in H3. split; [exact H1 | exact H3].
Defined.

(** X2.  Of an https URL only the path counts.  For every plain host name
    the URL parser accepts, whether or not it is the host of the bucket, and
    for every key of safe segments without leading slash and without dot
    segment, [parseKeyFromUrlOrKey] gives the key for the URL whose path is
    the key as [getUrl] encodes it, and gives it as well when a query or a
    fragment follows the path. *)
Theorem only_the_path_counts (pf : Platform) (host key tail : string) :
  host <> "" ->
  all host_char host = true ->
  host_ok pf host = true ->
  List.Forall percent_safe (Js.split "/" key) ->
  Js.startsWith "/" key = false ->
  List.Forall (fun seg => dot_segment seg = false) (Js.split "/" key) ->
  query_or_fragment tail = true ->
  parseKeyFromUrlOrKey pf ("https://" ++ host ++ "/" ++ safe_key key ++ tail) = key
  /\ parseKeyFromUrlOrKey pf ("https://" ++ host ++ "/" ++ safe_key key) = key.
Proof.
  intros Hne Hhost Hok Hsafe Hlead Hdot Htail. split.
  - now apply parse_https_key.
  - rewrite <- (append_nil_r (safe_key key)). now apply parse_https_key.
Qed.

Lemma only_the_path_counts_witness :
  parseKeyFromUrlOrKey example_platform
    "https://example.org/img/a%20b.png?X-Tos-Expires=3600#top"
  = "img/a b.png"
  /\ parseKeyFromUrlOrKey example_platform "https://example.org/img/a%20b.png"
     = "img/a b.png".
Proof.
  assert (Hsafe : List.Forall percent_safe (Js.split "/" "img/a b.png"))
    by (repeat constructor; reflexivity).
  assert (Hdot : List.Forall (fun seg => dot_segment seg = false) (Js.split "/" "img/a b.png"))
    by (repeat constructor; reflexivity).
  apply (only_the_path_counts example_platform "example.org" "img/a b.png"
           "?X-Tos-Expires=3600#top" ltac:(discriminate) eq_refl eq_refl
           Hsafe eq_refl Hdot eq_refl).
Defined.

(** X3.  In public mode two different keys never get the same URL. *)
Theorem public_url_distinct (u : TosUploader) (k1 k2 : string) :
  usePublicUrl (settings u) = true -> k1 <> k2 -> getUrl u k1 <> getUrl u k2.
Proof.
  intros Hpub Hk E. apply Hk. unfold getUrl in E. rewrite Hpub in E.
  assert (E' : publicUrl (settings u) k1 = publicUrl (settings u) k2) by congruence.
  rewrite !publicUrl_safe_key in E'.
  apply append_inv_head in E'. apply append_inv_head in E'. apply append_inv_head in E'.
  now apply safe_key_inj.
Qed.

Lemma public_url_distinct_witness :
  getUrl (example_uploader rejecting_client) "a/b.png"
  <> getUrl (example_uploader rejecting_client) "a%2Fb.png".
Proof.
  apply (public_url_distinct (example_uploader rejecting_client) "a/b.png" "a%2Fb.png").
  - reflexivity.
  - discriminate.
Defined.

(** ** Storage keys and the clock *)

Section StorageKeys.

Lemma split_at_first (p : ascii -> bool) (sep : ascii) (a b r1 r2 : string) :
  p sep = false -> all p a = true -> all p b = true ->
  a ++ String sep r1 = b ++ String sep r2 -> a = b /\ r1 = r2.
Proof.
  intro Hsep. revert b. induction a as [|c a IH]; intros [|c2 b] Ha Hb E;
    cbn [append all] in *.
  - injection E as E. auto.
  - injection E as Ec E. subst c2. now rewrite Hsep in Hb.
  - injection E as Ec E. subst c. now rewrite Hsep in Ha.
  - injection E as Ec E. subst c2.
    apply andb_prop in Ha as [_ Ha]. apply andb_prop in Hb as [_ Hb].
    destruct (IH b Ha Hb E) as [-> ->]. auto.
Qed.

Lemma decimal_no_dot (z : Z) : all no_dot (Js.decimal z) = true.
Proof.
  destruct (decimal_shape z) as (sign & d & -> & Hsign & Hd & _).
  rewrite all_app, (all_digits_all no_dot d); [|intros c Hc|exact Hd].
  - destruct Hsign as [-> | ->]; reflexivity.
  - unfold no_dot. apply negb_true_iff, Ascii.eqb_neq. intros ->. discriminate.
Qed.

Lemma decimal_starts (z : Z) (t : string) : Js.startsWith "/" (Js.decimal z ++ t) = false.
Proof.
  destruct (decimal_shape z) as (sign & d & -> & Hsign & Hd & Hne).
  destruct Hsign as [-> | ->]; [|reflexivity].
  destruct d as [|c d]; [congruence|]. cbn [append Js.startsWith all_digits] in *.
  apply andb_prop in Hd as [Hc _]. rewrite andb_true_r.
  apply Ascii.eqb_neq. intros <-. discriminate.
Qed.

Lemma strip_trailing_head (s : string) (c : ascii) (t : string) :
  strip_trailing_slashes s = String c t -> exists s', s = String c s'.
Proof.
  destruct s as [|d s]; [discriminate|]. cbn [strip_trailing_slashes].
  destruct (strip_trailing_slashes s).
  - destruct (Ascii.eqb d "/"); [discriminate|]. intros [= -> _]. eauto.
  - intros [= -> _]. eauto.
Qed.

(** A storage key never begins with a slash. *)
Lemma storageKey_no_leading_slash (s : TosPicbedPluginSettings) (f : File) (clock : Z) :
  Js.startsWith "/" (storageKey s f clock) = false.
Proof.
  unfold storageKey. rewrite normPrefix_normalized, objectName_extension.
  unfold normalized_prefix.
  destruct (strip_trailing_slashes (strip_leading_slashes (prefix s))) as [|c q] eqn:E.
  - cbn [append]. destruct (extension (name f)).
    + apply decimal_starts.
    + rewrite <- (append_nil_r (Js.decimal clock)). apply decimal_starts.
  - apply strip_trailing_head in E as [s' E].
    pose proof (strip_leading_no_slash (prefix s)) as H. rewrite E in H.
    cbn [append Js.startsWith] in *. exact H.
Qed.

End StorageKeys.

(** X4.  Under one configuration two uploads get the same storage key exactly
    when they read the same clock value and their file names have the same
    extension: uploads at different milliseconds never share a key, and the
    rest of the file name plays no part. *)
Theorem storage_key_collision (s : TosPicbedPluginSettings) (f1 f2 : File) (t1 t2 : Z) :
  storageKey s f1 t1 = storageKey s f2 t2
  <-> t1 = t2 /\ extension (name f1) = extension (name f2).
Proof.
  unfold storageKey. rewrite !objectName_extension. split.
  - intro E. apply append_inv_head in E.
    destruct (extension (name f1)) as [e1|], (extension (name f2)) as [e2|].
    + cbn [append] in E.
      destruct (split_at_first no_dot "." _ _ _ _ eq_refl
                  (decimal_no_dot t1) (decimal_no_dot t2) E) as [Ed ->].
      split; [now apply decimal_inj | reflexivity].
    + exfalso. pose proof (decimal_no_dot t2) as H. rewrite <- E, all_app in H.
      apply andb_prop in H as [_ H]. discriminate.
    + exfalso. pose proof (decimal_no_dot t1) as H. rewrite E, all_app in H.
      apply andb_prop in H as [_ H]. discriminate.
    + split; [now apply decimal_inj | reflexivity].
  - intros [-> ->]. reflexivity.
Qed.

(** ** From the upload to the reference and to the delete *)

Section ReferenceFlow.

Lemma search_skip_no_bang (re : Re.RegExp) (pre s : string) :
  Re.source re = image_reference \/ re = imgRe ->
  all no_bang pre = true ->
  forall i, Re.search re i (pre ++ s) = Re.search re (i + String.length pre) s.
Proof.
  intros Hre. induction pre as [|c pre IH]; intros Hp i.
  - cbn [append String.length]. now rewrite Nat.add_0_r.
  - cbn [all] in Hp. apply andb_prop in Hp as [Hc Hp].
    cbn [append Re.search String.length].
    destruct (Re.match_at re i (String c (pre ++ s))) eqn:E.
    + apply (image_needs_bang re _ _ _ Hre) in E as [t Ht]. injection Ht as -> _.
      discriminate.
    + rewrite (IH Hp). f_equal. lia.
Qed.

Lemma search_here (re : Re.RegExp) (i : nat) (s : string) (mt : Re.Match) :
  Re.match_at re i s = Some mt -> Re.search re i s = Some mt.
Proof. intro H. destruct s; cbn [Re.search]; now rewrite H. Qed.

End ReferenceFlow.

(** X5.  A pending token is never taken for a reference.  With the random
    suffix made of base-36 digits, wherever the token stands in a document
    no match of the Image Reference pattern (Delete-one, Delete-all) and no
    match of the residue pattern (cleanup) begins inside it, and the token
    alone holds no match of either. *)
Theorem token_holds_no_reference (now : Z) (r36 pre post : string) :
  all base36 (randomSuffix r36) = true ->
  let token := placeholderToken now r36 in
  (forall re, re = re_image \/ re = re_image_g \/ re = imgRe ->
     (forall i j, j < String.length token ->
        Re.match_at re i (Js.drop (String.length pre + j) (pre ++ token ++ post)) = None)
     /\ Re.exec re token = None)
  /\ Re.matchAll re_image_g token = [].
Proof.
  intros Hr token. pose proof (token_no_bang now r36 Hr) as Hb. fold token in Hb.
  assert (Hre : forall re, re = re_image \/ re = re_image_g \/ re = imgRe ->
                           Re.source re = image_reference \/ re = imgRe).
  { intros re [-> | [-> | ->]]; auto. }
  split.
  - intros re H. apply Hre in H. split.
    + intros i j Hj. now apply no_match_inside.
    + now apply search_none_no_bang.
  - apply scan_nil_no_bang; auto.
Qed.

Lemma token_holds_no_reference_witness :
  let token := placeholderToken 1700000000000 "0.4fzyo82mvyr" in
  Re.exec re_image ("![](" ++ token ++ ")") <> None
  /\ Re.match_at re_image 4 (Js.drop 4 ("![](" ++ token ++ ")")) = None
  /\ Re.exec imgRe token = None
  /\ Re.matchAll re_image_g token = [].
Proof.
  intro token.
  destruct (token_holds_no_reference 1700000000000 "0.4fzyo82mvyr" "![](" ")" eq_refl)
    as [H Hall].
  destruct (H re_image (or_introl eq_refl)) as [Hin _].
  destruct (H imgRe (or_intror (or_intror eq_refl))) as [_ Hres].
  split; [vm_compute; discriminate|]. split; [|split].
  - apply (Hin 4 0). vm_compute. lia.
  - exact Hres.
  - exact Hall.
Defined.

(** X6.  Delete-one works on the leftmost reference of the cursor line, and
    although it removes the reference by its text (a [replace] of the
    matched text by the empty text) and not by its position, what it writes
    back is the line without the span of that reference: the first place
    where the matched text stands is the place of the match. *)
Theorem delete_one_removes_matched_span (uploader : option TosUploader) (e : Editor)
  (d : DeleteOne) :
  menu_delete_one uploader e = Some d ->
  let text := Re.text (m d) in
  let at_ := Re.index (m d) in
  Js.indexOf text (line_then d) = Some at_
  /\ Js.replace text "" (line_then d)
     = Js.take at_ (line_then d) ++ Js.drop (at_ + String.length text) (line_then d)
  /\ (forall j, j < at_ -> Re.match_at re_image j (Js.drop j (line_then d)) = None).
Proof.
  intros Hmenu text at_.
  destruct (menu_delete_one_group _ _ _ Hmenu) as (url & _ & Hexec & _).
  destruct (image_match_first_occurrence re_image _ _ eq_refl eq_refl Hexec) as [Hi Hn].
  split; [exact Hi|]. split; [|exact Hn].
  unfold Js.replace, text, at_. rewrite Hi. reflexivity.
Qed.

Lemma delete_one_removes_matched_span_witness :
  let u := example_uploader rejecting_client in
  let e := {| value := "title" ++ String Re.LF "a ![x](k) b ![x](k) c";
              cursor := {| line := 1; ch := 20 |} |} in
  exists d, menu_delete_one (Some u) e = Some d
            /\ Re.index (m d) = 2
            /\ Js.replace (Re.text (m d)) "" (line_then d) = "a  b ![x](k) c".
Proof.
  intros u e. eexists. split; [reflexivity|].
  destruct (delete_one_removes_matched_span (Some u) e _ eq_refl) as (_ & Hr & _).
  split; [reflexivity|]. etransitivity; [exact Hr | reflexivity].
Defined.

(** X7.  What an upload stores, Delete-one deletes.  In public mode, with a
    plain host the URL parser accepts, let an upload succeed with a key of
    safe segments, without dot segment and without closing parenthesis, and
    let the cursor line hold the reference [!\[\](url)] written for it,
    after a text without exclamation mark.  Then the menu offers Delete-one
    for that reference, its group is the URL, and the click sends the delete
    of the very key that the upload put. *)
Theorem uploaded_object_is_the_one_deleted (pf : Platform) (u : TosUploader) (f : File)
  (clock : Z) (w0 w : World) (url key pre post : string) (e : Editor)
  (meanwhile : Editor -> Editor) :
  fst (uploadFile u f clock w0) = Ok (url, key) ->
  usePublicUrl (settings u) = true ->
  all host_char (public_host (settings u)) = true ->
  host_ok pf (public_host (settings u)) = true ->
  List.Forall percent_safe (Js.split "/" key) ->
  List.Forall (fun seg => dot_segment seg = false) (Js.split "/" key) ->
  all no_paren key = true ->
  all no_bang pre = true ->
  getLine (line (cursor e)) e = pre ++ "![](" ++ url ++ ")" ++ post ->
  exists d contentType,
    calls (snd (uploadFile u f clock w0))
    = (calls w0 ++ [PutObject (bucket (settings u)) key contentType])%list
    /\ menu_delete_one (Some u) e = Some d
    /\ Re.index (m d) = String.length pre
    /\ Re.group1 (m d) = Some url
    /\ calls (click_delete_one pf (Some u) d meanwhile w)
       = (calls w ++ [DeleteObject (bucket (settings u)) key])%list.
Proof.
  intros Hup Hpub Hhost Hok Hsafe Hdot Hparen Hpre Hline.
  assert (Hkey : key = storageKey (settings u) f clock
                 /\ url = publicUrl (settings u) key).
  { unfold uploadFile, request in Hup. cbn [fst] in Hup.
    destruct (respond _ _ _); cbn [fst] in Hup; [discriminate|].
    unfold getUrl in Hup. rewrite Hpub in Hup. cbn [fst] in Hup.
    injection Hup as <- <-. auto. }
  destruct Hkey as [Hkey Hurl].
  destruct (publicUrl_plain (settings u) key Hhost) as [Hplain Hnp].
  specialize (Hnp Hparen). rewrite <- Hurl in Hplain, Hnp.
  set (mt := {| Re.index := String.length pre; Re.text := "![](" ++ url ++ ")";
                Re.group1 := Some url |}).
  assert (Hexec : Re.exec re_image (pre ++ "![](" ++ url ++ ")" ++ post) = Some mt).
  { unfold Re.exec. rewrite (search_skip_no_bang re_image) by auto.
    apply search_here.
    apply (image_match_exact re_image eq_refl eq_refl _ url post Hnp).
    now apply plain_ascii_one_line. }
  exists {| cur := cursor e; line_then := pre ++ "![](" ++ url ++ ")" ++ post; m := mt |}.
  exists (if Js.truthy (type f) then Some (type f) else None).
  split; [|split; [|split; [|split]]].
  - rewrite uploadFile_world, <- Hkey. reflexivity.
  - unfold menu_delete_one, getCursor. rewrite Hline, Hexec. reflexivity.
  - reflexivity.
  - reflexivity.
  - unfold click_delete_one. cbn [m Re.group1 mt].
    assert (Hparse : parseKeyFromUrlOrKey pf url = key).
    { rewrite Hurl, <- (append_nil_r (publicUrl (settings u) key)).
      apply parse_public_url; auto.
      rewrite Hkey. apply storageKey_no_leading_slash. }
    rewrite Hparse. unfold deleteByKey, request.
    destruct (respond _ _ _); reflexivity.
Qed.

Lemma uploaded_object_is_the_one_deleted_witness :
  let u := example_uploader (client_rejecting_key "none") in
  let f := {| name := "shot.png"; type := "image/png" |} in
  let url := "https://notes.tos-cn-beijing.volces.com/img/1700000000001.png" in
  let e := {| value := "see ![](" ++ url ++ ") here"; cursor := origin |} in
  fst (uploadFile u f 1700000000001 (quiet "" origin)) = Ok (url, "img/1700000000001.png")
  /\ exists d, menu_delete_one (Some u) e = Some d
               /\ calls (click_delete_one example_platform (Some u) d (fun x => x)
                           (quiet (value e) origin))
                  = [DeleteObject "notes" "img/1700000000001.png"].
Proof.
  intros u f url e.
  assert (Hup : fst (uploadFile u f 1700000000001 (quiet "" origin))
                = Ok (url, "img/1700000000001.png")) by (vm_compute; reflexivity).
  assert (Hsafe : List.Forall percent_safe (Js.split "/" "img/1700000000001.png")).
  { let l := eval vm_compute in (Js.split "/" "img/1700000000001.png") in
    change (Js.split "/" "img/1700000000001.png") with l.
    repeat (apply List.Forall_cons; [split; vm_compute; reflexivity|]).
    apply List.Forall_nil. }
  assert (Hdot : List.Forall (fun seg => dot_segment seg = false)
                   (Js.split "/" "img/1700000000001.png")).
  { let l := eval vm_compute in (Js.split "/" "img/1700000000001.png") in
    change (Js.split "/" "img/1700000000001.png") with l.
    repeat (apply List.Forall_cons; [vm_compute; reflexivity|]). apply List.Forall_nil. }
  assert (Hline : getLine (line (cursor e)) e = "see " ++ "![](" ++ url ++ ")" ++ " here")
    by (vm_compute; reflexivity).
  split; [exact Hup|].
  destruct (uploaded_object_is_the_one_deleted example_platform u f 1700000000001
              (quiet "" origin) (quiet (value e) origin) url "img/1700000000001.png"
              "see " " here" e (fun x => x)
              Hup eq_refl eq_refl eq_refl Hsafe Hdot eq_refl eq_refl Hline)
    as (d & ct & _ & Hmenu & _ & _ & Hcalls).
  exists d. split; [exact Hmenu | exact Hcalls].
Defined.

(** ** The paste event as a whole *)

Section PasteEvent.

Variable pf : Platform.

Lemma filter_nil_existsb {A : Type} (p : A -> bool) (l : list A) :
  List.filter p l = [] <-> List.existsb p l = false.
Proof.
  induction l as [|x l IH]; cbn [List.filter List.existsb]; [tauto|].
  destruct (p x); cbn [orb]; [split; discriminate | exact IH].
Qed.

Lemma paste_image_notice (u : TosUploader) (mo : Moment) (f : File) (w : World) :
  exists n, notices (paste_image pf u mo f w) = (notices w ++ [n])%list
            /\ is_upload_notice n = true.
Proof.
  unfold paste_image.
  match goal with |- context [uploadFile ?a ?b ?c ?d] =>
    pose proof (uploadFile_world a b c d) as Hw; destruct (uploadFile a b c d) as [r w1] end.
  cbn [snd] in Hw. subst w1. destruct r as [[url k]|err].
  - exists UploadSucceeded. split; reflexivity.
  - exists (UploadFailed err). split; reflexivity.
Qed.

End PasteEvent.

(** X8.  The paste handler takes the event over ([preventDefault]) exactly
    when an uploader is configured and the clipboard holds an item of kind
    [file] whose type begins with [image/]; without uploader, without such
    an item or without active file it leaves buffer, notices and storage
    untouched.  So a paste of an image into a view without file is
    swallowed: the editor's own handling is prevented and nothing is
    inserted. *)
Theorem paste_interception (pf : Platform) (uploader : option TosUploader)
  (env : nat -> Moment) (items : list ClipboardItem) (activeFile : bool) (w : World) :
  let r := on_editor_paste pf uploader env items activeFile w in
  (snd r = true <-> uploader <> None /\ List.existsb is_image_item items = true)
  /\ (uploader = None \/ List.existsb is_image_item items = false \/ activeFile = false ->
      fst r = w)
  /\ (uploader <> None -> List.existsb is_image_item items = true -> activeFile = false ->
      r = (w, true)).
Proof.
  intro r. unfold r, on_editor_paste.
  destruct uploader as [u|].
  2:{ cbn [fst snd]. repeat split; auto; try discriminate; intros; tauto. }
  destruct (List.filter is_image_item items) as [|it imgs] eqn:E.
  - apply filter_nil_existsb in E. rewrite E. cbn [fst snd].
    repeat split; auto; try discriminate. intros [_ H]. discriminate.
  - assert (Hex : List.existsb is_image_item items = true).
    { destruct (List.existsb is_image_item items) eqn:X; [reflexivity|].
      apply filter_nil_existsb in X. congruence. }
    rewrite Hex. destruct activeFile; cbn [fst snd].
    + repeat split; auto; try discriminate.
      intros [H | [H | H]]; discriminate.
    + repeat split; auto; discriminate.
Qed.

(** X9.  One paste event answers every image item that yields a file with
    exactly one notice, success or failure, and with exactly one request to
    the storage; items that yield no file are passed over in silence. *)
Theorem paste_images_one_notice_each (pf : Platform) (u : TosUploader)
  (env : nat -> Moment) (imgs : list ClipboardItem) (i : nat) (w : World) :
  let w' := paste_images pf u env i imgs w in
  exists ns,
    notices w' = (notices w ++ ns)%list
    /\ List.length ns = List.length (List.filter has_file imgs)
    /\ List.forallb is_upload_notice ns = true
    /\ List.length (calls w') = List.length (calls w) + List.length (List.filter has_file imgs).
Proof.
  cbv zeta. revert i w. induction imgs as [|it rest IH]; intros i w;
    cbn [paste_images List.filter].
  - exists []. rewrite List.app_nil_r. repeat split. simpl. lia.
  - assert (Hf : has_file it = match getAsFile it with Some _ => true | None => false end)
      by reflexivity.
    rewrite Hf. destruct (getAsFile it) as [f|].
    + destruct (paste_image_notice pf u (env i) f w) as (n & Hn & Hu).
      destruct (IH (S i) (paste_image pf u (env i) f w)) as (ns & H1 & H2 & H3 & H4).
      exists (n :: ns). rewrite H1, Hn, <- List.app_assoc. cbn [List.app List.length List.forallb].
      rewrite Hu, H2, H3, H4, paste_image_calls, List.length_app. cbn [List.length].
      repeat split. lia.
    + apply IH.
Qed.

Section Occurrences.

Lemma get_drop (j : nat) (s : string) : forall k, String.get k (Js.drop j s) = String.get (j + k) s.
Proof.
  revert s. induction j as [|j IH]; intros s k; [reflexivity|].
  destruct s as [|c s]; cbn [Js.drop Nat.add String.get].
  - now destruct k.
  - apply IH.
Qed.

Lemma get_app (a b : string) :
  forall k, String.get k (a ++ b)
            = if (k <? String.length a)%nat then String.get k a
              else String.get (k - String.length a) b.
Proof.
  induction a as [|c a IH]; intro k; cbn [append String.length].
  - now rewrite Nat.sub_0_r.
  - destruct k as [|k]; [reflexivity|]. cbn [String.get]. rewrite IH.
    change (S k <? S (String.length a))%nat with (k <? String.length a)%nat.
    reflexivity.
Qed.

Lemma get_three (a b c : string) (k : nat) :
  String.get k (a ++ b ++ c)
  = if (k <? String.length a)%nat then String.get k a
    else if (k - String.length a <? String.length b)%nat
         then String.get (k - String.length a) b
         else String.get (k - String.length a - String.length b) c.
Proof. now rewrite !get_app. Qed.

Lemma startsWith_get (p s : string) :
  Js.startsWith p s = true -> forall k, k < String.length p -> String.get k s = String.get k p.
Proof.
  revert s. induction p as [|c p IH]; intros s H k Hk; [simpl in Hk; lia|].
  destruct s as [|d s]; [discriminate|]. cbn [Js.startsWith] in H.
  apply andb_prop in H as [Hc Hp]. apply Ascii.eqb_eq in Hc. subst d.
  destruct k as [|k]; [reflexivity|]. cbn [String.get]. apply IH; [exact Hp|].
  simpl in Hk. lia.
Qed.

Lemma get_startsWith (p s : string) :
  (forall k, k < String.length p -> String.get k s = String.get k p) ->
  Js.startsWith p s = true.
Proof.
  revert s. induction p as [|c p IH]; intros s H; [reflexivity|].
  pose proof (H 0 ltac:(simpl; lia)) as H0.
  destruct s as [|d s]; [discriminate|]. cbn [String.get] in H0. injection H0 as ->.
  cbn [Js.startsWith]. rewrite Ascii.eqb_refl. apply IH.
  intros k Hk. apply (H (S k)). simpl. lia.
Qed.

Lemma all_get (q : ascii -> bool) (s : string) :
  all q s = true -> forall k c, String.get k s = Some c -> q c = true.
Proof.
  induction s as [|d s IH]; intros H k c G; [destruct k; discriminate|].
  cbn [all] in H. apply andb_prop in H as [Hd Hs].
  destruct k as [|k]; cbn [String.get] in G.
  - now injection G as <-.
  - eauto.
Qed.

Lemma get_end (s : string) (c : ascii) (t : string) :
  String.get (String.length s) (s ++ String c t) = Some c.
Proof.
  rewrite get_app, Nat.ltb_irrefl, Nat.sub_diag. reflexivity.
Qed.

Lemma indexOf_none (needle hay : string) :
  Js.indexOf needle hay = None ->
  forall j, j <= String.length hay -> Js.startsWith needle (Js.drop j hay) = false.
Proof.
  induction hay as [|c hay IH]; intros H j Hj.
  - simpl in Hj. assert (j = 0) by lia. subst j. cbn [Js.indexOf Js.drop] in *.
    now destruct (Js.startsWith needle "").
  - cbn [Js.indexOf] in H. destruct (Js.startsWith needle (String c hay)) eqn:E;
      [discriminate|].
    destruct j as [|j]; [exact E|]. cbn [Js.drop]. apply IH; [|simpl in Hj; lia].
    now destruct (Js.indexOf needle hay).
Qed.

Lemma indexOf_none_intro (needle hay : string) :
  (forall j, Js.startsWith needle (Js.drop j hay) = false) -> Js.indexOf needle hay = None.
Proof.
  induction hay as [|c hay IH]; intro H; cbn [Js.indexOf];
    pose proof (H 0) as E; cbn [Js.drop] in E; rewrite E.
  - reflexivity.
  - rewrite IH; [reflexivity|]. intro j. apply (H (S j)).
Qed.

(** A text that stood once in a document and gave way to a reference stands
    in it no more, provided it has no exclamation mark and no closing
    parenthesis, begins with a brace and does not stand in the URL. *)
Lemma replaced_once (token pre post url : string) :
  String.get 0 token = Some "{"%char ->
  all no_bang token = true -> all no_paren token = true ->
  (forall j, j <> String.length pre ->
             Js.startsWith token (Js.drop j (pre ++ token ++ post)) = false) ->
  (forall j, Js.startsWith token (Js.drop j url) = false) ->
  forall j, Js.startsWith token (Js.drop j (pre ++ ("![](" ++ url ++ ")") ++ post)) = false.
Proof.
  intros H0 Hb Hp HU Hurl j.
  set (M := "![](" ++ url ++ ")").
  destruct (Js.startsWith token (Js.drop j (pre ++ M ++ post))) eqn:E; [exfalso|reflexivity].
  pose proof (startsWith_get _ _ E) as G.
  assert (G' : forall k, k < String.length token ->
                         String.get (j + k) (pre ++ M ++ post) = String.get k token).
  { intros k Hk. rewrite <- get_drop. now apply G. }
  clear G E.
  assert (Hn : 0 < String.length token) by (destruct token; [discriminate | simpl; lia]).
  assert (HM : String.length M = String.length url + 5).
  { unfold M. rewrite !length_append. cbn [String.length]. lia. }
  set (a := String.length pre) in *. set (n := String.length token) in *.
  destruct (Nat.le_gt_cases (j + n) a) as [C1|C1].
  { (* inside [pre] *)
    assert (H : j <> a) by lia.
    assert (X : Js.startsWith token (Js.drop j (pre ++ token ++ post)) = true).
    { apply get_startsWith. intros k Hk.
      rewrite get_drop, get_three, <- (G' k Hk), get_three.
      fold a. destruct (Nat.ltb_spec (j + k) a); [reflexivity | lia]. }
    rewrite (HU j H) in X. discriminate. }
  destruct (Nat.le_gt_cases (a + String.length M) j) as [C2|C2].
  { (* inside [post] *)
    assert (H : j - String.length M + n <> a) by lia.
    assert (X : Js.startsWith token
                  (Js.drop (j - String.length M + n) (pre ++ token ++ post)) = true).
    { apply get_startsWith. intros k Hk.
      rewrite get_drop, get_three, <- (G' k Hk), get_three.
      fold a n.
      destruct (Nat.ltb_spec (j - String.length M + n + k) a); [lia|].
      destruct (Nat.ltb_spec (j - String.length M + n + k - a) n); [lia|].
      destruct (Nat.ltb_spec (j + k) a); [lia|].
      destruct (Nat.ltb_spec (j + k - a) (String.length M)); [lia|].
      f_equal. lia. }
    rewrite (HU _ H) in X. discriminate. }
  destruct (Nat.le_gt_cases j a) as [C3|C3].
  { (* over the exclamation mark *)
    pose proof (G' (a - j) ltac:(lia)) as X.
    replace (j + (a - j)) with a in X by lia.
    rewrite get_three in X. fold a in X. rewrite Nat.ltb_irrefl, Nat.sub_diag in X.
    destruct (Nat.ltb_spec 0 (String.length M)); [|lia].
    cbn [M append String.get] in X. symmetry in X.
    apply (all_get _ _ Hb) in X. discriminate. }
  destruct (Nat.le_gt_cases (a + String.length M) (j + n)) as [C4|C4].
  { (* over the closing parenthesis *)
    pose proof (G' (a + String.length M - 1 - j) ltac:(lia)) as X.
    replace (j + (a + String.length M - 1 - j)) with (a + (String.length url + 4)) in X by lia.
    rewrite get_three in X. fold a in X.
    destruct (Nat.ltb_spec (a + (String.length url + 4)) a); [lia|].
    replace (a + (String.length url + 4) - a) with (String.length ("![](" ++ url)) in X
      by (rewrite length_append; cbn [String.length]; lia).
    destruct (Nat.ltb_spec (String.length ("![](" ++ url)) (String.length M));
      [|rewrite length_append in *; cbn [String.length] in *; lia].
    unfold M in X. rewrite <- append_assoc, get_end in X. symmetry in X.
    apply (all_get _ _ Hp) in X. discriminate. }
  (* inside the reference *)
  assert (GM : forall k, k < n -> String.get (j - a + k) M = String.get k token).
  { intros k Hk. rewrite <- (G' k Hk), get_three. fold a.
    destruct (Nat.ltb_spec (j + k) a); [lia|].
    destruct (Nat.ltb_spec (j + k - a) (String.length M)); [|lia].
    f_equal. lia. }
  destruct (Nat.le_gt_cases 4 (j - a)) as [C5|C5].
  - assert (Hin : Js.startsWith token (Js.drop (j - a - 4) url) = true).
    { apply get_startsWith. intros k Hk. fold n in Hk.
      rewrite get_drop, <- (GM k Hk).
      replace (j - a + k) with (4 + (j - a - 4 + k)) by lia.
      unfold M. rewrite (get_app "![](" (url ++ ")")). cbn [String.length].
      destruct (Nat.ltb_spec (4 + (j - a - 4 + k)) 4); [lia|].
      replace (4 + (j - a - 4 + k) - 4) with (j - a - 4 + k) by lia.
      rewrite get_app. destruct (Nat.ltb_spec (j - a - 4 + k) (String.length url)); [reflexivity|lia]. }
    now rewrite Hurl in Hin.
  - pose proof (GM 0 Hn) as X. rewrite Nat.add_0_r, H0 in X.
    assert (Hj : j - a = 1 \/ j - a = 2 \/ j - a = 3) by lia.
    destruct Hj as [E | [E | E]]; rewrite E in X; unfold M in X;
      cbn [append String.get] in X; discriminate X.
Qed.

End Occurrences.

Section SuccessPath.

Variable pf : Platform.

Lemma token_no_paren (now : Z) (r36 : string) :
  all base36 (randomSuffix r36) = true -> all no_paren (placeholderToken now r36) = true.
Proof.
  intro Hr. unfold placeholderToken. rewrite !all_app.
  destruct (decimal_shape now) as (sign & d & -> & Hsign & Hd & _).
  assert (H36 : forall c, base36 c = true -> no_paren c = true).
  { intros c Hc. unfold no_paren. apply negb_true_iff, Ascii.eqb_neq. intros <-.
    discriminate. }
  assert (H10 : forall c, is_digit c = true -> no_paren c = true).
  { intros c Hc. unfold no_paren. apply negb_true_iff, Ascii.eqb_neq. intros <-.
    discriminate. }
  rewrite all_app, (all_digits_all no_paren d H10 Hd), (all_impl base36 no_paren _ H36 Hr).
  destruct Hsign as [-> | ->]; reflexivity.
Qed.

Lemma once_only (needle hay : string) (i : nat) :
  needle <> "" ->
  Js.indexOf needle hay = Some i ->
  Js.indexOf needle (Js.drop (S i) hay) = None ->
  forall j, j <> i -> Js.startsWith needle (Js.drop j hay) = false.
Proof.
  intros Hne Hi Hlater j Hj.
  destruct (indexOf_occurs _ _ _ Hi) as [_ Hmin].
  destruct (Nat.lt_ge_cases j i) as [C|C]; [now apply Hmin|].
  replace j with (S i + (j - S i)) by lia. rewrite <- drop_drop.
  destruct (Nat.le_gt_cases (j - S i) (String.length (Js.drop (S i) hay))) as [L|L].
  - now apply indexOf_none.
  - rewrite drop_all by lia. destruct needle; [congruence | reflexivity].
Qed.

Lemma residual_cleanup_clean (e : Editor) :
  Re.exec imgRe (value e) = None -> residual_cleanup pf e = e.
Proof.
  intro H. unfold residual_cleanup.
  destruct (String.length (value e)); cbn [cleanup_loop]; unfold getValue; now rewrite H.
Qed.

Lemma value_reconcile_success (token url : string) (e : Editor) (i : nat) :
  Js.indexOf token (value e) = Some i ->
  value (reconcile_success pf token url e)
  = Js.take i (value e) ++ ("![](" ++ url ++ ")") ++ Js.drop (i + String.length token) (value e).
Proof.
  intro Hi. rewrite (reconcile_success_eq pf _ _ _ _ Hi). cbv zeta.
  destruct (_ && _)%bool; reflexivity.
Qed.

End SuccessPath.

(** X10.  The undisturbed success path leaves the reference and no token.
    Let the upload succeed, let the token (its random suffix made of base-36
    digits) stand exactly once in the document as it is when the upload
    returns, let the URL not hold the token and let the document with the
    reference hold no residue of the editor's own embedding.  Then the
    handler leaves the document with [!\[\](url)] in the place of the token
    and otherwise unchanged, the token stands in it no more, and the one
    notice is the success notice. *)
Theorem paste_image_success (pf : Platform) (u : TosUploader) (mo : Moment) (f : File)
  (w : World) (url key : string) (i : nat) :
  let token := placeholderToken (token_clock mo) (token_random mo) in
  let w0 := with_editor (replaceRange pf token (cursor (editor w)) (cursor (editor w))
                           (editor w)) w in
  let doc := value (meanwhile mo (editor w0)) in
  let after := Js.take i doc ++ ("![](" ++ url ++ ")")
               ++ Js.drop (i + String.length token) doc in
  fst (uploadFile u f (upload_clock mo) w0) = Ok (url, key) ->
  all base36 (randomSuffix (token_random mo)) = true ->
  Js.indexOf token doc = Some i ->
  Js.indexOf token (Js.drop (S i) doc) = None ->
  Js.includes token url = false ->
  Re.exec imgRe after = None ->
  let w' := paste_image pf u mo f w in
  value (editor w') = after
  /\ Js.includes token (value (editor w')) = false
  /\ notices w' = (notices w ++ [UploadSucceeded])%list.
Proof.
  intros token w0 doc after Hup Hr Hi Hlater Hurl Hres w'.
  assert (Hw' : w' = notify UploadSucceeded
                       (with_editor
                          (residual_cleanup pf
                             (reconcile_success pf token url (meanwhile mo (editor w0))))
                          (snd (uploadFile u f (upload_clock mo) w0)))).
  { unfold w', paste_image, getCursor. fold token. fold w0.
    destruct (uploadFile u f (upload_clock mo) w0) as [r w1] eqn:E.
    cbn [fst snd] in *. subst r.
    pose proof (uploadFile_world u f (upload_clock mo) w0) as Hw. rewrite E in Hw.
    cbn [snd] in Hw. subst w1. cbn [snd]. reflexivity. }
  assert (Hv : value (reconcile_success pf token url (meanwhile mo (editor w0))) = after)
    by apply (value_reconcile_success pf _ _ _ _ Hi).
  assert (Hval : value (editor w') = after).
  { rewrite Hw'. cbn [notify with_editor editor].
    rewrite residual_cleanup_clean; [exact Hv | now rewrite Hv]. }
  split; [exact Hval|]. split.
  - rewrite Hval. unfold Js.includes.
    assert (Hne : token <> "") by discriminate.
    destruct (indexOf_occurs _ _ _ Hi) as [Ho _].
    pose proof (occurs_at_split _ _ _ Ho) as Hsplit.
    assert (Hlen : String.length (Js.take i doc) = i).
    { rewrite length_take. destruct Ho as [_ Hl]. lia. }
    rewrite indexOf_none_intro; [reflexivity|].
    apply replaced_once.
    + reflexivity.
    + now apply token_no_bang.
    + now apply token_no_paren.
    + rewrite Hlen, <- Hsplit. now apply once_only.
    + intro j. unfold Js.includes in Hurl.
      destruct (Js.indexOf token url) eqn:E; [discriminate|].
      destruct (Nat.le_gt_cases j (String.length url)) as [L|L].
      * now apply indexOf_none.
      * rewrite drop_all by lia. reflexivity.
  - rewrite Hw', uploadFile_world. reflexivity.
Qed.

Lemma paste_image_success_witness :
  let u := example_uploader (client_rejecting_key "none") in
  let mo := {| token_clock := 1700000000000; token_random := "0.4fzyo82mvyr";
               upload_clock := 1700000000001; meanwhile := fun e => e |} in
  let f := {| name := "shot.png"; type := "image/png" |} in
  let w := quiet "abc def" {| line := 0; ch := 3 |} in
  let w' := paste_image example_platform u mo f w in
  value (editor w') = "abc![](https://notes.tos-cn-beijing.volces.com/img/1700000000001.png) def"
  /\ Js.includes (placeholderToken 1700000000000 "0.4fzyo82mvyr") (value (editor w')) = false
  /\ notices w' = [UploadSucceeded].
Proof.
  intros u mo f w w'.
  destruct (paste_image_success example_platform u mo f w
              "https://notes.tos-cn-beijing.volces.com/img/1700000000001.png"
              "img/1700000000001.png" 3
              eq_refl eq_refl eq_refl eq_refl eq_refl eq_refl) as (Hv & Hi & Hn).
  split; [|split].
  - etransitivity; [exact Hv | reflexivity].
  - exact Hi.
  - exact Hn.
Defined.

(** X11.  A token the user removed while the upload was pending is not
    brought back.  When the token no longer stands in the document as the
    upload returns, nothing is written in its place: after a success the
    handler only runs the cleanup and still announces the success, the
    object staying in the storage without a reference to it; after a failure
    it leaves text and cursor exactly as the user left them.  In both cases
    the one request sent is the upload. *)
Theorem token_removed_while_pending (pf : Platform) (u : TosUploader) (mo : Moment)
  (f : File) (w : World) :
  let token := placeholderToken (token_clock mo) (token_random mo) in
  let w0 := with_editor (replaceRange pf token (cursor (editor w)) (cursor (editor w))
                           (editor w)) w in
  let left := meanwhile mo (editor w0) in
  Js.indexOf token (value left) = None ->
  let w' := paste_image pf u mo f w in
  calls w'
  = (calls w ++ [PutObject (bucket (settings u)) (storageKey (settings u) f (upload_clock mo))
                   (if Js.truthy (type f) then Some (type f) else None)])%list
  /\ match fst (uploadFile u f (upload_clock mo) w0) with
     | Ok _ =>
         editor w' = residual_cleanup pf left
         /\ notices w' = (notices w ++ [UploadSucceeded])%list
     | Throw err =>
         editor w' = left /\ notices w' = (notices w ++ [UploadFailed err])%list
     end.
Proof.
  intros token w0 left Hgone w'. split; [apply paste_image_calls|].
  unfold w', paste_image, getCursor. fold token. fold w0.
  pose proof (uploadFile_world u f (upload_clock mo) w0) as Hw.
  destruct (uploadFile u f (upload_clock mo) w0) as [r w1].
  cbn [fst snd] in *. subst w1. cbn [with_editor editor notices calls]. fold left.
  destruct r as [[url key]|err]; cbn [notify with_editor editor notices].
  - unfold reconcile_success, getValue. rewrite Hgone. split; reflexivity.
  - rewrite (reconcile_failure_absent pf token left Hgone). split; reflexivity.
Qed.

Lemma token_removed_while_pending_witness :
  let u := example_uploader (client_rejecting_key "none") in
  let mo := {| token_clock := 1700000000000; token_random := "0.4fzyo82mvyr";
               upload_clock := 1700000000001;
               meanwhile := fun e => {| value := "abc"; cursor := cursor e |} |} in
  let f := {| name := "shot.png"; type := "image/png" |} in
  let w' := paste_image example_platform u mo f (quiet "abc" (end_of "abc")) in
  value (editor w') = "abc"
  /\ notices w' = [UploadSucceeded]
  /\ calls w' = [PutObject "notes" "img/1700000000001.png" (Some "image/png")].
Proof.
  intros u mo f w'.
  destruct (token_removed_while_pending example_platform u mo f (quiet "abc" (end_of "abc"))
              eq_refl) as (Hc & He & Hn).
  split; [|split].
  - exact (f_equal value He).
  - exact Hn.
  - exact Hc.
Defined.

(** ** Delete-all on a document of references *)

Section DocumentOfReferences.

Variable re : Re.RegExp.
Hypothesis re_source : Re.source re = image_reference.
Hypothesis re_case : Re.ignoreCase re = false.

Lemma scan_skip (k : nat) :
  forall i s, k <= String.length s ->
  Re.scan re i k s = Re.scan re (i + k) 0 (Js.drop k s).
Proof.
  induction k as [|k IH]; intros i s H.
  - now rewrite Nat.add_0_r.
  - destruct s as [|c s]; [simpl in H; lia|].
    cbn [Re.scan Js.drop]. replace (S k - 1) with k by lia.
    rewrite IH by (simpl in H; lia). f_equal. lia.
Qed.

Lemma scan_prefix (pre s : string) :
  all no_bang pre = true ->
  forall i, Re.scan re i 0 (pre ++ s) = Re.scan re (i + String.length pre) 0 s.
Proof.
  induction pre as [|c pre IH]; intros Hp i.
  - cbn [append String.length]. now rewrite Nat.add_0_r.
  - cbn [all] in Hp. apply andb_prop in Hp as [Hc Hp].
    cbn [append Re.scan String.length].
    destruct (Re.match_at re i (String c (pre ++ s))) eqn:E.
    + apply (image_needs_bang re _ _ _ (or_introl re_source)) in E as [t Ht].
      injection Ht as -> _. discriminate.
    + cbn [Nat.sub]. rewrite (IH Hp). f_equal. lia.
Qed.

Lemma reference_cons (url s : string) :
  reference url ++ s = String "!" (("[](" ++ url ++ ")") ++ s)
  /\ "![](" ++ url ++ ")" ++ s = String "!" (("[](" ++ url ++ ")") ++ s)
  /\ String.length (reference url) = S (String.length ("[](" ++ url ++ ")")).
Proof.
  unfold reference. cbn [append String.length]. rewrite !append_assoc. cbn [append].
  repeat split.
Qed.

Lemma scan_reference (url s : string) (i : nat) :
  all no_paren url = true -> one_line url = true ->
  Re.scan re i 0 (reference url ++ s)
  = {| Re.index := i; Re.text := reference url; Re.group1 := Some url |}
    :: Re.scan re (i + String.length (reference url)) 0 s.
Proof.
  intros Hp Hl.
  pose proof (image_match_exact re re_source re_case i url s Hp Hl) as Hm.
  fold (reference url) in Hm.
  destruct (reference_cons url s) as (E1 & E2 & E3).
  rewrite E2 in Hm. rewrite E1. cbn [Re.scan]. rewrite Hm. cbn [Re.text]. f_equal.
  rewrite E3. cbn [Nat.sub]. rewrite Nat.sub_0_r.
  set (inner := "[](" ++ url ++ ")").
  rewrite scan_skip by (rewrite length_append; lia).
  rewrite drop_app_exact. f_equal. lia.
Qed.

Lemma uncovered_prefix (pre s : string) :
  all no_bang pre = true ->
  forall i, uncovered re i 0 (pre ++ s) = pre ++ uncovered re (i + String.length pre) 0 s.
Proof.
  induction pre as [|c pre IH]; intros Hp i.
  - cbn [append String.length]. now rewrite Nat.add_0_r.
  - cbn [all] in Hp. apply andb_prop in Hp as [Hc Hp].
    cbn [append uncovered String.length].
    destruct (Re.match_at re i (String c (pre ++ s))) eqn:E.
    + apply (image_needs_bang re _ _ _ (or_introl re_source)) in E as [t Ht].
      injection Ht as -> _. discriminate.
    + cbn [Nat.sub]. rewrite (IH Hp). do 3 f_equal. lia.
Qed.

Lemma uncovered_reference (url s : string) (i : nat) :
  all no_paren url = true -> one_line url = true ->
  uncovered re i 0 (reference url ++ s)
  = uncovered re (i + String.length (reference url)) 0 s.
Proof.
  intros Hp Hl.
  pose proof (image_match_exact re re_source re_case i url s Hp Hl) as Hm.
  fold (reference url) in Hm.
  destruct (reference_cons url s) as (E1 & E2 & E3).
  rewrite E2 in Hm. rewrite E1. cbn [uncovered]. rewrite Hm. cbn [Re.text].
  rewrite E3. cbn [Nat.sub]. rewrite Nat.sub_0_r.
  set (inner := "[](" ++ url ++ ")").
  rewrite uncovered_skip by (rewrite length_append; lia).
  rewrite drop_app_exact. f_equal. lia.
Qed.

Lemma uncovered_no_bang (s : string) :
  all no_bang s = true -> forall i, uncovered re i 0 s = s.
Proof.
  intros H i. rewrite <- (append_nil_r s) at 1. rewrite (uncovered_prefix s "" H).
  cbn [uncovered]. apply append_nil_r.
Qed.

Lemma scan_document (refs : list (string * string)) (tail : string) :
  List.Forall (fun r => all no_bang (fst r) = true /\ all no_paren (snd r) = true
                        /\ one_line (snd r) = true) refs ->
  all no_bang tail = true ->
  forall i, List.map Re.group1 (Re.scan re i 0 (document refs tail))
            = List.map (fun r => Some (snd r)) refs
            /\ uncovered re i 0 (document refs tail) = text_around refs tail.
Proof.
  intros Hr Ht. induction Hr as [|[before url] rest (Hb & Hp & Hl) _ IH]; intro i.
  - cbn [document List.map text_around]. split.
    + now rewrite (scan_nil_no_bang re tail (or_introl re_source) Ht).
    + now apply uncovered_no_bang.
  - cbn [fst snd] in *. cbn [document List.map text_around snd]. split.
    + rewrite (scan_prefix _ _ Hb), (scan_reference _ _ _ Hp Hl).
      cbn [List.map Re.group1]. f_equal. apply IH.
    + rewrite (uncovered_prefix _ _ Hb), (uncovered_reference _ _ _ Hp Hl).
      f_equal. apply IH.
Qed.

End DocumentOfReferences.

Section DeleteAllFlow.

Variable pf : Platform.

Lemma keys_of_groups (ms : list Re.Match) :
  forall urls, List.map Re.group1 ms = List.map Some urls ->
  keys_of pf ms = Some (List.map (parseKeyFromUrlOrKey pf) urls).
Proof.
  induction ms as [|mt ms IH]; intros [|url urls] H; try discriminate; [reflexivity|].
  cbn [List.map] in H. injection H as Hg Hr.
  cbn [keys_of List.map]. now rewrite Hg, (IH urls Hr).
Qed.

Lemma text_around_map (g : string -> string) (refs : list (string * string)) (tail : string) :
  text_around (List.map (fun r => (fst r, g (snd r))) refs) tail = text_around refs tail.
Proof.
  induction refs as [|[before key] rest IH]; [reflexivity|].
  cbn [List.map text_around fst snd]. now rewrite IH.
Qed.

End DeleteAllFlow.

(** X12.  What the uploads stored, Delete-all deletes.  In public mode, with
    a plain host the URL parser accepts, let the document be made of
    references [!\[\](url)] for the public URLs of resolvable keys, each
    after a text without exclamation mark, and of a last such text.  Then
    Delete-all sends one delete per reference, for those very keys and in
    the order of the document, leaves the texts around the references as the
    new document and reports the number of references. *)
Theorem delete_all_deletes_uploaded (pf : Platform) (u : TosUploader)
  (refs : list (string * string)) (tail : string) (meanwhile : Editor -> Editor)
  (w : World) :
  usePublicUrl (settings u) = true ->
  all host_char (public_host (settings u)) = true ->
  host_ok pf (public_host (settings u)) = true ->
  refs <> [] ->
  List.Forall (fun r => all no_bang (fst r) = true /\ resolvable (snd r)) refs ->
  all no_bang tail = true ->
  value (editor w)
  = document (List.map (fun r => (fst r, publicUrl (settings u) (snd r))) refs) tail ->
  let w' := click_delete_all pf (Some u) meanwhile w in
  calls w'
  = (calls w ++ List.map (fun r => DeleteObject (bucket (settings u)) (snd r)) refs)%list
  /\ value (editor w') = text_around refs tail
  /\ exists failures,
       notices w' = (notices w ++ List.map KeyDeleteFailed failures
                     ++ [DeletedCount (List.length refs)])%list.
Proof.
  intros Hpub Hhost Hok Hne Hrefs Htail Hdoc w'.
  set (refs' := List.map (fun r => (fst r, publicUrl (settings u) (snd r))) refs) in *.
  assert (Hrefs' : List.Forall (fun r => all no_bang (fst r) = true
                                         /\ all no_paren (snd r) = true
                                         /\ one_line (snd r) = true) refs').
  { unfold refs'. apply List.Forall_map. eapply List.Forall_impl; [|exact Hrefs].
    intros [before key] (Hb & _ & _ & _ & Hp). cbn [fst snd] in *.
    destruct (publicUrl_plain (settings u) key Hhost) as [Hplain Hnp].
    split; [exact Hb|]. split; [now apply Hnp | now apply plain_ascii_one_line]. }
  destruct (scan_document re_image_g eq_refl eq_refl refs' tail Hrefs' Htail 0) as [Hg Hunc].
  set (ms := Re.scan re_image_g 0 0 (document refs' tail)) in *.
  assert (Hurls : List.map Re.group1 ms
                  = List.map Some (List.map (fun r => publicUrl (settings u) (snd r)) refs)).
  { rewrite Hg. unfold refs'. now rewrite !List.map_map. }
  assert (Hkeys : keys_of pf ms = Some (List.map snd refs)).
  { rewrite (keys_of_groups pf ms _ Hurls), List.map_map. f_equal.
    clear - Hrefs Hhost Hok. induction Hrefs as [|[before key] rest (_ & Hs & Hl & Hd & _) _ IH];
      [reflexivity|].
    cbn [List.map snd]. rewrite IH. f_equal.
    rewrite <- (append_nil_r (publicUrl (settings u) key)).
    now apply parse_public_url. }
  assert (Hms : ms <> []).
  { intro E. rewrite E in Hurls. destruct refs; [congruence | discriminate]. }
  destruct (delete_each_world u (List.map snd refs) w) as (He & Hc & Hn).
  assert (Hw' : w' = notify (DeletedCount (List.length (List.map snd refs)))
                       (with_editor (setValue pf (Re.replace re_image_g "" (document refs' tail))
                                       (meanwhile (editor (delete_each u (List.map snd refs) w))))
                          (delete_each u (List.map snd refs) w))).
  { unfold w', click_delete_all, getValue. rewrite Hdoc.
    change (Re.matchAll re_image_g (document refs' tail)) with ms.
    destruct ms; [congruence|]. now rewrite Hkeys. }
  rewrite Hw'. cbn [notify with_editor editor calls notices].
  split; [|split].
  - rewrite Hc, List.map_map. reflexivity.
  - rewrite value_setValue, (replace_global_uncovered re_image_g _ eq_refl), Hunc.
    apply text_around_map.
  - eexists. rewrite Hn, List.length_map, <- List.app_assoc. reflexivity.
Qed.

Lemma delete_all_deletes_uploaded_witness :
  let u := example_uploader (client_rejecting_key "img/2.png") in
  let w := quiet ("a " ++ reference "https://notes.tos-cn-beijing.volces.com/img/1.png"
                  ++ " b " ++ reference "https://notes.tos-cn-beijing.volces.com/img/2.png"
                  ++ " c") origin in
  let w' := click_delete_all example_platform (Some u) (fun e => e) w in
  calls w' = [DeleteObject "notes" "img/1.png"; DeleteObject "notes" "img/2.png"]
  /\ value (editor w') = "a  b  c".
Proof.
  intros u w w'.
  assert (Hrefs : List.Forall (fun r => all no_bang (fst r) = true /\ resolvable (snd r))
                    [("a ", "img/1.png"); (" b ", "img/2.png")]).
  { repeat constructor; reflexivity. }
  destruct (delete_all_deletes_uploaded example_platform u
              [("a ", "img/1.png"); (" b ", "img/2.png")] " c" (fun e => e) w
              eq_refl eq_refl eq_refl ltac:(discriminate) Hrefs eq_refl eq_refl)
    as (Hc & Hv & _).
  split; [exact Hc | exact Hv].
Defined.

(** ** The plugin object and the settings tab *)

Section PluginFacts.

Variable connect : string -> string -> string -> result TosClient.

Lemma assign_serialize (s : TosPicbedPluginSettings) :
  assign DEFAULT_SETTINGS (Some (serialize s)) = s.
Proof. now destruct s. Qed.

Lemma construct_ready (s : TosPicbedPluginSettings) :
  ready s = true ->
  construct connect s
  = match connect (secretId s) (secretKey s) (region s) with
    | Ok c => Ok {| settings := s; client := c |}
    | Throw e => Throw e
    end.
Proof.
  unfold ready, construct. intro H.
  apply andb_prop in H as [H Hr]. apply andb_prop in H as [H Hb].
  apply andb_prop in H as [Hi Hk]. now rewrite Hi, Hk, Hb, Hr.
Qed.

Lemma reinit_settled (p : Plugin) :
  settled connect p -> settled connect (reinitUploaderIfReady connect p).
Proof.
  intros (s & Hs & Ht & Hd & Hu). unfold reinitUploaderIfReady.
  assert (Hc : current_settings p = s).
  { unfold current_settings, deref. now rewrite Ht, Hs. }
  rewrite Hc. destruct (ready s) eqn:R;
    [|exists s; split; [exact Hs|]; split; [exact Ht|]; split; [exact Hd|];
      intros o H; split; [apply (Hu o H) | congruence]].
  rewrite (construct_ready s R).
  destruct (connect (secretId s) (secretKey s) (region s)) as [c|err] eqn:C.
  - exists s. cbn [set_uploader store this_settings data this_uploader client].
    split; [exact Hs|]. split; [exact Ht|]. split; [exact Hd|].
    intros o [= <-]. cbn [held sdk]. split; [exact Ht | intros _; exact C].
  - exists s. cbn [set_uploader store this_settings data this_uploader].
    split; [exact Hs|]. split; [exact Ht|]. split; [exact Hd|]. discriminate.
Qed.

Lemma write_save_settled (f : TosPicbedPluginSettings -> TosPicbedPluginSettings)
  (p : Plugin) :
  settled connect p ->
  (forall s, secretId (f s) = secretId s /\ secretKey (f s) = secretKey s
             /\ bucket (f s) = bucket s /\ region (f s) = region s) ->
  settled connect (saveSettings (write f p)).
Proof.
  intros (s & Hs & Ht & Hd & Hu) Hf. exists (f s).
  unfold saveSettings, write, current_settings, deref.
  cbn [store this_settings this_uploader data]. rewrite Ht, Hs. cbn [update List.nth].
  split; [reflexivity|]. split; [reflexivity|]. split; [apply assign_serialize|].
  intros o H. split; [now apply Hu|].
  intro R. destruct (Hf s) as (E1 & E2 & E3 & E4). rewrite E1, E2, E4.
  apply (Hu o H). unfold ready in *. now rewrite <- E1, <- E2, <- E3, <- E4.
Qed.

Lemma write_save_reinit_settled (f : TosPicbedPluginSettings -> TosPicbedPluginSettings)
  (p : Plugin) :
  settled connect p ->
  settled connect (reinitUploaderIfReady connect (saveSettings (write f p))).
Proof.
  intros (s & Hs & Ht & Hd & Hu). unfold reinitUploaderIfReady.
  assert (Hc : current_settings (saveSettings (write f p)) = f s).
  { unfold saveSettings, write, current_settings, deref.
    cbn [store this_settings]. rewrite Ht, Hs. reflexivity. }
  rewrite Hc.
  assert (Hst : store (saveSettings (write f p)) = [f s]).
  { unfold saveSettings, write. cbn [store]. now rewrite Ht, Hs. }
  assert (Hda : assign DEFAULT_SETTINGS (data (saveSettings (write f p))) = f s).
  { unfold saveSettings. cbn [data].
    assert (E : current_settings (write f p) = f s).
    { unfold write, current_settings, deref. cbn [store this_settings].
      now rewrite Ht, Hs. }
    rewrite E. apply assign_serialize. }
  destruct (ready (f s)) eqn:R.
  - rewrite (construct_ready _ R).
    destruct (connect (secretId (f s)) (secretKey (f s)) (region (f s))) as [c|err] eqn:C.
    + exists (f s). cbn [set_uploader store this_settings data this_uploader client].
      split; [exact Hst|]. split; [exact Ht|]. split; [exact Hda|].
      intros o [= <-]. cbn [held sdk]. split; [exact Ht | intros _; exact C].
    + exists (f s). cbn [set_uploader store this_settings data this_uploader].
      split; [exact Hst|]. split; [exact Ht|]. split; [exact Hda|]. discriminate.
  - exists (f s).
    split; [exact Hst|]. split; [exact Ht|]. split; [exact Hda|].
    intros o H. unfold saveSettings, write in H. cbn [this_uploader] in H.
    split; [now apply Hu | congruence].
Qed.

Lemma onChange_settled (c : TabChange) (p : Plugin) :
  settled connect p -> settled connect (onChange connect c p).
Proof.
  intro H. destruct c; cbn [onChange];
    try (now apply write_save_reinit_settled);
    apply write_save_settled; auto; intros s; repeat split.
Qed.

Lemma onload_settled (saved : option StoredData) : settled connect (onload connect saved).
Proof.
  apply reinit_settled. exists (assign DEFAULT_SETTINGS saved).
  unfold loadSettings, unloaded. cbn [store this_settings data this_uploader List.app List.length].
  split; [reflexivity|]. split; [reflexivity|]. split; [reflexivity|]. discriminate.
Qed.

Lemma after_changes_settled (saved : option StoredData) (changes : list TabChange) :
  settled connect (after_changes connect saved changes).
Proof.
  unfold after_changes. generalize (onload_settled saved).
  generalize (onload connect saved). induction changes as [|c cs IH]; intros p Hp; [exact Hp|].
  cbn [List.fold_left]. apply IH. now apply onChange_settled.
Qed.

Lemma settled_current (p : Plugin) (s : TosPicbedPluginSettings) :
  store p = [s] -> this_settings p = 0 -> current_settings p = s.
Proof. intros Hs Ht. unfold current_settings, deref. now rewrite Ht, Hs. Qed.

Lemma nth_update (f : TosPicbedPluginSettings -> TosPicbedPluginSettings)
  (objects : list TosPicbedPluginSettings) :
  forall address,
    List.nth address (update address f objects) DEFAULT_SETTINGS
    = if (address <? List.length objects)%nat
      then f (List.nth address objects DEFAULT_SETTINGS)
      else DEFAULT_SETTINGS.
Proof.
  induction objects as [|s rest IH]; intros [|a]; cbn [update List.nth List.length];
    try reflexivity.
  rewrite IH. reflexivity.
Qed.

Lemma not_ready_keeps (f : TosPicbedPluginSettings -> TosPicbedPluginSettings) (p : Plugin) :
  (forall s, ready (f s) = false) ->
  this_uploader (reinitUploaderIfReady connect (saveSettings (write f p))) = this_uploader p.
Proof.
  intro Hf. unfold reinitUploaderIfReady.
  assert (R : ready (current_settings (saveSettings (write f p))) = false).
  { unfold current_settings, deref, saveSettings, write. cbn [store this_settings].
    rewrite nth_update. destruct (_ <? _)%nat; [apply Hf | reflexivity]. }
  rewrite R. reflexivity.
Qed.

Lemma strip_trailing_idem (s : string) :
  strip_trailing_slashes (strip_trailing_slashes s) = strip_trailing_slashes s.
Proof.
  induction s as [|c s IH]; [reflexivity|]. cbn [strip_trailing_slashes].
  destruct (strip_trailing_slashes s) as [|d t] eqn:E.
  - destruct (Ascii.eqb c "/") eqn:Ec; [reflexivity|].
    cbn [strip_trailing_slashes]. now rewrite Ec.
  - cbn [strip_trailing_slashes] in *. now rewrite IH.
Qed.

Lemma strip_both_fixed (s : string) :
  let q := strip_trailing_slashes (strip_leading_slashes s) in
  strip_trailing_slashes (strip_leading_slashes q) = q.
Proof.
  cbv zeta. set (y := strip_leading_slashes s).
  assert (H : strip_leading_slashes (strip_trailing_slashes y) = strip_trailing_slashes y).
  { apply strip_leading_id. destruct (strip_trailing_slashes y) as [|c t] eqn:E; [reflexivity|].
    apply strip_trailing_head in E as [s' E].
    pose proof (strip_leading_no_slash s) as N. fold y in N. rewrite E in N.
    exact N. }
  rewrite H. apply strip_trailing_idem.
Qed.

Lemma settled_uploader (p : Plugin) (u : TosUploader) :
  settled connect p -> uploader_of p = Some u ->
  settings u = current_settings p
  /\ (ready (settings u) = true ->
      connect (secretId (settings u)) (secretKey (settings u)) (region (settings u))
      = Ok (client u)).
Proof.
  intros (s & Hs & Ht & _ & Ho) Hu.
  unfold uploader_of in Hu. destruct (this_uploader p) as [o|] eqn:E; [|discriminate].
  injection Hu as <-. cbn [settings client]. destruct (Ho o eq_refl) as [Hh Hc].
  rewrite (settled_current p s Hs Ht). unfold deref. rewrite Hh, Hs. cbn [List.nth].
  split; [reflexivity | exact Hc].
Qed.

End PluginFacts.

(** X13.  An emptied connection field never switches the plugin off.  When
    the value handed to the secret id, secret key, bucket or region field is
    empty or white space only, the handler stores the empty text and leaves
    [this.uploader] as it was: the uploader is neither removed nor rebuilt,
    and goes on with the client it has. *)
Theorem emptied_field_keeps_uploader
  (connect : string -> string -> string -> result TosClient) (p : Plugin) (v : string) :
  trim v = "" ->
  this_uploader (onChange connect (SecretIdField v) p) = this_uploader p
  /\ this_uploader (onChange connect (SecretKeyField v) p) = this_uploader p
  /\ this_uploader (onChange connect (BucketField v) p) = this_uploader p
  /\ this_uploader (onChange connect (RegionField v) p) = this_uploader p.
Proof.
  intro Hv. cbn [onChange]. rewrite Hv.
  repeat split; apply not_ready_keeps; intro s; unfold ready; cbn;
    rewrite ?andb_false_r; reflexivity.
Qed.

Lemma emptied_field_keeps_uploader_witness :
  let p := onload example_connect (Some example_stored) in
  let p' := onChange example_connect (BucketField "  ") p in
  this_uploader p = Some {| held := 0; sdk := accepting_client |}
  /\ this_uploader p' = this_uploader p
  /\ bucket (current_settings p') = "".
Proof.
  intros p p'.
  destruct (emptied_field_keeps_uploader example_connect p "  " eq_refl) as (_ & _ & H & _).
  split; [reflexivity|]. split; [exact H | reflexivity].
Defined.

(** X14.  The uploader reads the live settings.  After [onload] and any
    series of changes in the settings tab, the uploader the handlers find
    holds the very settings object of the plugin, so its settings are the
    current ones, prefix and URL mode included; and when the current
    configuration is complete, its client is the one the SDK makes for the
    current credentials and region. *)
Theorem uploader_reads_live_settings
  (connect : string -> string -> string -> result TosClient)
  (saved : option StoredData) (changes : list TabChange) (u : TosUploader) :
  let p := after_changes connect saved changes in
  uploader_of p = Some u ->
  settings u = current_settings p
  /\ (ready (settings u) = true ->
      connect (secretId (settings u)) (secretKey (settings u)) (region (settings u))
      = Ok (client u)).
Proof.
  intros p Hu. apply (settled_uploader connect p u); [|exact Hu].
  apply after_changes_settled.
Qed.

Lemma uploader_reads_live_settings_witness :
  let p := after_changes example_connect (Some example_stored)
             [PrefixField " /shots/ "; PublicUrlToggle false] in
  exists u, uploader_of p = Some u
            /\ prefix (settings u) = "shots" /\ usePublicUrl (settings u) = false
            /\ settings u = current_settings p.
Proof.
  intro p. eexists. split; [reflexivity|]. split; [reflexivity|]. split; [reflexivity|].
  apply (uploader_reads_live_settings example_connect (Some example_stored)
           [PrefixField " /shots/ "; PublicUrlToggle false] _ eq_refl).
Defined.

(** X15.  The prefix field stores a normalized prefix and reaches the next
    upload at once.  After a change of the prefix field the stored prefix is
    the input trimmed and stripped of its leading and trailing slashes, a
    fixed point of the stripping; [this.uploader] is not touched, and the
    prefix of the keys the uploader builds from then on is that text
    followed by one slash, or nothing when it is empty. *)
Theorem prefix_field_normalizes
  (connect : string -> string -> string -> result TosClient)
  (saved : option StoredData) (changes : list TabChange) (v : string) :
  let p := after_changes connect saved changes in
  let p' := onChange connect (PrefixField v) p in
  let stored := prefix (current_settings p') in
  stored = strip_trailing_slashes (strip_leading_slashes (trim v))
  /\ strip_trailing_slashes (strip_leading_slashes stored) = stored
  /\ this_uploader p' = this_uploader p
  /\ (forall u, uploader_of p' = Some u ->
        normPrefix (settings u) = match stored with "" => "" | _ => stored ++ "/" end).
Proof.
  intros p p' stored.
  destruct (after_changes_settled connect saved changes) as (s & Hs & Ht & _ & _).
  fold p in Hs, Ht.
  assert (Hst : stored = strip_trailing_slashes (strip_leading_slashes (trim v))).
  { unfold stored, p', current_settings, deref. cbn [onChange saveSettings write store this_settings].
    rewrite Ht, Hs. cbn [update List.nth set_prefix prefix]. apply replace_trim_slashes. }
  assert (Hfix : strip_trailing_slashes (strip_leading_slashes stored) = stored).
  { rewrite Hst. apply strip_both_fixed. }
  split; [exact Hst|]. split; [exact Hfix|]. split; [reflexivity|].
  intros u Hu.
  destruct (settled_uploader connect p' u) as [E _]; [|exact Hu|].
  { apply onChange_settled, after_changes_settled. }
  rewrite E, normPrefix_normalized. unfold normalized_prefix. fold stored. rewrite Hfix.
  now destruct stored.
Qed.

(** X16.  What the settings tab saves is what the next start loads.  After
    [onload] and any series of changes, a new [onload] on the data file as
    it stands gives the plugin the settings it has now; and once a change
    was made, the data file holds every key of the settings. *)
Theorem settings_survive_restart
  (connect : string -> string -> string -> result TosClient)
  (saved : option StoredData) (changes : list TabChange) :
  let p := after_changes connect saved changes in
  current_settings (onload connect (data p)) = current_settings p
  /\ (changes <> [] -> data p = Some (serialize (current_settings p))).
Proof.
  intro p. split.
  - destruct (after_changes_settled connect saved changes) as (s & Hs & Ht & Hd & _).
    fold p in Hs, Ht, Hd. rewrite (settled_current p s Hs Ht), <- Hd.
    destruct (onload_settled connect (data p)) as (s' & Hs' & Ht' & Hd' & _).
    rewrite (settled_current _ s' Hs' Ht'), <- Hd'. f_equal.
    unfold onload, reinitUploaderIfReady. cbv zeta.
    destruct (ready _); [|reflexivity]. now destruct (construct _ _).
  - intro Hne. unfold p, after_changes.
    destruct (List.exists_last Hne) as (cs & c & ->).
    rewrite List.fold_left_app. cbn [List.fold_left].
    set (q := List.fold_left _ cs _).
    assert (Hr : forall x, data (reinitUploaderIfReady connect x) = data x
                           /\ current_settings (reinitUploaderIfReady connect x)
                              = current_settings x).
    { intro x. unfold reinitUploaderIfReady. cbv zeta.
      destruct (ready _); [|split; reflexivity]. destruct (construct _ _); split; reflexivity. }
    destruct c; cbn [onChange];
      try (destruct (Hr (saveSettings (write (set_secretId (trim v)) q))) as [-> ->]);
      try (destruct (Hr (saveSettings (write (set_secretKey (trim v)) q))) as [-> ->]);
      try (destruct (Hr (saveSettings (write (set_bucket (trim v)) q))) as [-> ->]);
      try (destruct (Hr (saveSettings (write (set_region (trim v)) q))) as [-> ->]);
      reflexivity.
Qed.

(** X17.  Until it is configured the plugin is inert.  When the data file
    leaves one of secret id, secret key, bucket and region empty, or when
    the SDK refuses to make a client for them, [onload] ends without
    uploader; the paste handler then leaves every event to the editor and
    the menu offers no Delete-one. *)
Theorem unconfigured_plugin_is_inert
  (connect : string -> string -> string -> result TosClient) (pf : Platform)
  (saved : option StoredData) (env : nat -> Moment) (items : list ClipboardItem)
  (activeFile : bool) (w : World) (e : Editor) :
  let s := assign DEFAULT_SETTINGS saved in
  ready s = false
  \/ (exists err, connect (secretId s) (secretKey s) (region s) = Throw err) ->
  let p := onload connect saved in
  uploader_of p = None
  /\ on_editor_paste pf (uploader_of p) env items activeFile w = (w, false)
  /\ menu_delete_one (uploader_of p) e = None.
Proof.
  intros s H p.
  assert (Hu : uploader_of p = None).
  { unfold p, onload, reinitUploaderIfReady, uploader_of. cbv zeta.
    change (current_settings (loadSettings (unloaded saved))) with s.
    destruct (ready s) eqn:R.
    - destruct H as [H | [err H]]; [discriminate|].
      rewrite (construct_ready connect s R), H. reflexivity.
    - reflexivity. }
  rewrite Hu. split; [reflexivity|]. split; [reflexivity|].
  unfold menu_delete_one. now destruct (Re.exec _ _).
Qed.

Lemma unconfigured_plugin_is_inert_witness :
  let p := onload example_connect None in
  let w := quiet "abc" origin in
  let image := {| kind := "file"; mime := "image/png";
                  getAsFile := Some {| name := "a.png"; type := "image/png" |} |} in
  uploader_of p = None
  /\ on_editor_paste example_platform (uploader_of p) (fun _ =>
       {| token_clock := 0; token_random := ""; upload_clock := 0;
          meanwhile := fun x => x |}) [image] true w = (w, false).
Proof.
  intros p w image.
  destruct (unconfigured_plugin_is_inert example_connect example_platform None
              (fun _ => {| token_clock := 0; token_random := ""; upload_clock := 0;
                           meanwhile := fun x => x |}) [image] true w (editor w)
              (or_introl eq_refl)) as (H1 & H2 & _).
  split; [exact H1 | exact H2].
Defined.

(** ** Image files of the vault *)

Section ImageFileFacts.

Lemma m_Eps (ic : bool) (k : Re.state -> option Re.state) (x : Re.state) :
  Re.m ic Re.Eps k x = k x.
Proof. reflexivity. Qed.

(** A run of pattern characters under the i flag. *)
Lemma m_Lit (w : string) :
  forall k p s c,
    Re.m true (Re.Lit w) k (Re.St p s c)
    = if starts_ci w s
      then k (Re.St (p + String.length w) (Js.drop (String.length w) s) c)
      else None.
Proof.
  induction w as [|a w IH]; intros k p s c.
  - cbn [Re.Lit starts_ci String.length Js.drop]. now rewrite m_Eps, Nat.add_0_r.
  - destruct w as [|a2 w].
    + cbn [Re.Lit]. rewrite m_Chr. cbn [Re.rest].
      destruct s as [|b s]; [reflexivity|]. cbn [starts_ci String.length Js.drop].
      rewrite andb_true_r. unfold Re.advance. cbn [Re.rest Re.pos Re.cap].
      now rewrite Nat.add_1_r.
    + change (Re.Lit (String a (String a2 w)))
        with (Re.Seq (Re.Chr a) (Re.Lit (String a2 w))).
      rewrite m_Seq, m_Chr. cbn [Re.rest]. set (w2 := String a2 w) in *.
      destruct s as [|b s]; [reflexivity|].
      change (starts_ci (String a w2) (String b s))
        with (Re.char_eq true a b && starts_ci w2 s).
      destruct (Re.char_eq true a b); [|reflexivity]. cbn [andb].
      unfold Re.advance. cbn [Re.rest Re.pos Re.cap]. rewrite IH.
      change (String.length (String a w2)) with (S (String.length w2)).
      change (Js.drop (S (String.length w2)) (String b s))
        with (Js.drop (String.length w2) s).
      now rewrite Nat.add_succ_r.
Qed.

Lemma match_at_image_extension (i : nat) (s : string) :
  match Re.match_at re_image_extension i s with Some _ => true | None => false end
  = List.existsb (fun w => starts_ci w s) image_names.
Proof.
  unfold Re.match_at, re_image_extension, image_names.
  cbn [Re.source Re.ignoreCase List.existsb]. rewrite !m_Alt, !m_Lit.
  destruct (starts_ci "png" s); [reflexivity|].
  destruct (starts_ci "jpg" s); [reflexivity|].
  destruct (starts_ci "jpeg" s); [reflexivity|].
  destruct (starts_ci "gif" s); [reflexivity|].
  destruct (starts_ci "svg" s); [reflexivity|].
  destruct (starts_ci "webp" s); reflexivity.
Qed.

Lemma existsb_orb {A : Type} (p q : A -> bool) (l : list A) :
  List.existsb (fun x => p x || q x) l = List.existsb p l || List.existsb q l.
Proof.
  induction l as [|x l IH]; [reflexivity|]. cbn [List.existsb]. rewrite IH.
  destruct (p x), (q x), (List.existsb p l); reflexivity.
Qed.

Lemma test_image_extension (s : string) :
  forall i, match Re.search re_image_extension i s with Some _ => true | None => false end
            = List.existsb (fun w => contains_ci w s) image_names.
Proof.
  induction s as [|c s IH]; intro i.
  - cbn [Re.search]. pose proof (match_at_image_extension i "") as H.
    destruct (Re.match_at re_image_extension i ""); rewrite H; reflexivity.
  - cbn [Re.search]. pose proof (match_at_image_extension i (String c s)) as H.
    assert (E : List.existsb (fun w => contains_ci w (String c s)) image_names
                = List.existsb (fun w => starts_ci w (String c s)) image_names
                  || List.existsb (fun w => contains_ci w s) image_names).
    { rewrite <- existsb_orb. reflexivity. }
    rewrite E, <- H, <- (IH (S i)).
    destruct (Re.match_at re_image_extension i (String c s)); reflexivity.
Qed.

End ImageFileFacts.

(** X18.  [isImageFile] is a test for containment: a file passes exactly
    when its extension, in lower case, holds one of the names png, jpg,
    jpeg, gif, svg and webp somewhere, the case of ASCII letters apart.  The
    pattern is not anchored, so an extension that merely contains such a
    name passes as well. *)
Theorem isImageFile_contains (toLowerCase : string -> string) (file : Vault.TFile) :
  isImageFile toLowerCase file
  = List.existsb (fun w => contains_ci w (toLowerCase (Vault.extension file))) image_names.
Proof. unfold isImageFile, Re.test, Re.exec. apply test_image_extension. Qed.

Lemma isImageFile_contains_witness :
  isImageFile Url.lower_string example_odd = true
  /\ isImageFile Url.lower_string example_picture = true
  /\ isImageFile Url.lower_string example_note = false.
Proof.
  rewrite !(isImageFile_contains Url.lower_string). repeat split.
Defined.



(** ** Presigned mode *)

(** X20.  In presigned mode an upload can fail after the object is stored.
    When [putObject] resolves, the URL of the reference is the one the SDK
    signs for the bucket and the key; when the signing throws, [uploadFile]
    throws in its turn and the paste handler treats the image as failed: the
    token is taken out and the failure reported, while the one request sent
    remains the upload that succeeded, with no delete after it. *)
Theorem presign_failure_after_put (pf : Platform) (u : TosUploader) (mo : Moment) (f : File)
  (w : World) :
  let token := placeholderToken (token_clock mo) (token_random mo) in
  let w0 := with_editor (replaceRange pf token (cursor (editor w)) (cursor (editor w))
                           (editor w)) w in
  let key := storageKey (settings u) f (upload_clock mo) in
  let put := PutObject (bucket (settings u)) key
               (if Js.truthy (type f) then Some (type f) else None) in
  usePublicUrl (settings u) = false ->
  respond (client u) (List.length (calls w)) put = None ->
  let w' := paste_image pf u mo f w in
  match getPreSignedUrl (client u) (bucket (settings u)) key with
  | Ok url => fst (uploadFile u f (upload_clock mo) w0) = Ok (url, key)
  | Throw err =>
      fst (uploadFile u f (upload_clock mo) w0) = Throw err
      /\ editor w' = reconcile_failure pf token (meanwhile mo (editor w0))
      /\ notices w' = (notices w ++ [UploadFailed err])%list
      /\ calls w' = (calls w ++ [put])%list
  end.
Proof.
  intros token w0 key put Hprivate Hput w'.
  assert (Hup : fst (uploadFile u f (upload_clock mo) w0)
                = match getPreSignedUrl (client u) (bucket (settings u)) key with
                  | Ok url => Ok (url, key)
                  | Throw err => Throw err
                  end).
  { unfold uploadFile, request. fold key. cbn [with_editor calls w0]. fold put.
    rewrite Hput. unfold getUrl. rewrite Hprivate.
    destruct (getPreSignedUrl _ _ _); reflexivity. }
  destruct (getPreSignedUrl (client u) (bucket (settings u)) key) as [url|err] eqn:E;
    [exact Hup|].
  split; [exact Hup|].
  assert (Hw' : w' = notify (UploadFailed err)
                       (with_editor (reconcile_failure pf token (meanwhile mo (editor w0)))
                          (snd (uploadFile u f (upload_clock mo) w0)))).
  { unfold w', paste_image, getCursor. fold token. fold w0.
    destruct (uploadFile u f (upload_clock mo) w0) as [r w1] eqn:EU.
    cbn [fst snd] in *. subst r.
    pose proof (uploadFile_world u f (upload_clock mo) w0) as Hw. rewrite EU in Hw.
    cbn [snd] in Hw. subst w1. cbn [snd]. reflexivity. }
  rewrite Hw', uploadFile_world. cbn [notify with_editor editor notices calls].
  repeat split.
Qed.

Lemma presign_failure_after_put_witness :
  let u := private_uploader (client_rejecting_key "none") in
  let mo := {| token_clock := 1700000000000; token_random := "0.4fzyo82mvyr";
               upload_clock := 1700000000001; meanwhile := fun e => e |} in
  let f := {| name := "shot.png"; type := "image/png" |} in
  let w' := paste_image example_platform u mo f (quiet "abc" (end_of "abc")) in
  value (editor w') = "abc"
  /\ notices w' = [UploadFailed quota_exceeded]
  /\ calls w' = [PutObject "notes" "img/1700000000001.png" (Some "image/png")].
Proof.
  intros u mo f w'.
  destruct (presign_failure_after_put example_platform u mo f (quiet "abc" (end_of "abc"))
              eq_refl eq_refl) as (_ & He & Hn & Hc).
  split; [exact (f_equal value He)|]. split; [exact Hn | exact Hc].
Defined.
